(** * renovate-git-history-action: the table parser and the history renderer

    A shallow embedding of [parseTable] and [getGitHistoryDescription]
    (both variants present in the repository: the one driving git through
    [@actions/exec] and the one driving it through [simple-git]), together
    with the properties of the design document that concern them.

    Strings are JavaScript strings restricted to code units below 256,
    written as lists of [ascii]; every string primitive below is the
    ECMAScript operation of the same name on that range. *)

From Stdlib Require Import Ascii String ZArith List Lia Bool.
From stdpp Require Import base option list gmap strings.

Set Default Proof Using "Type".

(* ===================================================================== *)
(** ** JavaScript string primitives used by the source                   *)
(* ===================================================================== *)

Module JS.

Abbreviation str := (list ascii).

Definition lit (s : string) : str := list_ascii_of_string s.

Definition LF : ascii := "010"%char.
Definition SP : ascii := " "%char.
Definition BAR : ascii := "|"%char.
Definition TICK : ascii := "`"%char.

Definition inRange (lo hi : nat) (c : ascii) : bool :=
  (lo <=? nat_of_ascii c) && (nat_of_ascii c <=? hi).

(** WhiteSpace and LineTerminator code units below 256: TAB, LF, VT, FF,
    CR, SP and NBSP. *)
Definition isWhiteSpace (c : ascii) : bool :=
  inRange 9 13 c || (nat_of_ascii c =? 32) || (nat_of_ascii c =? 160).

Fixpoint trimStart (s : str) : str :=
  match s with
  | c :: s' => if isWhiteSpace c then trimStart s' else s
  | [] => []
  end.

Definition trimEnd (s : str) : str := rev (trimStart (rev s)).

Definition trim (s : str) : str := trimStart (trimEnd s).

(** [String.prototype.toLowerCase], one code unit at a time: A-Z and the
    Latin-1 capitals U+00C0..U+00DE (U+00D7 excepted) move up by 32. *)
Definition lowerChar (c : ascii) : ascii :=
  if inRange 65 90 c
     || (inRange 192 222 c && negb (nat_of_ascii c =? 215))
  then ascii_of_nat (nat_of_ascii c + 32) else c.

Definition toLowerCase (s : str) : str := map lowerChar s.

Fixpoint startsWith (p s : str) : bool :=
  match p, s with
  | [], _ => true
  | a :: p', b :: s' => bool_decide (a = b) && startsWith p' s'
  | _ :: _, [] => false
  end.

(** Position of the first occurrence of [needle] in [s], counted from [i]. *)
Fixpoint findFrom (needle s : str) (i : nat) : option nat :=
  if startsWith needle s then Some i
  else match s with
       | [] => None
       | _ :: s' => findFrom needle s' (S i)
       end.

Definition clamp (z : Z) (len : nat) : nat := Z.to_nat (Z.min (Z.max z 0) (Z.of_nat len)).

(** [s.indexOf(needle, from)]: -1 when there is no occurrence. *)
Definition indexOf (s needle : str) (from : Z) : Z :=
  let k := clamp from (length s) in
  match findFrom needle (drop k s) k with
  | Some i => Z.of_nat i
  | None => (-1)%Z
  end.

Definition includes (s needle : str) : bool :=
  bool_decide (indexOf s needle 0 ≠ (-1)%Z).

(** [s.substring(a, b)]: both ends are clamped to [0, length] and swapped
    when they come in the wrong order. *)
Definition substring (s : str) (a b : Z) : str :=
  let ia := clamp a (length s) in
  let ib := clamp b (length s) in
  let from := Nat.min ia ib in
  let to := Nat.max ia ib in
  take (to - from) (drop from s).

(** [s.split(sep)] for a separator of one code unit. *)
Fixpoint split (sep : ascii) (s : str) : list str :=
  match s with
  | [] => [[]]
  | c :: s' =>
      if bool_decide (c = sep) then [] :: split sep s'
      else match split sep s' with
           | h :: t => (c :: h) :: t
           | [] => [[c]]
           end
  end.

(** [parts.join(sep)]. *)
Fixpoint join (sep : str) (parts : list str) : str :=
  match parts with
  | [] => []
  | [p] => p
  | p :: rest => p ++ sep ++ join sep rest
  end.

(** Strip [suffix] when [s] ends with it: [s.replace(/suffix$/, "")] for a
    literal suffix. *)
Definition endsWith (s suffix : str) : bool := startsWith (rev suffix) (rev s).

Definition replaceAtEnd (suffix s : str) : str :=
  if endsWith s suffix then take (length s - length suffix) s else s.

(** Canonicalize of a case-insensitive regular expression without the
    unicode flag, on ASCII. A code unit of 128 or more never canonicalizes
    to one below 128, so against an ASCII pattern it compares as itself. *)
Definition canonicalize (c : ascii) : ascii :=
  if inRange 97 122 c then ascii_of_nat (nat_of_ascii c - 32) else c.

(** Match of a literal pattern, ignoring case, at the head of [s]: the
    matched text. *)
Fixpoint matchLiteralCI (pat s : str) : option str :=
  match pat, s with
  | [], _ => Some []
  | p :: pat', c :: s' =>
      if bool_decide (canonicalize p = canonicalize c)
      then cons c <$> matchLiteralCI pat' s'
      else None
  | _ :: _, [] => None
  end.

(** [s.match(/pat/i)] for a literal pattern: the leftmost match, as the
    matched text ([m[0]]). *)
Fixpoint searchLiteralCI (pat s : str) : option str :=
  match matchLiteralCI pat s with
  | Some m => Some m
  | None => match s with
            | [] => None
            | _ :: s' => searchLiteralCI pat s'
            end
  end.

Definition isHex (c : ascii) : bool := inRange 48 57 c || inRange 97 102 c.

(** A greedy bounded repetition [[cls]{lo,hi}] followed by the rest of the
    pattern [k]: the longest run is tried first and the matcher backs off
    one code unit at a time. [lo] counts the code units still required,
    [hi] those still allowed; [acc] is the text consumed so far. *)
Fixpoint repeatGreedy {R} (cls : ascii → bool) (lo hi : nat)
    (k : str → str → option R) (acc s : str) : option R :=
  let stop := if lo is 0 then k acc s else None in
  match hi, s with
  | S hi', c :: s' =>
      if cls c then
        match repeatGreedy cls (pred lo) hi' k (acc ++ [c]) s' with
        | Some r => Some r
        | None => stop
        end
      else stop
  | _, _ => stop
  end.

(** A literal piece of a pattern followed by the rest of the pattern. *)
Definition expect {R} (p : str) (k : str → option R) (s : str) : option R :=
  if startsWith p s then k (drop (length p) s) else None.

(** The leftmost position of [s] at which [m] matches. *)
Fixpoint searchFirst {R} (m : str → option R) (s : str) : option R :=
  match m s with
  | Some r => Some r
  | None => match s with
            | [] => None
            | _ :: s' => searchFirst m s'
            end
  end.

(** What a template literal prints for a value that may be [undefined]. *)
Definition show (v : option str) : str := default (lit "undefined") v.

(** Truthiness of a value that is a string or [undefined]. *)
Definition truthy (v : option str) : bool :=
  match v with
  | Some (_ :: _) => true
  | _ => false
  end.

End JS.

Import JS.

(** The outcome of a call: it returns a value or throws (for an [async]
    function: the promise resolves or rejects). The thrown value is kept
    as the text it prints in a template literal. *)
Inductive Outcome (A : Type) : Type :=
  | Returned (a : A)
  | Thrown (e : str).
Arguments Returned {A} a.
Arguments Thrown {A} e.

(* ===================================================================== *)
(** ** parseTable                                                         *)
(* ===================================================================== *)

Module Table.

Record GitUpdate : Type := mkGitUpdate
  { url : str; oldSha : str; newSha : str }.

Record PackageUpdate : Type := mkPackageUpdate
  { package : option str; update : option str; change : option str }.

Definition headerPattern : str := lit "| Package | Update | Change |".

(** [body.match(/\| Package \| Update \| Change \|/i)]. *)
Definition headerRegex (body : str) : option str :=
  searchLiteralCI headerPattern body.

(** The regular expression of the change cell, tried at the head of [s]:
    a back-tick, 7 to 40 hex digits, the text "` -> `", 7 to 40 hex
    digits, a back-tick. The result is the two groups. *)
Definition changeShaAt (s : str) : option (str * str) :=
  expect [TICK]
    (repeatGreedy isHex 7 40
       (fun g1 => expect (lit "` -> `")
          (repeatGreedy isHex 7 40
             (fun g2 => expect [TICK] (fun _ => Some (g1, g2))) []))
       []) s.

(** [change.match(changeShaRegex)]. *)
Definition changeShaRegex (change : str) : option (str * str) :=
  searchFirst changeShaAt change.

(** The error of calling a method on [undefined]. *)
Definition typeError : str :=
  lit "TypeError: Cannot read properties of undefined (reading 'toLowerCase')".

(** The inner loop [for (let i = 0; i < row.length; i++)]: [cells] are the
    cells of the row from index [i] on. *)
Fixpoint assignCells (tableHeader : list str) (i : nat) (cells : list str)
    (update : PackageUpdate) : Outcome PackageUpdate :=
  match cells with
  | [] => Returned update
  | value :: cells' =>
      match tableHeader !! i with
      | None => Thrown typeError
      | Some h =>
          let header := toLowerCase h in
          let update' :=
            if bool_decide (header = lit "package") then
              mkPackageUpdate (Some value) update.(Table.update) update.(change)
            else if bool_decide (header = lit "update") then
              mkPackageUpdate update.(package) (Some value) update.(change)
            else if bool_decide (header = lit "change") then
              mkPackageUpdate update.(package) update.(Table.update) (Some value)
            else update in
          assignCells tableHeader (S i) cells' update'
      end
  end.

Definition emptyUpdate : PackageUpdate := mkPackageUpdate None None None.

(** The outer loop [for (const row of tableData)], pushing onto [updates]. *)
Fixpoint collectUpdates (tableHeader : list str) (tableData : list (list str))
    (updates : list PackageUpdate) : Outcome (list PackageUpdate) :=
  match tableData with
  | [] => Returned updates
  | row :: rows =>
      match assignCells tableHeader 0 row emptyUpdate with
      | Thrown e => Thrown e
      | Returned update => collectUpdates tableHeader rows (updates ++ [update])
      end
  end.

Definition isDigest (u : PackageUpdate) : bool :=
  bool_decide (u.(update) = Some (lit "digest")).

(** The loop [for (const update of digestUpdates)], pushing onto
    [gitUpdates]; [continue] leaves [gitUpdates] as it is. *)
Fixpoint collectGitUpdates (digestUpdates : list PackageUpdate)
    (gitUpdates : list GitUpdate) : list GitUpdate :=
  match digestUpdates with
  | [] => gitUpdates
  | u :: rest =>
      if negb (truthy u.(package)) || negb (truthy u.(change)) then
        collectGitUpdates rest gitUpdates
      else
        match changeShaRegex (default [] u.(change)) with
        | None => collectGitUpdates rest gitUpdates
        | Some (o, n) =>
            collectGitUpdates rest
              (gitUpdates ++ [mkGitUpdate (default [] u.(package)) o n])
        end
  end.

Definition tableStartOf (body table0 : str) : Z := indexOf body table0 0.
Definition tableEndOf (body table0 : str) : Z :=
  indexOf body [LF; LF] (tableStartOf body table0).
Definition tableBodyOf (body table0 : str) : str :=
  substring body (tableStartOf body table0) (tableEndOf body table0).
Definition tableRowsOf (body table0 : str) : list str :=
  split LF (tableBodyOf body table0).
Definition cellsOf (row : str) : list str := map trim (split BAR row).
Definition tableDataOf (tableRows : list str) : list (list str) :=
  map cellsOf (drop 2 tableRows).

Definition parseTable (body : str) : Outcome (option (list GitUpdate)) :=
  match headerRegex body with
  | None => Returned None
  | Some table0 =>
      let tableRows := tableRowsOf body table0 in
      match tableRows !! 0 with
      | None => Thrown typeError
      | Some row0 =>
          let tableHeader := cellsOf row0 in
          let tableData := tableDataOf tableRows in
          match collectUpdates tableHeader tableData [] with
          | Thrown e => Thrown e
          | Returned updates =>
              let digestUpdates := filter (fun u => isDigest u = true) updates in
              Returned (Some (collectGitUpdates digestUpdates []))
          end
      end
  end.

End Table.

Import Table.

(* ===================================================================== *)
(** ** The world around the renderer                                      *)
(* ===================================================================== *)

Module Effects.

Abbreviation Env := (gmap str str).

(** One run of the external tool or one call of the git library: the
    arguments, the working directory and the [env] option handed over
    ([None]: no [env] option, the child inherits the process environment). *)
Record Invocation : Type := mkInvocation
  { args : list str; cwd : option str; env : option Env }.

Inductive ExecResult : Type :=
  | ExecOk (stdout : str)
  | ExecFailed (error : str).

Record World : Type := mkWorld
  { processEnv : Env;                         (* process.env *)
    osTmpdir : str;                           (* os.tmpdir() *)
    entropy : list str;                       (* suffixes mkdtemp draws *)
    dirs : gset str;                          (* paths that exist *)
    journal : list (Invocation * ExecResult); (* invocations, newest first *)
    warnings : list str }.                    (* core.warning, newest first *)

Definition M (A : Type) : Type := World → Outcome A * World.

Global Instance M_ret : MRet M := fun A a w => (Returned a, w).
Global Instance M_bind : MBind M := fun A B k m w =>
  match m w with
  | (Returned a, w') => k a w'
  | (Thrown e, w') => (Thrown e, w')
  end.

(** [try { m } catch (error) { ... }], with the handler applied by the
    caller to the left value. *)
Definition attempt {A} (m : M A) : M (str + A) :=
  fun w => match m w with
           | (Returned a, w') => (Returned (inr a), w')
           | (Thrown e, w') => (Returned (inl e), w')
           end.

(** [try { body } finally { cleanup }]: [cleanup] runs on every way out of
    [body], a [return] included, and the outcome of [body] stands unless
    [cleanup] throws. *)
Definition tryFinally {A} (body : M A) (cleanup : M unit) : M A :=
  fun w => match body w with
           | (o, w') => match cleanup w' with
                        | (Returned _, w'') => (o, w'')
                        | (Thrown e, w'') => (Thrown e, w'')
                        end
           end.

Definition pathJoin (a b : str) : str := a ++ lit "/" ++ b.

(** [p] is [dir] or lies below it. *)
Definition under (dir p : str) : bool :=
  bool_decide (p = dir) || startsWith (dir ++ lit "/") p.

(** [fs.mkdtempSync(prefix)]: a new directory named [prefix] followed by
    the next suffix drawn; it throws when none can be made. *)
Definition mkdtempSync (prefix : str) : M str :=
  fun w =>
    match w.(entropy) with
    | [] => (Thrown (lit "Error: ENOSPC: no space left on device, mkdtemp"), w)
    | suffix :: rest =>
        let p := prefix ++ suffix in
        let w' := mkWorld w.(processEnv) w.(osTmpdir) rest w.(dirs)
                          w.(journal) w.(warnings) in
        if decide (p ∈ w.(dirs)) then
          (Thrown (lit "Error: EEXIST: file already exists, mkdtemp"), w')
        else
          (Returned p,
           mkWorld w.(processEnv) w.(osTmpdir) rest ({[p]} ∪ w.(dirs))
                   w.(journal) w.(warnings))
    end.

(** [fs.rmSync(dir, {recursive: true, force: true})]. *)
Definition rmSync (dir : str) : M unit :=
  fun w =>
    (Returned tt,
     mkWorld w.(processEnv) w.(osTmpdir) w.(entropy)
             (filter (fun p => under dir p = false) w.(dirs))
             w.(journal) w.(warnings)).

(** [core.warning(msg)]. *)
Definition warning (msg : str) : M unit :=
  fun w =>
    (Returned tt,
     mkWorld w.(processEnv) w.(osTmpdir) w.(entropy) w.(dirs)
             w.(journal) (msg :: w.(warnings))).

Definition tmpdir : M str := fun w => (Returned w.(osTmpdir), w).

(** The environment a child process runs in. *)
Definition childEnv (w : World) (inv : Invocation) : Env :=
  default w.(processEnv) inv.(env).

(** One commit of the range, as read off a line of the log. A field is
    [None] where the line has too few parts ([undefined]). *)
Record GitEntry : Type := mkGitEntry
  { hash : option str; shortHash : option str; date : option str;
    email : option str; subject : str }.

Definition entryOfLine (line : str) : GitEntry :=
  let parts := split SP line in
  mkGitEntry (parts !! 0) (parts !! 1) (parts !! 2) (parts !! 3)
             (join [SP] (drop 4 parts)).

(** The loop [for (const line of log)], pushing onto [gitEntries]. *)
Definition collectEntries (log : list str) : list GitEntry :=
  fold_left (fun gitEntries line => gitEntries ++ [entryOfLine line]) log [].

(** One pass of the loop [for (const entry of gitEntries)]. *)
Definition appendEntry (clickableLink : str) (resultString : str)
    (entry : GitEntry) : str :=
  if truthy (Some clickableLink) then
    resultString ++ lit "[" ++ show entry.(shortHash) ++ lit "]("
      ++ clickableLink ++ show entry.(hash) ++ lit ") " ++ show entry.(date)
      ++ lit " " ++ show entry.(email) ++ lit " " ++ entry.(subject) ++ [LF]
  else
    resultString ++ show entry.(shortHash) ++ lit " " ++ show entry.(date)
      ++ lit " " ++ show entry.(email) ++ lit " " ++ entry.(subject) ++ [LF].

(** [url.replace(/\/$/, "").replace(/\.git$/, "")]. *)
Definition normalizeUrl (url : str) : str :=
  replaceAtEnd (lit ".git") (replaceAtEnd (lit "/") url).

End Effects.

Import Effects.

(* ===================================================================== *)
(** ** getGitHistoryDescription over @actions/exec                        *)
(* ===================================================================== *)

Module ExecGit.
Section WithGit.

(** The git executable: what a run answers and the paths that exist
    afterwards. *)
Variable git : Invocation → World → ExecResult * gset str.

(** [exec.exec("git", args, {cwd, env})]: it throws when the run fails. *)
Definition exec (inv : Invocation) : M str :=
  fun w =>
    let '(r, d) := git inv w in
    let w' := mkWorld w.(processEnv) w.(osTmpdir) w.(entropy) d
                      ((inv, r) :: w.(journal)) w.(warnings) in
    match r with
    | ExecOk out => (Returned out, w')
    | ExecFailed e => (Thrown e, w')
    end.

(** The loop [for (const key in process.env)]. Every variable of the
    process has a value, so the test [value != null] lets each one through. *)
Definition copyEnv (penv : Env) : Env :=
  map_fold (fun key value env => <[key := value]> env) ∅ penv.

Definition sanitizeEnvs : M Env :=
  fun w =>
    let env := copyEnv w.(processEnv) in
    let env := <[lit "LANG" := lit "C.UTF-8"]> env in
    let env := <[lit "LC_ALL" := lit "C.UTF-8"]> env in
    let env := <[lit "TZ" := lit "UTC"]> env in
    (Returned env, w).

Definition execGit (args : list str) (workingDirectory : option str) : M unit :=
  env ← sanitizeEnvs;
  exec (mkInvocation args workingDirectory (Some env)) ;;
  mret tt.

Definition execGitWithStdout (args : list str) (workingDirectory : option str)
    : M str :=
  env ← sanitizeEnvs;
  result ← exec (mkInvocation args workingDirectory (Some env));
  mret (trimEnd result).

Definition logArgs (oldLongSha newLongSha : str) : list str :=
  [lit "log"; lit "--date=format:%Y-%m-%d"; lit "--format=%H %h %ad %ae %s";
   oldLongSha ++ lit ".." ++ newLongSha].

(** The text built after the log has been read. *)
Definition compose (url oldSha newSha oldShortSha newShortSha
    oldLongSha newLongSha : str) (log : list str) : M str :=
  let gitEntries := collectEntries log in
  let resultString : str := [] in
  '(diffDescription, diffLink, clickableLink, isClickable) ←
    (if includes url (lit "github.com") then
       mret (url ++ lit "/compare/" ++ oldShortSha ++ lit "..." ++ newShortSha,
            url ++ lit "/compare/" ++ oldLongSha ++ lit "..." ++ newLongSha,
            url ++ lit "/commit/", true)
     else if includes url (lit "googlesource.com") then
       mret (url ++ lit "/+log/" ++ oldShortSha ++ lit ".." ++ newShortSha,
            url ++ lit "/+log/" ++ oldLongSha ++ lit ".." ++ newLongSha,
            url ++ lit "/+/", true)
     else
       warning (lit "Unknown git url: " ++ url) ;;
       mret (url ++ lit " " ++ oldSha ++ lit ".." ++ newSha, [], [], false));
  let resultString :=
    if (isClickable : bool) then
      resultString ++ lit "- [" ++ diffDescription ++ lit "](" ++ diffLink
        ++ lit ")" ++ [LF; LF]
    else
      resultString ++ lit "- " ++ diffDescription ++ [LF; LF] in
  let resultString :=
    resultString ++ lit "<details><summary>Details</summary>" ++ [LF; LF] in
  let resultString := fold_left (appendEntry clickableLink) gitEntries resultString in
  let resultString := resultString ++ lit "</details>" ++ [LF; LF] in
  mret resultString.

(** The block guarded by [try ... finally]. *)
Definition guarded (url oldSha newSha tempDir : str) : M str :=
  cloned ← attempt (execGit [lit "clone"; url; tempDir] None);
  match cloned with
  | inl error =>
      let msg := lit "Failed to clone " ++ url ++ lit ": " ++ error in
      warning msg ;; mret msg
  | inr _ =>
      oldShortSha ←
        execGitWithStdout [lit "rev-parse"; lit "--short"; oldSha] (Some tempDir);
      newShortSha ←
        execGitWithStdout [lit "rev-parse"; lit "--short"; newSha] (Some tempDir);
      oldLong ← attempt (execGitWithStdout [lit "rev-parse"; oldSha] (Some tempDir));
      match oldLong with
      | inl error =>
          let msg := lit "Failed to get long sha for " ++ oldSha ++ lit ": "
                     ++ error in
          warning msg ;; mret msg
      | inr oldLongSha =>
          newLongSha ← execGitWithStdout [lit "rev-parse"; newSha] (Some tempDir);
          logged ← attempt
            (out ← execGitWithStdout (logArgs oldLongSha newLongSha) (Some tempDir);
             mret (filter (fun line : str => 0 < length line) (split LF out)));
          match logged with
          | inl error =>
              let msg := lit "Failed to get git log: " ++ error in
              warning msg ;; mret msg
          | inr log =>
              compose url oldSha newSha oldShortSha newShortSha
                      oldLongSha newLongSha log
          end
      end
  end.

Definition getGitHistoryDescription (gitUpdate : GitUpdate) : M str :=
  let url := normalizeUrl gitUpdate.(Table.url) in
  let oldSha := gitUpdate.(Table.oldSha) in
  let newSha := gitUpdate.(Table.newSha) in
  base ← tmpdir;
  tempDir ← mkdtempSync (pathJoin base (lit "git-history-"));
  tryFinally (guarded url oldSha newSha tempDir) (rmSync tempDir).

End WithGit.
End ExecGit.

(* ===================================================================== *)
(** ** getGitHistoryDescription over simple-git                           *)
(* ===================================================================== *)

Module SimpleGit.

(** An entry of [log.all]: the object the library builds for a commit,
    its properties holding strings.  It is no string, whatever the type
    [LogResult<string>] says. *)
Abbreviation LogEntry := (gmap str str).

(** What calling [split] on such an object throws. *)
Definition notAFunction : str := lit "TypeError: line.split is not a function".

(** [line.split(separator)] for an entry of [log.all]: no property of the
    object is a function, whatever its name, so the call throws. *)
Definition callSplit (line : LogEntry) (separator : str) : Outcome (list str) :=
  Thrown notAFunction.

(** The entry pushed for the parts of a line. *)
Definition entryOfParts (parts : list str) : GitEntry :=
  mkGitEntry (parts !! 0) (parts !! 1) (parts !! 2) (parts !! 3)
             (join [SP] (drop 4 parts)).

(** A value that is there already, or an error on its way up. *)
Definition outcomeOf {A} (o : Outcome A) : M A := fun w => (o, w).

(** The loop [for (const line of log.all)], pushing onto [gitEntries]. *)
Fixpoint gatherEntries (all : list LogEntry) (gitEntries : list GitEntry)
    : Outcome (list GitEntry) :=
  match all with
  | [] => Returned gitEntries
  | line :: rest =>
      match callSplit line [SP] with
      | Thrown e => Thrown e
      | Returned parts => gatherEntries rest (gitEntries ++ [entryOfParts parts])
      end
  end.

Section WithGit.

(** The git library bound to a base directory: what a call answers and
    the paths that exist afterwards. *)
Variable git : Invocation → World → ExecResult * gset str.

(** The [all] field of the result of [git.log], built by the library from
    the output of the tool. *)
Variable logAll : str → list LogEntry.

(** The [stack] property of a thrown value. *)
Variable stackOf : str → str.

(** A call of a method of [simpleGit({baseDir})]: no [env] option is
    set, and the promise rejects when the tool fails. *)
Definition call (baseDir : str) (args : list str) : M str :=
  fun w =>
    let inv := mkInvocation args (Some baseDir) None in
    let '(r, d) := git inv w in
    let w' := mkWorld w.(processEnv) w.(osTmpdir) w.(entropy) d
                      ((inv, r) :: w.(journal)) w.(warnings) in
    match r with
    | ExecOk out => (Returned out, w')
    | ExecFailed e => (Thrown e, w')
    end.

Definition clone (baseDir repoPath localPath : str) : M str :=
  call baseDir [lit "clone"; repoPath; localPath].

Definition revparse (baseDir : str) (options : list str) : M str :=
  call baseDir (lit "rev-parse" :: options).

(** [git.log({from, to, date, format})]. *)
Definition log (baseDir from to date format : str) : M (list LogEntry) :=
  out ← call baseDir [lit "log"; from; to; date; format];
  mret (logAll out).

Definition compose (url oldSha newSha oldShortSha newShortSha : str)
    (gitEntries : list GitEntry) : str :=
  let resultString : str := [] in
  let '(diffDescription, diffLink, clickableLink, isClickable) :=
    if includes url (lit "github.com") then
      (url ++ lit "/compare/" ++ oldShortSha ++ lit "..." ++ newShortSha,
       url ++ lit "/compare/" ++ oldSha ++ lit "..." ++ newSha,
       url ++ lit "/commit/", true)
    else if includes url (lit "googlesource.com") then
      (url ++ lit "/+log/" ++ oldShortSha ++ lit ".." ++ newShortSha,
       url ++ lit "/+log/" ++ oldSha ++ lit ".." ++ newSha,
       url ++ lit "/+/", true)
    else
      (url ++ lit " " ++ oldSha ++ lit ".." ++ newSha, [], [], false) in
  let resultString :=
    if (isClickable : bool) then
      resultString ++ lit "- [" ++ diffDescription ++ lit "](" ++ diffLink
        ++ lit ")" ++ [LF; LF]
    else
      resultString ++ lit "- " ++ diffDescription ++ [LF; LF] in
  fold_left (appendEntry clickableLink) gitEntries resultString.

(** What follows the making of the temporary directory. *)
Definition describeIn (url oldSha newSha tempDir : str) : M str :=
  cloned ← attempt (clone tempDir url (lit "."));
  match cloned with
  | inl e =>
      let msg := lit "Failed to clone " ++ url ++ lit ": " ++ e in
      warning msg ;; mret msg
  | inr _ =>
      oldShortSha ← revparse tempDir [lit "--short"; oldSha];
      newShortSha ← revparse tempDir [lit "--short"; newSha];
      oldLong ← attempt (revparse tempDir [oldSha]);
      match oldLong with
      | inl e =>
          let msg := lit "Failed to get long sha for " ++ oldSha ++ lit ": " ++ e in
          warning msg ;; mret msg
      | inr oldLongSha =>
          newLongSha ← revparse tempDir [newSha];
          logged ← attempt (log tempDir oldLongSha newLongSha
                                (lit "format:%Y-%m-%d") (lit "%H %h %ad %ae %s"));
          match logged with
          | inl e =>
              let msg := lit "Failed to get git log: " ++ e in
              warning msg ;; warning (stackOf e) ;; mret msg
          | inr logged =>
              gitEntries ← outcomeOf (gatherEntries logged []);
              mret (compose url oldSha newSha oldShortSha newShortSha gitEntries)
          end
      end
  end.

Definition getGitHistoryDescription (gitUpdate : GitUpdate) : M str :=
  let url := normalizeUrl gitUpdate.(Table.url) in
  let oldSha := gitUpdate.(Table.oldSha) in
  let newSha := gitUpdate.(Table.newSha) in
  base ← tmpdir;
  tempDir ← mkdtempSync (pathJoin base (lit "git-history-"));
  describeIn url oldSha newSha tempDir.

End WithGit.
End SimpleGit.

(* ===================================================================== *)
(** ** Sample inputs                                                      *)
(* ===================================================================== *)

Module Samples.

Definition lines (ls : list str) : str := join [LF] ls.

Definition headerLine : str := lit "| Package | Update | Change |".
Definition ruleLine : str := lit "|---|---|---|".
Definition digestRow : str :=
  lit "| https://github.com/acme/lib | digest | `1111111` -> `2222222` |".
Definition pinRow : str := lit "| foo | pin | `1.0` -> `1.1` |".

(** A table followed by a blank line and a footer. *)
Definition exampleBody : str :=
  lines [ lit "This PR contains the following updates:"; [];
          headerLine; ruleLine; digestRow; pinRow; []; lit "---" ].

(** A table whose data row has two cells more than the header row. *)
Definition wideRowBody : str :=
  lines [ headerLine; ruleLine; lit "| a | pin | c | d | e |"; []; [] ].

(** A table with no digest row, whose only data row has two cells more
    than the header row. *)
Definition wideFooterBody : str :=
  lines [ lit "Notes"; []; headerLine; ruleLine;
          lit "| foo | pin | `1.0` -> `1.1` | note | more |"; []; lit "---" ].

(** A mixed table: a digest row, then a pin row with two cells more than
    the header row. *)
Definition mixedWideBody : str :=
  lines [ headerLine; ruleLine; digestRow;
          lit "| foo | pin | `1.0` -> `1.1` | note | more |"; []; lit "---" ].

(** A body that ends with the table: no blank line follows the header. *)
Definition noBlankLineBody : str :=
  lines [ lit "Updates:"; headerLine; ruleLine; digestRow ].

Definition acmeUpdate : GitUpdate :=
  mkGitUpdate (lit "https://github.com/acme/lib.git/") (lit "1111111") (lit "2222222").

Definition world0 : World :=
  mkWorld (<[lit "LANG" := lit "ko_KR.UTF-8"]> (<[lit "HOME" := lit "/root"]> ∅))
          (lit "/tmp") [lit "aB3xYz"] ∅ [] [].

Definition tempDir0 : str := lit "/tmp/git-history-aB3xYz".

Definition argIs (inv : Invocation) (i : nat) (s : string) : bool :=
  bool_decide (inv.(args) !! i = Some (lit s)).

Definition long1 : str := lit "1111111aaaaaaaaaaaaaaaaaaaaaaaaaaaaaaaaa".
Definition long2 : str := lit "2222222bbbbbbbbbbbbbbbbbbbbbbbbbbbbbbbbb".

Definition logOutput : str :=
  lines [ long2 ++ lit " 2222222 2023-05-06 bob@example.com Fix the parser again";
          lit "3333333ccccccccccccccccccccccccccccccccc 3333333 2023-05-05 eve@example.com Add tests";
          [] ].

(** A remote that refuses the clone. *)
Definition gitNoClone (inv : Invocation) (w : World) : ExecResult * gset str :=
  (ExecFailed (lit "Error: The process '/usr/bin/git' failed with exit code 128"),
   w.(dirs)).

(** A clone that works, in which the old hash is unknown. *)
Definition gitUnknownOld (inv : Invocation) (w : World) : ExecResult * gset str :=
  if argIs inv 0 "clone" then
    (ExecOk [], {[tempDir0 ++ lit "/.git"]} ∪ w.(dirs))
  else
    (ExecFailed (lit "Error: The process '/usr/bin/git' failed with exit code 128"),
     w.(dirs)).

(** A clone that works and knows both hashes. *)
Definition gitGood (inv : Invocation) (w : World) : ExecResult * gset str :=
  if argIs inv 0 "clone" then
    (ExecOk [], {[tempDir0 ++ lit "/.git"]} ∪ w.(dirs))
  else if argIs inv 0 "rev-parse" then
    if argIs inv 1 "--short" then
      (ExecOk (default [] (inv.(args) !! 2) ++ [LF]), w.(dirs))
    else if argIs inv 1 "1111111" then (ExecOk (long1 ++ [LF]), w.(dirs))
    else (ExecOk (long2 ++ [LF]), w.(dirs))
  else (ExecOk logOutput, w.(dirs)).

(** The library's answers: as [gitGood], already trimmed. *)
Definition sgitGood (inv : Invocation) (w : World) : ExecResult * gset str :=
  match gitGood inv w with
  | (ExecOk out, d) => (ExecOk (trimEnd out), d)
  | r => r
  end.

(** The same, for a range that holds no commit: the log is empty. *)
Definition sgitEmptyRange (inv : Invocation) (w : World) : ExecResult * gset str :=
  if argIs inv 0 "log" then (ExecOk [], w.(dirs)) else sgitGood inv w.

(** The entries the library makes of an output: one object for each line
    that is not empty. *)
Definition logAll0 (out : str) : list SimpleGit.LogEntry :=
  map (fun line : str =>
         let parts := split SP line in
         <[lit "hash" := default [] (parts !! 0)]>
           (<[lit "date" := default [] (parts !! 2)]>
              (<[lit "author_email" := default [] (parts !! 3)]>
                 (<[lit "message" := join [SP] (drop 4 parts)]> ∅))))
      (filter (fun line : str => 0 < length line) (split LF out)).

Definition stackOf0 (e : str) : str := e.

End Samples.

Import Samples.

(* ===================================================================== *)
(** ** What the design document says, as definitions                      *)
(* ===================================================================== *)

Module Design.

(** Two texts that differ at most in the case of ASCII letters. *)
Definition sameIgnoringCase (a b : str) : Prop :=
  map canonicalize a = map canonicalize b.

(** The body holds the header somewhere. *)
Definition containsHeader (body : str) : Prop :=
  ∃ pre m post, body = pre ++ m ++ post ∧ sameIgnoringCase m headerPattern.

(** The header cells and the data rows [parseTable] works on. *)
Definition parsedTable (body : str) : option (list str * list (list str)) :=
  table0 ← headerRegex body;
  row0 ← tableRowsOf body table0 !! 0;
  Some (cellsOf row0, tableDataOf (tableRowsOf body table0)).

(** The cell of [row] under the column called [name]; of several such
    columns the last one the row reaches. *)
Definition cellNamed (name : string) (tableHeader row : list str) : option str :=
  last (omap (fun hv : str * str =>
                if bool_decide (toLowerCase hv.1 = lit name) then Some hv.2 else None)
             (zip tableHeader row)).

Definition hexRun (h : str) : Prop :=
  Forall (fun c => isHex c = true) h ∧ 7 ≤ length h ≤ 40.

(** [change] reads `old` -> `new` right after [pre]. *)
Definition changeAt (change pre old new : str) : Prop :=
  ∃ post, change = pre ++ [TICK] ++ old ++ lit "` -> `" ++ new ++ [TICK] ++ post
          ∧ hexRun old ∧ hexRun new.

(** The first place of [change] that reads `old` -> `new`. *)
Definition changeMatches (change old new : str) : Prop :=
  ∃ pre, changeAt change pre old new
         ∧ ∀ pre' old' new', changeAt change pre' old' new' → length pre ≤ length pre'.

(** A data row that yields the record [r]. *)
Definition qualifies (tableHeader row : list str) (r : GitUpdate) : Prop :=
  cellNamed "update" tableHeader row = Some (lit "digest")
  ∧ ∃ p c, cellNamed "package" tableHeader row = Some p ∧ p ≠ []
           ∧ cellNamed "change" tableHeader row = Some c ∧ c ≠ []
           ∧ changeMatches c r.(oldSha) r.(newSha)
           ∧ r.(url) = p.

(** [records] are what the qualifying rows yield, row by row, in order. *)
Inductive selects (tableHeader : list str)
    : list (list str) → list GitUpdate → Prop :=
  | selects_nil : selects tableHeader [] []
  | selects_keep row rows r records :
      qualifies tableHeader row r →
      selects tableHeader rows records →
      selects tableHeader (row :: rows) (r :: records)
  | selects_drop row rows records :
      (∀ r, ¬ qualifies tableHeader row r) →
      selects tableHeader rows records →
      selects tableHeader (row :: rows) records.

(** [t] is [s] without the suffix [suffix], or [s] itself when [s] does not
    end with it. *)
Definition strips (suffix s t : str) : Prop :=
  s = t ++ suffix ∨ (t = s ∧ ¬ ∃ u, s = u ++ suffix).

(** The longest run of code units of the class [cls] at the head of [s]. *)
Fixpoint runOf (cls : ascii → bool) (s : str) : str :=
  match s with
  | c :: s' => if cls c then c :: runOf cls s' else []
  | [] => []
  end.

(** No data row has more cells than the header row. *)
Definition rowsFit (tableHeader : list str) (tableData : list (list str)) : Prop :=
  Forall (fun row => length row ≤ length tableHeader) tableData.

(** *** The renderer *)

(** The environment handed to a child: the process environment with the
    locale and the time zone forced. *)
Definition forcedEnv (penv : Env) : Env :=
  <[lit "TZ" := lit "UTC"]>
    (<[lit "LC_ALL" := lit "C.UTF-8"]> (<[lit "LANG" := lit "C.UTF-8"]> penv)).

Inductive Host : Type := GitHub | Googlesource | OtherHost.

(** The host of a repository, by the marker its URL holds; GitHub first. *)
Definition hostOf (repoUrl : str) : Host :=
  if includes repoUrl (lit "github.com") then GitHub
  else if includes repoUrl (lit "googlesource.com") then Googlesource
  else OtherHost.

Record Format : Type := mkFormat
  { rangeDescription : str;
    rangeLink : option str;
    commitLinkPrefix : option str }.

(** The table of host formats. [oldRef] and [newRef] are the hashes put in
    the range link. *)
Definition formatFor (host : Host)
    (repoUrl oldHash newHash oldShort newShort oldRef newRef : str) : Format :=
  match host with
  | GitHub =>
      mkFormat (repoUrl ++ lit "/compare/" ++ oldShort ++ lit "..." ++ newShort)
               (Some (repoUrl ++ lit "/compare/" ++ oldRef ++ lit "..." ++ newRef))
               (Some (repoUrl ++ lit "/commit/"))
  | Googlesource =>
      mkFormat (repoUrl ++ lit "/+log/" ++ oldShort ++ lit ".." ++ newShort)
               (Some (repoUrl ++ lit "/+log/" ++ oldRef ++ lit ".." ++ newRef))
               (Some (repoUrl ++ lit "/+/"))
  | OtherHost =>
      mkFormat (repoUrl ++ lit " " ++ oldHash ++ lit ".." ++ newHash) None None
  end.

(** The first line: the range description, as a link where there is one. *)
Definition rangeLine (f : Format) : str :=
  match f.(rangeLink) with
  | Some link =>
      lit "- [" ++ f.(rangeDescription) ++ lit "](" ++ link ++ lit ")"
  | None => lit "- " ++ f.(rangeDescription)
  end.

(** The line of one commit. *)
Definition commitLine (linkPrefix : option str) (e : GitEntry) : str :=
  match linkPrefix with
  | Some prefix =>
      lit "[" ++ show e.(shortHash) ++ lit "](" ++ prefix ++ show e.(hash)
        ++ lit ") " ++ show e.(date) ++ lit " " ++ show e.(email) ++ lit " "
        ++ e.(subject)
  | None =>
      show e.(shortHash) ++ lit " " ++ show e.(date) ++ lit " "
        ++ show e.(email) ++ lit " " ++ e.(subject)
  end.

Definition commitLines (linkPrefix : option str) (entries : list GitEntry) : str :=
  concat (map (fun e => commitLine linkPrefix e ++ [LF]) entries).

(** The collapsible block titled Details. *)
Definition detailsBlock (linkPrefix : option str) (entries : list GitEntry) : str :=
  lit "<details><summary>Details</summary>" ++ [LF] ++ [LF]
    ++ commitLines linkPrefix entries
    ++ lit "</details>" ++ [LF] ++ [LF].

(** The fragment of a successful render: the range line, a blank line and
    the Details block. *)
Definition fragment (f : Format) (entries : list GitEntry) : str :=
  rangeLine f ++ [LF] ++ [LF] ++ detailsBlock f.(commitLinkPrefix) entries.

(** The same without the Details wrapper. *)
Definition bareFragment (f : Format) (entries : list GitEntry) : str :=
  rangeLine f ++ [LF] ++ [LF] ++ commitLines f.(commitLinkPrefix) entries.

(** How a variant of the renderer talks to git: the invocations it makes,
    what it reads off an answer, and the text it returns on success. *)
Record Dialect : Type := mkDialect
  { cloneCall : Invocation;
    shortCall : str → Invocation;
    longCall : str → Invocation;
    rangeCall : str → str → Invocation;
    answer : str → str;
    logLines : str → list str;
    rendered : str → str → str → str → list str → str }.

(** A run of the renderer once the temporary directory exists: the
    invocations made, oldest first, each with its result, and the outcome
    of the call. *)
Inductive Run (d : Dialect) (repoUrl oldHash newHash : str)
    : list (Invocation * ExecResult) → Outcome str → Prop :=
  | run_clone_failed e :
      Run d repoUrl oldHash newHash
        [(d.(cloneCall), ExecFailed e)]
        (Returned (lit "Failed to clone " ++ repoUrl ++ lit ": " ++ e))
  | run_short_old_failed c e :
      Run d repoUrl oldHash newHash
        [(d.(cloneCall), ExecOk c); (d.(shortCall) oldHash, ExecFailed e)]
        (Thrown e)
  | run_short_new_failed c oS e :
      Run d repoUrl oldHash newHash
        [(d.(cloneCall), ExecOk c); (d.(shortCall) oldHash, ExecOk oS);
         (d.(shortCall) newHash, ExecFailed e)]
        (Thrown e)
  | run_long_old_failed c oS nS e :
      Run d repoUrl oldHash newHash
        [(d.(cloneCall), ExecOk c); (d.(shortCall) oldHash, ExecOk oS);
         (d.(shortCall) newHash, ExecOk nS); (d.(longCall) oldHash, ExecFailed e)]
        (Returned (lit "Failed to get long sha for " ++ oldHash ++ lit ": " ++ e))
  | run_long_new_failed c oS nS oL e :
      Run d repoUrl oldHash newHash
        [(d.(cloneCall), ExecOk c); (d.(shortCall) oldHash, ExecOk oS);
         (d.(shortCall) newHash, ExecOk nS); (d.(longCall) oldHash, ExecOk oL);
         (d.(longCall) newHash, ExecFailed e)]
        (Thrown e)
  | run_log_failed c oS nS oL nL e :
      Run d repoUrl oldHash newHash
        [(d.(cloneCall), ExecOk c); (d.(shortCall) oldHash, ExecOk oS);
         (d.(shortCall) newHash, ExecOk nS); (d.(longCall) oldHash, ExecOk oL);
         (d.(longCall) newHash, ExecOk nL);
         (d.(rangeCall) (d.(answer) oL) (d.(answer) nL), ExecFailed e)]
        (Returned (lit "Failed to get git log: " ++ e))
  | run_success c oS nS oL nL out :
      Run d repoUrl oldHash newHash
        [(d.(cloneCall), ExecOk c); (d.(shortCall) oldHash, ExecOk oS);
         (d.(shortCall) newHash, ExecOk nS); (d.(longCall) oldHash, ExecOk oL);
         (d.(longCall) newHash, ExecOk nL);
         (d.(rangeCall) (d.(answer) oL) (d.(answer) nL), ExecOk out)]
        (Returned (d.(rendered) (d.(answer) oS) (d.(answer) nS)
                                (d.(answer) oL) (d.(answer) nL)
                                (d.(logLines) out))).

(** The variant over [@actions/exec]. *)
Definition execDialect (penv : Env) (repoUrl oldHash newHash tempDir : str)
    : Dialect :=
  let run args cwd := mkInvocation args cwd (Some (forcedEnv penv)) in
  mkDialect
    (run [lit "clone"; repoUrl; tempDir] None)
    (fun sha => run [lit "rev-parse"; lit "--short"; sha] (Some tempDir))
    (fun sha => run [lit "rev-parse"; sha] (Some tempDir))
    (fun oldLong newLong =>
       run [lit "log"; lit "--date=format:%Y-%m-%d";
            lit "--format=%H %h %ad %ae %s"; oldLong ++ lit ".." ++ newLong]
           (Some tempDir))
    trimEnd
    (fun out => filter (fun line : str => 0 < length line) (split LF (trimEnd out)))
    (fun oldShort newShort oldLong newLong log =>
       fragment (formatFor (hostOf repoUrl) repoUrl oldHash newHash
                           oldShort newShort oldLong newLong)
                (map entryOfLine log)).

(** A call of the git library bound to [tempDir]: no environment of its
    own. *)
Definition libraryCall (tempDir : str) (args : list str) : Invocation :=
  mkInvocation args (Some tempDir) None.

(** The calls of the variant over [simple-git]. *)
Definition cloneInto (tempDir repoUrl : str) : Invocation :=
  libraryCall tempDir [lit "clone"; repoUrl; lit "."].
Definition shortOf (tempDir sha : str) : Invocation :=
  libraryCall tempDir [lit "rev-parse"; lit "--short"; sha].
Definition longOf (tempDir sha : str) : Invocation :=
  libraryCall tempDir [lit "rev-parse"; sha].
Definition logBetween (tempDir oldLong newLong : str) : Invocation :=
  libraryCall tempDir [lit "log"; oldLong; newLong; lit "format:%Y-%m-%d";
                       lit "%H %h %ad %ae %s"].

(** A run of the variant over [simple-git] once the temporary directory
    exists: the calls made, oldest first, each with its result, and the
    outcome.  The six calls are those of the other variant and stop at the
    first that fails, with the same outcomes.  When all six worked the
    outcome hangs on [log.all]: without an entry the call returns the
    range line, with the hashes as written in the record in its link, and
    a blank line; with an entry the loop over [log.all] throws. *)
Inductive LibraryRun (logAll : str → list SimpleGit.LogEntry)
    (tempDir repoUrl oldHash newHash : str)
    : list (Invocation * ExecResult) → Outcome str → Prop :=
  | library_clone_failed e :
      LibraryRun logAll tempDir repoUrl oldHash newHash
        [(cloneInto tempDir repoUrl, ExecFailed e)]
        (Returned (lit "Failed to clone " ++ repoUrl ++ lit ": " ++ e))
  | library_short_old_failed c e :
      LibraryRun logAll tempDir repoUrl oldHash newHash
        [(cloneInto tempDir repoUrl, ExecOk c);
         (shortOf tempDir oldHash, ExecFailed e)]
        (Thrown e)
  | library_short_new_failed c oS e :
      LibraryRun logAll tempDir repoUrl oldHash newHash
        [(cloneInto tempDir repoUrl, ExecOk c);
         (shortOf tempDir oldHash, ExecOk oS);
         (shortOf tempDir newHash, ExecFailed e)]
        (Thrown e)
  | library_long_old_failed c oS nS e :
      LibraryRun logAll tempDir repoUrl oldHash newHash
        [(cloneInto tempDir repoUrl, ExecOk c);
         (shortOf tempDir oldHash, ExecOk oS);
         (shortOf tempDir newHash, ExecOk nS);
         (longOf tempDir oldHash, ExecFailed e)]
        (Returned (lit "Failed to get long sha for " ++ oldHash ++ lit ": " ++ e))
  | library_long_new_failed c oS nS oL e :
      LibraryRun logAll tempDir repoUrl oldHash newHash
        [(cloneInto tempDir repoUrl, ExecOk c);
         (shortOf tempDir oldHash, ExecOk oS);
         (shortOf tempDir newHash, ExecOk nS);
         (longOf tempDir oldHash, ExecOk oL);
         (longOf tempDir newHash, ExecFailed e)]
        (Thrown e)
  | library_log_failed c oS nS oL nL e :
      LibraryRun logAll tempDir repoUrl oldHash newHash
        [(cloneInto tempDir repoUrl, ExecOk c);
         (shortOf tempDir oldHash, ExecOk oS);
         (shortOf tempDir newHash, ExecOk nS);
         (longOf tempDir oldHash, ExecOk oL);
         (longOf tempDir newHash, ExecOk nL);
         (logBetween tempDir oL nL, ExecFailed e)]
        (Returned (lit "Failed to get git log: " ++ e))
  | library_no_entry c oS nS oL nL out :
      logAll out = [] →
      LibraryRun logAll tempDir repoUrl oldHash newHash
        [(cloneInto tempDir repoUrl, ExecOk c);
         (shortOf tempDir oldHash, ExecOk oS);
         (shortOf tempDir newHash, ExecOk nS);
         (longOf tempDir oldHash, ExecOk oL);
         (longOf tempDir newHash, ExecOk nL);
         (logBetween tempDir oL nL, ExecOk out)]
        (Returned (rangeLine (formatFor (hostOf repoUrl) repoUrl oldHash newHash
                                        oS nS oldHash newHash)
                     ++ [LF; LF]))
  | library_entries c oS nS oL nL out :
      logAll out ≠ [] →
      LibraryRun logAll tempDir repoUrl oldHash newHash
        [(cloneInto tempDir repoUrl, ExecOk c);
         (shortOf tempDir oldHash, ExecOk oS);
         (shortOf tempDir newHash, ExecOk nS);
         (longOf tempDir oldHash, ExecOk oL);
         (longOf tempDir newHash, ExecOk nL);
         (logBetween tempDir oL nL, ExecOk out)]
        (Thrown SimpleGit.notAFunction).

(** In [e] the locale and the time zone are forced, and every other
    variable is as in [penv]. *)
Definition forcesLocale (penv e : Env) : Prop :=
  e !! lit "LANG" = Some (lit "C.UTF-8")
  ∧ e !! lit "LC_ALL" = Some (lit "C.UTF-8")
  ∧ e !! lit "TZ" = Some (lit "UTC")
  ∧ ∀ key, key ≠ lit "LANG" → key ≠ lit "LC_ALL" → key ≠ lit "TZ" →
           e !! key = penv !! key.

(** The answers of a run in which every invocation worked. *)
Definition allWorked (c oS nS oL nL out : str) : list ExecResult :=
  [ExecOk c; ExecOk oS; ExecOk nS; ExecOk oL; ExecOk nL; ExecOk out].

(** The outcome is a text handed back to the caller. *)
Definition returnsText (o : Outcome str) : Prop := ∃ text, o = Returned text.

End Design.

Import Design.

(* ===================================================================== *)
(** ** The action around the two functions: run                           *)
(* ===================================================================== *)

Module Actions.

(** The body of a pull request in the event payload: a text, [null], or
    no such key. *)
Inductive Body : Type :=
  | Text (s : str)
  | Null
  | Missing.

(** The event payload, as far as [run] reads it. Apart from the body, a
    field is [None] where the payload has no such key. *)
Record PullRequest : Type := mkPullRequest
  { number : option nat; body : Body }.
Record Owner : Type := mkOwner { login : option str }.
Record Repository : Type := mkRepository
  { owner : option Owner; name : option str }.
Record Event : Type := mkEvent
  { pull_request : option PullRequest; repository : option Repository }.

(** The parameters of
    [POST /repos/{owner}/{repo}/issues/{issue_number}/comments]. *)
Module Octokit.
Record Request : Type := mkRequest
  { owner : option str; repo : option str; issue_number : option nat;
    body : str }.
End Octokit.

(** The state of a run of the action: the world of the renderer, what
    [core.info] and [core.setFailed] were given (newest first) and the
    requests sent to the API (newest first). *)
Record Runner : Type := mkRunner
  { world : World;
    infos : list str;
    failures : list str;
    requests : list Octokit.Request }.

Definition D (A : Type) : Type := Runner → Outcome A * Runner.

Global Instance D_ret : MRet D := fun A a r => (Returned a, r).
Global Instance D_bind : MBind D := fun A B k m r =>
  match m r with
  | (Returned a, r') => k a r'
  | (Thrown e, r') => (Thrown e, r')
  end.

(** A call of one of the two functions from within [run]. *)
Definition await {A} (m : M A) : D A :=
  fun r =>
    let '(o, w') := m r.(world) in
    (o, mkRunner w' r.(infos) r.(failures) r.(requests)).

(** The promise of [parseTable]. *)
Definition settle {A} (o : Outcome A) : D A := fun r => (o, r).

(** [core.info(msg)]. *)
Definition info (msg : str) : D unit :=
  fun r =>
    (Returned tt, mkRunner r.(world) (msg :: r.(infos)) r.(failures) r.(requests)).

(** [core.setFailed(msg)]. *)
Definition setFailed (msg : str) : D unit :=
  fun r =>
    (Returned tt, mkRunner r.(world) r.(infos) (msg :: r.(failures)) r.(requests)).

(** [try { m } catch (error) { handler }]. *)
Definition tryCatch {A} (m : D A) (handler : str → D A) : D A :=
  fun r =>
    match m r with
    | (Returned a, r') => (Returned a, r')
    | (Thrown e, r') => handler e r'
    end.

(** The error of reading the property [prop] of a value that is not
    there. *)
Definition cannotRead (prop : string) : str :=
  lit "TypeError: Cannot read properties of undefined (reading '" ++ lit prop
    ++ lit "')".

(** [v.prop] where [v] may be absent; [v] is given as read so far. *)
Definition reading {A} (prop : string) (v : option A) : D A :=
  fun r =>
    match v with
    | Some a => (Returned a, r)
    | None => (Thrown (cannotRead prop), r)
    end.

Definition isWord (c : ascii) : bool :=
  inRange 48 57 c || inRange 65 90 c || inRange 97 122 c
  || (nat_of_ascii c =? 95).

(** [/renovate(\s|\[bot])/i] tried at the head of [s]. *)
Definition renovateAt (s : str) : option unit :=
  match matchLiteralCI (lit "renovate") s with
  | None => None
  | Some m =>
      let rest := drop (length m) s in
      match rest with
      | c :: _ => if isWhiteSpace c then Some tt
                  else (fun _ => tt) <$> matchLiteralCI (lit "[bot]") rest
      | [] => (fun _ => tt) <$> matchLiteralCI (lit "[bot]") rest
      end
  end.

(** [/renovate(\s|\[bot])/i.test(s)]. *)
Definition renovateTest (s : str) : bool :=
  bool_decide (is_Some (searchFirst renovateAt s)).

(** [/This PR has been generated by \[\w+ Renovate/] tried at the head of
    [s]; the repetition [\w+] has no upper bound but the text itself. *)
Definition generatedAt (s : str) : option unit :=
  expect (lit "This PR has been generated by [")
    (fun rest =>
       repeatGreedy isWord 1 (length rest)
         (fun _ => expect (lit " Renovate") (fun _ => Some tt)) [] rest)
    s.

(** [/This PR has been generated by \[\w+ Renovate/.test(s)]. *)
Definition generatedTest (s : str) : bool :=
  bool_decide (is_Some (searchFirst generatedAt s)).

(** What a regular expression tests when handed the body. *)
Definition tested (prBody : Body) : str :=
  match prBody with
  | Text s => s
  | Null => lit "null"
  | Missing => lit "undefined"
  end.

(** [!prBody]. *)
Definition falsy (prBody : Body) : bool :=
  match prBody with
  | Text (_ :: _) => false
  | _ => true
  end.

(** [parseTable(prBody)]: the call of [match] on a body that is no text
    throws. *)
Definition parseTableOf (prBody : Body) : D (option (list GitUpdate)) :=
  match prBody with
  | Text b => settle (parseTable b)
  | Null =>
      settle (Thrown (lit "TypeError: Cannot read properties of null (reading 'match')"))
  | Missing => settle (Thrown (cannotRead "match"))
  end.

Section WithCollaborators.

(** Reading and parsing the file named by [GITHUB_EVENT_PATH]. *)
Variable readEvent : World → Outcome Event.

(** [octokit.request]: whether the API call goes through. *)
Variable octokitRequest : Octokit.Request → Runner → Outcome unit.

(** [getGitHistoryDescription], in either variant. *)
Variable getGitHistoryDescription : GitUpdate → M str.

Definition loadEvent : D Event := fun r => (readEvent r.(world), r).

Definition request (parameters : Octokit.Request) : D unit :=
  fun r =>
    (octokitRequest parameters r,
     mkRunner r.(world) r.(infos) r.(failures) (parameters :: r.(requests))).

(** The loop [for (const gitUpdate of gitUpdates)], adding to
    [description]. *)
Fixpoint describeAll (gitUpdates : list GitUpdate) (description : str) : D str :=
  match gitUpdates with
  | [] => mret description
  | gitUpdate :: rest =>
      piece ← await (getGitHistoryDescription gitUpdate);
      describeAll rest (description ++ piece)
  end.

End WithCollaborators.
End Actions.

(** [run] of src/src/main.ts. *)
Module Main.
Import Actions.
Section WithCollaborators.

Variable readEvent : World → Outcome Event.
Variable octokitRequest : Octokit.Request → Runner → Outcome unit.
Variable getGitHistoryDescription : GitUpdate → M str.

(** The [message] of a thrown value, and whether it is an [Error]. *)
Variable messageOf : str → str.
Variable isError : str → bool.

Definition run : D unit :=
  tryCatch
    (event ← loadEvent readEvent;
     match event.(pull_request) with
     | None => setFailed (lit "No pull request found.")
     | Some pr =>
         let prBody := pr.(body) in
         if negb (renovateTest (tested prBody)) then
           info (lit "This PR is not created by renovate bot.")
         else
           gitUpdates ← parseTableOf prBody;
           match gitUpdates with
           | None => info (lit "No updates found.")
           | Some gitUpdates =>
               info (lit "Found updates for the following packages:") ;;
               info (join [LF] (map url gitUpdates)) ;;
               description ← describeAll getGitHistoryDescription gitUpdates [];
               repo ← reading "owner" event.(repository);
               own ← reading "login" repo.(owner);
               request octokitRequest
                 (Octokit.mkRequest own.(login) repo.(name) pr.(number)
                                    description) ;;
               info (lit "Comment created.")
           end
     end)
    (fun error => if isError error then setFailed (messageOf error) else mret tt).

End WithCollaborators.
End Main.

(** [run] of the driver that comes with src/src/util.ts. *)
Module MainNext.
Import Actions.
Section WithCollaborators.

Variable readEvent : World → Outcome Event.
Variable octokitRequest : Octokit.Request → Runner → Outcome unit.
Variable getGitHistoryDescription : GitUpdate → M str.

(** The [message] and the [stack] of a thrown value. *)
Variable messageOf : str → str.
Variable stackOf : str → str.

Definition run : D unit :=
  tryCatch
    (event ← loadEvent readEvent;
     match event.(pull_request) with
     | None => setFailed (lit "No pull request found.")
     | Some pr =>
         repository ← reading "owner" event.(repository);
         own ← reading "login" repository.(owner);
         let owner := own.(login) in
         let repo := repository.(name) in
         let prNumber := pr.(number) in
         let prBody := pr.(body) in
         if falsy prBody then setFailed (lit "No PR body found.")
         else if negb (generatedTest (tested prBody)) then
           info (lit "This PR is not created by renovate bot.")
         else
           gitUpdates ← parseTableOf prBody;
           match gitUpdates with
           | None => info (lit "No updates found.")
           | Some gitUpdates =>
               info (lit "Found updates for the following packages:") ;;
               info (join [LF] (map url gitUpdates)) ;;
               description ← describeAll getGitHistoryDescription gitUpdates [];
               if negb (truthy (Some description)) then
                 info (lit "Nothing to comment.")
               else
                 info (lit "Description: " ++ [LF] ++ description) ;;
                 request octokitRequest
                   (Octokit.mkRequest owner repo prNumber description) ;;
                 info (lit "Comment created.")
           end
     end)
    (fun error => setFailed (messageOf error ++ [LF] ++ stackOf error)).

End WithCollaborators.
End MainNext.

(** What [run] is expected to do, and sample runs. *)
Module ActionsDesign.
Import Actions.

(** The pieces rendered for the records in turn, each call starting in the
    world the call before it left. *)
Inductive rendersTo (render : GitUpdate → M str)
    : list GitUpdate → World → list str → World → Prop :=
  | rendersTo_nil w : rendersTo render [] w [] w
  | rendersTo_cons u us w piece w1 pieces w2 :
      render u w = (Returned piece, w1) →
      rendersTo render us w1 pieces w2 →
      rendersTo render (u :: us) w (piece :: pieces) w2.

(** The runner [r] in another world. *)
Definition inWorld (w : World) (r : Runner) : Runner :=
  mkRunner w r.(infos) r.(failures) r.(requests).

(** Invocations of which only the last can have failed. *)
Definition orderly (calls : list (Invocation * ExecResult)) : Prop :=
  ∀ i c, calls !! i = Some c → S i < length calls → ∃ out, c.2 = ExecOk out.

(** What the exec variant warns of once the log is read. *)
Definition hostWarnings (repoUrl : str) : list str :=
  match hostOf repoUrl with
  | OtherHost => [lit "Unknown git url: " ++ repoUrl]
  | _ => []
  end.

(** A text has no white space at either end. *)
Definition trimmed (s : str) : Prop := trim s = s.

(** A record as [parseTable] makes them. *)
Definition wellFormed (u : GitUpdate) : Prop :=
  hexRun u.(oldSha) ∧ hexRun u.(newSha)
  ∧ u.(url) ≠ [] ∧ trimmed u.(url) ∧ (BAR ∉ u.(url)) ∧ (LF ∉ u.(url)).

(** A row with more cells than the header row. *)
Definition hasWideRow (tableHeader : list str) (tableData : list (list str)) : Prop :=
  Exists (fun row => length tableHeader < length row) tableData.

(** What [run] of src/src/main.ts makes of a thrown value. *)
Definition caught (isError : str → bool) (messageOf : str → str)
    (e : str) (r : Runner) : Outcome unit * Runner :=
  (Returned tt,
   if isError e
   then mkRunner r.(world) r.(infos) (messageOf e :: r.(failures)) r.(requests)
   else r).

(** What [run] of the later driver makes of a thrown value. *)
Definition caughtNext (messageOf stackOf : str → str)
    (e : str) (r : Runner) : Outcome unit * Runner :=
  (Returned tt,
   mkRunner r.(world) r.(infos)
            ((messageOf e ++ [LF] ++ stackOf e) :: r.(failures)) r.(requests)).

(** The runner once the updates found have been announced. *)
Definition announced (gitUpdates : list GitUpdate) (r : Runner) : Runner :=
  mkRunner r.(world)
           (join [LF] (map url gitUpdates)
              :: lit "Found updates for the following packages:" :: r.(infos))
           r.(failures) r.(requests).

(** The runner once [parameters] have been handed to octokit. *)
Definition sent (parameters : Octokit.Request) (r : Runner) : Runner :=
  mkRunner r.(world) r.(infos) r.(failures) (parameters :: r.(requests)).

(** The runner once [msg] has been logged. *)
Definition informed (msg : str) (r : Runner) : Runner :=
  mkRunner r.(world) (msg :: r.(infos)) r.(failures) r.(requests).

Definition botBody : str :=
  lines [ lit "This PR contains the following updates:"; [];
          headerLine; ruleLine; digestRow; pinRow; []; lit "---"; [];
          lit "This PR has been generated by [Mend Renovate](https://www.mend.io/).";
          lit "renovate [bot]" ].

(** The two lines by which the drivers know the bot. *)
Definition botLines : list str :=
  [ lit "This PR has been generated by [Mend Renovate](https://www.mend.io/).";
    lit "renovate [bot]" ].

(** A body of the bot whose table has a row wider than the header row. *)
Definition wideBotBody : str :=
  lines ([ headerLine; ruleLine; lit "| a | pin | c | d | e |"; [] ] ++ botLines).

(** A body of the bot whose table has no digest row. *)
Definition pinBotBody : str :=
  lines ([ headerLine; ruleLine; pinRow; [] ] ++ botLines).

(** A body of the bot without the table. *)
Definition bareBotBody : str := lines botLines.

Definition owner0 : Owner := mkOwner (Some (lit "acme")).
Definition repository0 : Repository := mkRepository (Some owner0) (Some (lit "app")).

Definition pullRequestWith (prBody : Body) : PullRequest :=
  mkPullRequest (Some 7) prBody.

Definition eventWith (prBody : Body) : Event :=
  mkEvent (Some (pullRequestWith prBody)) (Some repository0).

Definition event0 : Event := eventWith (Text botBody).

(** The event of [event0] without the repository. *)
Definition eventNoRepository : Event :=
  mkEvent (Some (pullRequestWith (Text botBody))) None.

Definition reads (ev : Event) (w : World) : Outcome Event := Returned ev.

(** The record [parseTable] makes of [digestRow]. *)
Definition digestUpdate : GitUpdate :=
  mkGitUpdate (lit "https://github.com/acme/lib") (lit "1111111") (lit "2222222").

Definition render0 : GitUpdate → M str := ExecGit.getGitHistoryDescription gitGood.

(** What [render0] returns for [digestUpdate]. *)
Definition piece0 : str :=
  lines
    [ lit "- [https://github.com/acme/lib/compare/1111111...2222222](https://github.com/acme/lib/compare/1111111aaaaaaaaaaaaaaaaaaaaaaaaaaaaaaaaa...2222222bbbbbbbbbbbbbbbbbbbbbbbbbbbbbbbbb)";
      [];
      lit "<details><summary>Details</summary>";
      [];
      lit "[2222222](https://github.com/acme/lib/commit/2222222bbbbbbbbbbbbbbbbbbbbbbbbbbbbbbbbb) 2023-05-06 bob@example.com Fix the parser again";
      lit "[3333333](https://github.com/acme/lib/commit/3333333ccccccccccccccccccccccccccccccccc) 2023-05-05 eve@example.com Add tests";
      lit "</details>";
      []; [] ].

(** What git says of a hash it does not know. *)
Definition exit128 : str :=
  lit "Error: The process '/usr/bin/git' failed with exit code 128".
Definition renderUnknown : GitUpdate → M str :=
  ExecGit.getGitHistoryDescription gitUnknownOld.

Definition runner0 : Runner := mkRunner world0 [] [] [].

Definition readEvent0 (w : World) : Outcome Event := Returned event0.
Definition octokit0 (parameters : Octokit.Request) (r : Runner) : Outcome unit :=
  Returned tt.
Definition messageOf0 (e : str) : str := e.
Definition isError0 (e : str) : bool := true.

End ActionsDesign.

(* ===================================================================== *)
(** ** Facts about the string primitives                                  *)
(* ===================================================================== *)

Lemma startsWith_app (p t : str) : startsWith p (p ++ t) = true.
Proof.
  induction p as [|a p IH]; simpl; [done|].
  rewrite IH, bool_decide_eq_true_2; done.
Qed.

Lemma startsWith_inv (p s : str) :
  startsWith p s = true → s = p ++ drop (length p) s.
Proof.
  revert s; induction p as [|a p IH]; intros [|b s]; simpl; try done.
  intros [Hab Hps]%andb_true_iff. apply bool_decide_eq_true_1 in Hab.
  subst b. f_equal. by apply IH.
Qed.

Lemma startsWith_iff (p s : str) :
  startsWith p s = true ↔ ∃ t, s = p ++ t.
Proof.
  split.
  - intros H. eexists. by apply startsWith_inv.
  - intros [t ->]. apply startsWith_app.
Qed.

Lemma matchLiteralCI_Some (pat s m : str) :
  matchLiteralCI pat s = Some m ↔
  ∃ post, s = m ++ post ∧ sameIgnoringCase m pat.
Proof.
  unfold sameIgnoringCase. revert s m.
  induction pat as [|p pat IH]; intros s m; simpl.
  - split.
    + intros [= <-]. by exists s.
    + intros [post [-> Hm]]. destruct m; [done|discriminate].
  - destruct s as [|c s].
    + split; [done|]. intros [post [Hs Hm]].
      destruct m; [discriminate|discriminate].
    + case_bool_decide as Hc.
      * split.
        -- destruct (matchLiteralCI pat s) as [m'|] eqn:Hm'; [|done].
           intros [= <-]. apply IH in Hm' as [post [-> Hm']].
           exists post. simpl. split; [done|]. by rewrite Hm', Hc.
        -- intros [post [Hs Hm]]. destruct m as [|c' m]; [discriminate|].
           simpl in Hs, Hm. injection Hs as -> ->. injection Hm as _ Hm.
           assert (matchLiteralCI pat (m ++ post) = Some m) as ->; [|done].
           apply IH. by exists post.
      * split; [done|]. intros [post [Hs Hm]].
        destruct m as [|c' m]; [discriminate|].
        simpl in Hs, Hm. injection Hs as -> ->. injection Hm as Hcc _.
        by rewrite Hcc in Hc.
Qed.

Lemma searchLiteralCI_Some (pat s m : str) :
  searchLiteralCI pat s = Some m →
  ∃ pre post, s = pre ++ m ++ post ∧ sameIgnoringCase m pat.
Proof.
  induction s as [|c s IH]; simpl.
  - destruct (matchLiteralCI pat []) as [m'|] eqn:Hm'; [|done].
    intros [= <-]. apply matchLiteralCI_Some in Hm' as [post [Hs Hm]].
    by exists [], post.
  - destruct (matchLiteralCI pat (c :: s)) as [m'|] eqn:Hm'.
    + intros [= <-]. apply matchLiteralCI_Some in Hm' as [post [Hs Hm]].
      by exists [], post.
    + intros [pre [post [-> Hm]]]%IH. by exists (c :: pre), post.
Qed.

Lemma searchLiteralCI_None (pat s : str) :
  searchLiteralCI pat s = None ↔
  ¬ ∃ pre m post, s = pre ++ m ++ post ∧ sameIgnoringCase m pat.
Proof.
  split.
  - induction s as [|c s IH]; simpl.
    + destruct (matchLiteralCI pat []) as [m'|] eqn:Hm'; [done|].
      intros _ (pre & m & post & Hs & Hm).
      destruct pre; [|discriminate]. simpl in Hs.
      assert (matchLiteralCI pat [] = Some m) as Hx
        by (apply matchLiteralCI_Some; by exists post).
      congruence.
    + destruct (matchLiteralCI pat (c :: s)) as [m'|] eqn:Hm'; [done|].
      intros Hs (pre & m & post & Heq & Hm).
      destruct pre as [|c' pre]; simpl in Heq.
      * assert (matchLiteralCI pat (c :: s) = Some m) as Hx
          by (apply matchLiteralCI_Some; by exists post).
        congruence.
      * injection Heq as -> ->. apply (IH Hs). by exists pre, m, post.
  - intros Hno. destruct (searchLiteralCI pat s) as [m|] eqn:Hm; [|done].
    apply searchLiteralCI_Some in Hm as (pre & post & Hs & Hm).
    exfalso. apply Hno. by exists pre, m, post.
Qed.

Lemma split_nonempty (sep : ascii) (s : str) : split sep s ≠ [].
Proof.
  destruct s as [|c s]; simpl; [done|].
  case_bool_decide; [done|]. by destruct (split sep s).
Qed.

Lemma split_head (sep : ascii) (s : str) : is_Some (split sep s !! 0).
Proof.
  pose proof (split_nonempty sep s). destruct (split sep s); [done|].
  by eexists.
Qed.

(* ===================================================================== *)
(** ** The regular expression of the change cell                          *)
(* ===================================================================== *)

Lemma runOf_split (cls : ascii → bool) (s : str) :
  s = runOf cls s ++ drop (length (runOf cls s)) s
  ∧ Forall (fun c => cls c = true) (runOf cls s).
Proof.
  induction s as [|c s [IH1 IH2]]; simpl; [done|].
  destruct (cls c) eqn:Hc; simpl; [|done].
  split; [by f_equal|]. by constructor.
Qed.

Lemma runOf_app (cls : ascii → bool) (run rest : str) :
  Forall (fun c => cls c = true) run →
  match rest with c :: _ => cls c = false | [] => True end →
  runOf cls (run ++ rest) = run.
Proof.
  intros Hrun Hrest. induction Hrun as [|c run Hc _ IH]; simpl.
  - destruct rest as [|c rest]; [done|]. simpl. by rewrite Hrest.
  - by rewrite Hc, IH.
Qed.

(** In front of a continuation that cannot start on a code unit of the
    class, the repetition takes the whole run or fails. *)
Lemma repeatGreedy_run {R} (cls : ascii → bool) (k : str → str → option R) :
  (∀ a c s, cls c = true → k a (c :: s) = None) →
  ∀ hi lo acc s,
    repeatGreedy cls lo hi k acc s =
    if (lo <=? length (runOf cls s)) && (length (runOf cls s) <=? hi)
    then k (acc ++ runOf cls s) (drop (length (runOf cls s)) s)
    else None.
Proof.
  intros Hk. induction hi as [|hi IH]; intros lo acc s.
  - destruct s as [|c s]; simpl.
    + rewrite app_nil_r. by destruct lo.
    + destruct (cls c) eqn:Hc; simpl.
      * rewrite andb_false_r. destruct lo; [by apply Hk|done].
      * rewrite app_nil_r. by destruct lo.
  - destruct s as [|c s]; simpl.
    + rewrite app_nil_r. by destruct lo.
    + destruct (cls c) eqn:Hc; simpl.
      * rewrite IH, <- app_assoc. simpl.
        replace (pred lo <=? length (runOf cls s))
          with (lo <=? S (length (runOf cls s)))
          by (destruct lo; simpl; [done|];
              destruct (Nat.leb_spec lo (length (runOf cls s)));
              destruct (Nat.leb_spec (S lo) (S (length (runOf cls s)))); done || lia).
        destruct (_ && _); [|destruct lo; [by apply Hk|done]].
        destruct (k _ _); [done|]. destruct lo; [by apply Hk|done].
      * rewrite app_nil_r. by destruct lo.
Qed.

Arguments repeatGreedy : simpl never.

Lemma expect_hex_None {R} (p : str) (k : str → option R) (c : ascii) (s : str) :
  isHex c = true → startsWith [TICK] p = true → expect p k (c :: s) = None.
Proof.
  intros Hc Hp. unfold expect.
  destruct p as [|a p]; [done|]. simpl in *.
  apply andb_true_iff in Hp as [Ha _]. apply bool_decide_eq_true_1 in Ha.
  subst a. case_bool_decide as Heq; [|done]. subst c. done.
Qed.

Lemma hexRun_lengths (h : str) :
  hexRun h → (7 <=? length h) && (length h <=? 40) = true.
Proof.
  intros [_ [H1 H2]]. apply andb_true_iff.
  split; by apply Nat.leb_le.
Qed.

Lemma changeShaAt_unfold (s : str) :
  changeShaAt s =
  if startsWith [TICK] s then
    let g1 := runOf isHex (drop 1 s) in
    let r1 := drop (length g1) (drop 1 s) in
    if (7 <=? length g1) && (length g1 <=? 40) then
      if startsWith (lit "` -> `") r1 then
        let g2 := runOf isHex (drop 6 r1) in
        let r2 := drop (length g2) (drop 6 r1) in
        if (7 <=? length g2) && (length g2 <=? 40) then
          if startsWith [TICK] r2 then Some (g1, g2) else None
        else None
      else None
    else None
  else None.
Proof.
  unfold changeShaAt, expect at 1.
  destruct (startsWith [TICK] s); [|done].
  rewrite repeatGreedy_run by (intros; by apply expect_hex_None).
  cbv zeta. change (length [TICK]) with 1.
  destruct ((7 <=? _) && _); [|done].
  unfold expect at 1. change (length (lit "` -> `")) with 6.
  destruct (startsWith (lit "` -> `") _); [|done].
  rewrite repeatGreedy_run by (intros; by apply expect_hex_None).
  destruct ((7 <=? _) && _); [|done].
  unfold expect. change (length [TICK]) with 1.
  rewrite app_nil_l. by destruct (startsWith [TICK] _).
Qed.

Lemma changeShaAt_iff (s old new : str) :
  changeShaAt s = Some (old, new) ↔ changeAt s [] old new.
Proof.
  rewrite changeShaAt_unfold. unfold changeAt. cbv zeta. split.
  - destruct (startsWith [TICK] s) eqn:Hs; [|done].
    apply startsWith_inv in Hs. change (length [TICK]) with 1 in Hs.
    destruct (runOf_split isHex (drop 1 s)) as [Hs1 Hrun1].
    set (g1 := runOf isHex (drop 1 s)) in *.
    set (r1 := drop (length g1) (drop 1 s)) in *.
    destruct ((7 <=? length g1) && _) eqn:Hlen1; [|done].
    destruct (startsWith (lit "` -> `") r1) eqn:Hr1; [|done].
    apply startsWith_inv in Hr1. change (length (lit "` -> `")) with 6 in Hr1.
    destruct (runOf_split isHex (drop 6 r1)) as [Hs2 Hrun2].
    set (g2 := runOf isHex (drop 6 r1)) in *.
    set (r2 := drop (length g2) (drop 6 r1)) in *.
    destruct ((7 <=? length g2) && _) eqn:Hlen2; [|done].
    destruct (startsWith [TICK] r2) eqn:Hr2; [|done].
    apply startsWith_inv in Hr2. change (length [TICK]) with 1 in Hr2.
    intros [= <- <-].
    exists (drop 1 r2). split.
    + rewrite Hs at 1. rewrite Hs1 at 1. rewrite Hr1 at 1.
      rewrite Hs2 at 1. rewrite Hr2 at 1. done.
    + apply andb_true_iff in Hlen1 as [?%Nat.leb_le ?%Nat.leb_le].
      apply andb_true_iff in Hlen2 as [?%Nat.leb_le ?%Nat.leb_le].
      by repeat split.
  - intros (post & -> & Ho & Hn).
    rewrite app_nil_l, startsWith_app. change (drop 1 ([TICK] ++ ?x)) with x.
    cbn [app drop].
    rewrite (runOf_app isHex old) by (done || apply Ho).
    rewrite (hexRun_lengths _ Ho), drop_app_length.
    rewrite startsWith_app.
    change (drop 6 (lit "` -> `" ++ ?x)) with x. cbn [app drop lit list_ascii_of_string].
    rewrite (runOf_app isHex new) by (done || apply Hn).
    rewrite (hexRun_lengths _ Hn), drop_app_length.
    change (TICK :: post) with ([TICK] ++ post). by rewrite startsWith_app.
Qed.

Lemma searchFirst_Some {R} (m : str → option R) (s : str) (r : R) :
  searchFirst m s = Some r ↔
  ∃ pre rest, s = pre ++ rest ∧ m rest = Some r
    ∧ ∀ pre' rest', s = pre' ++ rest' → length pre' < length pre → m rest' = None.
Proof.
  induction s as [|c s IH]; simpl.
  - destruct (m []) as [r'|] eqn:Hm.
    + split.
      * intros [= <-]. exists [], []. repeat split; [done|]. simpl. lia.
      * intros (pre & rest & Hs & Hr & _).
        symmetry in Hs. apply app_eq_nil in Hs as [-> ->]. congruence.
    + split; [done|]. intros (pre & rest & Hs & Hr & _).
      symmetry in Hs. apply app_eq_nil in Hs as [-> ->]. congruence.
  - destruct (m (c :: s)) as [r'|] eqn:Hm.
    + split.
      * intros [= <-]. exists [], (c :: s). repeat split; [done|]. simpl. lia.
      * intros (pre & rest & Hs & Hr & Hleft).
        destruct pre as [|c' pre]; simpl in Hs; [congruence|].
        specialize (Hleft [] (c :: s)). simpl in Hleft.
        rewrite Hleft in Hm by (done || lia). done.
    + rewrite IH. split.
      * intros (pre & rest & -> & Hr & Hleft).
        exists (c :: pre), rest. repeat split; [done|].
        intros [|c' pre'] rest' Heq Hlen; simpl in *; [by subst|].
        injection Heq as -> Heq. apply (Hleft pre' rest' Heq). lia.
      * intros (pre & rest & Hs & Hr & Hleft).
        destruct pre as [|c' pre]; simpl in Hs; [congruence|].
        injection Hs as -> ->. exists pre, rest. repeat split; [done|].
        intros pre' rest' Heq Hlen.
        apply (Hleft (c' :: pre') rest'); simpl; [by rewrite Heq|lia].
Qed.

Lemma searchFirst_None {R} (m : str → option R) (pre rest : str) :
  searchFirst m (pre ++ rest) = None → m rest = None.
Proof.
  induction pre as [|c pre IH]; simpl.
  - destruct rest; simpl; by destruct (m _).
  - destruct (m (c :: pre ++ rest)); [done|]. exact IH.
Qed.

Lemma changeAt_shift (pre rest old new : str) :
  changeAt (pre ++ rest) pre old new ↔ changeAt rest [] old new.
Proof.
  unfold changeAt. split; intros (post & Heq & H); exists post; (split; [|done]).
  - by apply app_inv_head in Heq.
  - simpl in Heq. by rewrite Heq.
Qed.

Lemma changeAt_prefix (change pre old new : str) :
  changeAt change pre old new → change = pre ++ drop (length pre) change.
Proof. intros (post & -> & _). by rewrite drop_app_length. Qed.

Lemma changeShaRegex_iff (change old new : str) :
  changeShaRegex change = Some (old, new) ↔ changeMatches change old new.
Proof.
  unfold changeShaRegex, changeMatches. rewrite searchFirst_Some. split.
  - intros (pre & rest & -> & Hm & Hleft). exists pre. split.
    + by apply changeAt_shift, changeShaAt_iff.
    + intros pre' old' new' Hat.
      destruct (decide (length pre ≤ length pre')) as [|Hlt]; [done|].
      pose proof (changeAt_prefix _ _ _ _ Hat) as Heq.
      rewrite Heq in Hat. apply changeAt_shift, changeShaAt_iff in Hat.
      rewrite (Hleft _ _ Heq) in Hat by lia. done.
  - intros (pre & Hat & Hleft).
    pose proof (changeAt_prefix _ _ _ _ Hat) as Heq.
    exists pre, (drop (length pre) change). split; [done|]. split.
    + rewrite Heq in Hat. by apply changeAt_shift, changeShaAt_iff in Hat.
    + intros pre' rest' Heq' Hlen.
      destruct (changeShaAt rest') as [[old' new']|] eqn:Hm; [|done].
      apply changeShaAt_iff, (changeAt_shift pre') in Hm.
      rewrite <- Heq' in Hm. apply Hleft in Hm. lia.
Qed.

Lemma changeShaRegex_None (change : str) :
  changeShaRegex change = None → ∀ old new, ¬ changeMatches change old new.
Proof.
  intros Hnone old new Hm. apply changeShaRegex_iff in Hm. congruence.
Qed.

(* ===================================================================== *)
(** ** The loops of parseTable                                            *)
(* ===================================================================== *)

Lemma lit_names_distinct :
  lit "package" ≠ lit "update" ∧ lit "package" ≠ lit "change"
  ∧ lit "update" ≠ lit "change".
Proof. repeat split; discriminate. Qed.

(** The fields the inner loop leaves behind: for each name the last column
    so called that the row reaches, else what the record held before. *)
Lemma assignCells_fields (tableHeader : list str) (cells : list str) :
  ∀ i u u',
    assignCells tableHeader i cells u = Returned u' →
    u'.(package) = from_option Some u.(package)
                     (cellNamed "package" (drop i tableHeader) cells)
    ∧ u'.(update) = from_option Some u.(update)
                      (cellNamed "update" (drop i tableHeader) cells)
    ∧ u'.(change) = from_option Some u.(change)
                      (cellNamed "change" (drop i tableHeader) cells).
Proof.
  destruct lit_names_distinct as (Hpu & Hpc & Huc).
  unfold cellNamed.
  induction cells as [|value cells IH]; intros i u u'; simpl.
  - intros [= <-]. by destruct (drop i tableHeader).
  - destruct (tableHeader !! i) as [h|] eqn:Hh; [|done].
    rewrite (drop_S _ _ _ Hh). intros Hrun.
    apply IH in Hrun as (Hp & Hu & Hc). rewrite Hp, Hu, Hc. clear Hp Hu Hc IH.
    cbn [zip zip_with omap list_omap fst snd].
    generalize (zip (drop (S i) tableHeader) cells). intros rest.
    unfold lit in *. cbn [list_ascii_of_string] in *.
    repeat case_bool_decide; try congruence;
      cbn [package update change];
      rewrite ?last_cons;
      repeat split;
      repeat match goal with |- context [last ?l] => destruct (last l) end;
      done.
Qed.

Lemma assignCells_fit (tableHeader : list str) (cells : list str) :
  ∀ i u, i + length cells ≤ length tableHeader →
         ∃ u', assignCells tableHeader i cells u = Returned u'.
Proof.
  induction cells as [|value cells IH]; intros i u Hlen; simpl in *.
  - by eexists.
  - destruct (lookup_lt_is_Some_2 tableHeader i) as [h ->]; [lia|].
    apply IH. lia.
Qed.

Lemma assignCells_wide (tableHeader : list str) (cells : list str) :
  ∀ i u, i ≤ length tableHeader → length tableHeader < i + length cells →
         assignCells tableHeader i cells u = Thrown typeError.
Proof.
  induction cells as [|value cells IH]; intros i u Hi Hlen; simpl in *; [lia|].
  destruct (tableHeader !! i) as [h|] eqn:Hh; [|done].
  apply lookup_lt_Some in Hh. apply IH; lia.
Qed.

Lemma collectUpdates_Returned (tableHeader : list str) (tableData : list (list str)) :
  ∀ updates result,
    collectUpdates tableHeader tableData updates = Returned result →
    rowsFit tableHeader tableData
    ∧ ∃ us, result = updates ++ us
            ∧ Forall2 (fun row u =>
                         assignCells tableHeader 0 row emptyUpdate = Returned u)
                      tableData us.
Proof.
  induction tableData as [|row rows IH]; intros updates result; simpl.
  - intros [= <-]. split; [constructor|]. exists []. by rewrite app_nil_r.
  - destruct (assignCells tableHeader 0 row emptyUpdate) as [u|e] eqn:Hrow; [|done].
    intros (Hfit & us & -> & Hus)%IH. split.
    + constructor; [|done].
      destruct (decide (length row ≤ length tableHeader)) as [|Hwide]; [done|].
      rewrite assignCells_wide in Hrow by lia. done.
    + exists (u :: us). rewrite <- app_assoc. split; [done|]. by constructor.
Qed.

Lemma collectUpdates_fit (tableHeader : list str) (tableData : list (list str)) :
  rowsFit tableHeader tableData →
  ∀ updates, ∃ result, collectUpdates tableHeader tableData updates = Returned result.
Proof.
  induction 1 as [|row rows Hrow _ IH]; intros updates; simpl.
  - by eexists.
  - destruct (assignCells_fit tableHeader row 0 emptyUpdate) as [u ->]; [done|].
    apply IH.
Qed.

Lemma collectUpdates_wide (tableHeader : list str) (tableData : list (list str)) :
  ¬ rowsFit tableHeader tableData →
  ∀ updates, collectUpdates tableHeader tableData updates = Thrown typeError.
Proof.
  induction tableData as [|row rows IH]; intros Hwide updates; simpl.
  - destruct Hwide. constructor.
  - destruct (decide (length row ≤ length tableHeader)) as [Hfit|Hrow].
    + destruct (assignCells_fit tableHeader row 0 emptyUpdate) as [u ->]; [done|].
      apply IH. intros Hrows. apply Hwide. by constructor.
    + rewrite assignCells_wide by lia. done.
Qed.

Lemma collectGitUpdates_acc (digestUpdates : list PackageUpdate) :
  ∀ gitUpdates,
    collectGitUpdates digestUpdates gitUpdates =
    gitUpdates ++ collectGitUpdates digestUpdates [].
Proof.
  induction digestUpdates as [|u rest IH]; intros gitUpdates; simpl.
  - by rewrite app_nil_r.
  - destruct (_ || _); [apply IH|].
    destruct (changeShaRegex _) as [[o n]|]; [|apply IH].
    rewrite IH, (IH [_]). by rewrite <- app_assoc.
Qed.

Lemma truthy_Some (v : option str) :
  truthy v = true ↔ ∃ s, v = Some s ∧ s ≠ [].
Proof.
  destruct v as [[|c s]|]; simpl; split; try done.
  - intros [s [[= <-] Hs]]. done.
  - intros _. by eexists.
  - intros [s [[=] _]].
Qed.

(** The records pushed are what the qualifying rows yield. *)
Lemma collectGitUpdates_selects (tableHeader : list str)
    (tableData : list (list str)) (updates : list PackageUpdate) :
  Forall2 (fun row u => assignCells tableHeader 0 row emptyUpdate = Returned u)
          tableData updates →
  selects tableHeader tableData
    (collectGitUpdates (filter (fun u => isDigest u = true) updates) []).
Proof.
  induction 1 as [|row u rows us Hrow _ IH]; [constructor|].
  apply assignCells_fields in Hrow as (Hp & Hu & Hc).
  rewrite drop_0 in Hp, Hu, Hc. simpl in Hp, Hu, Hc.
  rewrite filter_cons. case_decide as Hd.
  - unfold isDigest in Hd. apply bool_decide_eq_true_1 in Hd.
    simpl. destruct (truthy (package u)) eqn:Htp; simpl.
    + destruct (truthy (change u)) eqn:Htc; simpl.
      * apply truthy_Some in Htp as [p [Hpu Hpne]].
        apply truthy_Some in Htc as [c [Hcu Hcne]].
        rewrite Hcu, Hpu. simpl.
        rewrite Hpu in Hp. rewrite Hd in Hu. rewrite Hcu in Hc.
        destruct (changeShaRegex c) as [[o n]|] eqn:Hre.
        -- rewrite collectGitUpdates_acc. simpl.
           apply selects_keep; [|done]. split.
           ++ by destruct (cellNamed "update" tableHeader row).
           ++ exists p, c. simpl. repeat split; try done.
              ** by destruct (cellNamed "package" tableHeader row).
              ** by destruct (cellNamed "change" tableHeader row).
              ** by apply changeShaRegex_iff.
        -- apply selects_drop; [|done].
           intros r (_ & p' & c' & _ & _ & Hc' & _ & Hm & _).
           rewrite Hc' in Hc. simpl in Hc. injection Hc as <-.
           by apply (changeShaRegex_None _ Hre) in Hm.
      * apply selects_drop; [|done].
        intros r (_ & p' & c' & _ & _ & Hc' & Hne & _).
        rewrite Hc' in Hc. simpl in Hc.
        assert (truthy (change u) = true) by (apply truthy_Some; eauto).
        congruence.
    + apply selects_drop; [|done].
      intros r (_ & p' & c' & Hp' & Hne & _).
      rewrite Hp' in Hp. simpl in Hp.
      assert (truthy (package u) = true) by (apply truthy_Some; eauto).
      congruence.
  - apply selects_drop; [|done].
    intros r (Hu' & _). rewrite Hu' in Hu. simpl in Hu.
    apply Hd. unfold isDigest. by apply bool_decide_eq_true_2.
Qed.

Lemma qualifies_functional (tableHeader row : list str) (r1 r2 : GitUpdate) :
  qualifies tableHeader row r1 → qualifies tableHeader row r2 → r1 = r2.
Proof.
  intros (_ & p1 & c1 & Hp1 & _ & Hc1 & _ & Hm1 & Hu1)
         (_ & p2 & c2 & Hp2 & _ & Hc2 & _ & Hm2 & Hu2).
  rewrite Hp1 in Hp2. injection Hp2 as <-.
  rewrite Hc1 in Hc2. injection Hc2 as <-.
  apply changeShaRegex_iff in Hm1, Hm2. rewrite Hm1 in Hm2.
  injection Hm2 as Ho Hn. destruct r1, r2; simpl in *. congruence.
Qed.

Lemma selects_functional (tableHeader : list str) (tableData : list (list str))
    (records1 records2 : list GitUpdate) :
  selects tableHeader tableData records1 →
  selects tableHeader tableData records2 →
  records1 = records2.
Proof.
  intros H1. revert records2.
  induction H1 as [|row rows r records Hq _ IH|row rows records Hnq _ IH];
    intros records2 H2; inversion H2; subst; try done.
  - f_equal; [by eapply qualifies_functional|by apply IH].
  - by destruct (H1 r).
  - by destruct (Hnq r).
  - by apply IH.
Qed.

(* ===================================================================== *)
(** ** parseTable: results                                                *)
(* ===================================================================== *)

Lemma parsedTable_is_Some (body table0 : str) :
  headerRegex body = Some table0 → is_Some (parsedTable body).
Proof.
  intros Hh. unfold parsedTable. rewrite Hh. simpl.
  destruct (split_head LF (tableBodyOf body table0)) as [row0 Hrow0].
  unfold tableRowsOf. rewrite Hrow0. simpl. by eexists.
Qed.

Lemma parsedTable_None (body : str) :
  parsedTable body = None ↔ headerRegex body = None.
Proof.
  split.
  - destruct (headerRegex body) as [t|] eqn:Hh; [|done].
    destruct (parsedTable_is_Some _ _ Hh) as [x ->]. done.
  - intros Hh. unfold parsedTable. by rewrite Hh.
Qed.

(** [parseTable] in terms of the table it works on. *)
Lemma parseTable_unfold (body : str) :
  parseTable body =
  match parsedTable body with
  | None => Returned None
  | Some (tableHeader, tableData) =>
      match collectUpdates tableHeader tableData [] with
      | Thrown e => Thrown e
      | Returned updates =>
          Returned (Some (collectGitUpdates
                            (filter (fun u => isDigest u = true) updates) []))
      end
  end.
Proof.
  unfold parseTable, parsedTable.
  destruct (headerRegex body) as [t|]; [|done]. simpl.
  destruct (split_head LF (tableBodyOf body t)) as [row0 Hrow0].
  unfold tableRowsOf. rewrite Hrow0. done.
Qed.

Lemma headerRegex_None (body : str) :
  headerRegex body = None ↔ ¬ containsHeader body.
Proof. apply searchLiteralCI_None. Qed.

Lemma headerRegex_Some (body table0 : str) :
  headerRegex body = Some table0 →
  ∃ pre post, body = pre ++ table0 ++ post ∧ sameIgnoringCase table0 headerPattern.
Proof. apply searchLiteralCI_Some. Qed.

Lemma headerRegex_contains (body table0 : str) :
  headerRegex body = Some table0 → containsHeader body.
Proof.
  intros (pre & post & Hb & Hm)%headerRegex_Some. by exists pre, table0, post.
Qed.

(** The result is null exactly when the header is nowhere in the body. *)
Lemma parseTable_null_iff (body : str) :
  parseTable body = Returned None ↔ ¬ containsHeader body.
Proof.
  rewrite <- headerRegex_None, <- parsedTable_None, parseTable_unfold.
  destruct (parsedTable body) as [[h d]|]; [|done].
  split; [|done]. by destruct (collectUpdates h d []).
Qed.

(** It throws exactly when a data row has more cells than the header row. *)
Lemma parseTable_throws_iff (body e : str) :
  parseTable body = Thrown e ↔
  e = typeError
  ∧ ∃ tableHeader tableData,
      parsedTable body = Some (tableHeader, tableData)
      ∧ ¬ rowsFit tableHeader tableData.
Proof.
  rewrite parseTable_unfold.
  destruct (parsedTable body) as [[h d]|].
  - split.
    + destruct (collectUpdates h d []) as [us|e'] eqn:Hc; [done|].
      intros [= ->].
      destruct (decide (rowsFit h d)) as [Hfit|Hwide].
      * destruct (collectUpdates_fit _ _ Hfit []) as [r Hr]. congruence.
      * rewrite collectUpdates_wide in Hc by done. injection Hc as <-.
        split; [done|]. by exists h, d.
    + intros (-> & h' & d' & [= <- <-] & Hwide).
      by rewrite collectUpdates_wide.
  - split; [done|]. by intros (_ & h & d & [=] & _).
Qed.

(** Where every data row fits the header, the result is the sequence the
    qualifying rows yield. *)
Lemma parseTable_fit (body : str) (tableHeader : list str)
    (tableData : list (list str)) :
  parsedTable body = Some (tableHeader, tableData) →
  rowsFit tableHeader tableData →
  ∃ records, parseTable body = Returned (Some records)
             ∧ selects tableHeader tableData records.
Proof.
  intros Hp Hfit. rewrite parseTable_unfold, Hp.
  destruct (collectUpdates_fit _ _ Hfit []) as [updates Hc]. rewrite Hc.
  eexists. split; [done|].
  apply collectUpdates_Returned in Hc as (_ & us & -> & Hus).
  by apply collectGitUpdates_selects.
Qed.

Lemma selects_none (tableHeader : list str) (tableData : list (list str)) :
  Forall (fun row => ∀ r, ¬ qualifies tableHeader row r) tableData →
  selects tableHeader tableData [].
Proof. induction 1; by constructor. Qed.

(** Header present, every row within the header, no row qualifying: the
    result is the empty sequence. *)
Lemma parseTable_empty (body : str) (tableHeader : list str)
    (tableData : list (list str)) :
  parsedTable body = Some (tableHeader, tableData) →
  rowsFit tableHeader tableData →
  Forall (fun row => ∀ r, ¬ qualifies tableHeader row r) tableData →
  parseTable body = Returned (Some []).
Proof.
  intros Hp Hfit Hnone.
  destruct (parseTable_fit _ _ _ Hp Hfit) as (records & -> & Hsel).
  do 2 f_equal. eapply selects_functional; [done|]. by apply selects_none.
Qed.

(** C3, at a body the parser can receive: a data row with two cells more
    than the header row is not handled without error: [parseTable] throws
    the TypeError of calling [toLowerCase] on [undefined]. *)
Theorem parseTable_throws_on_wide_row :
  parseTable wideRowBody = Thrown typeError.
Proof. vm_compute. reflexivity. Qed.

(** C7, at a body the parser can receive: the header is present and no row
    qualifies, yet the result is not the empty sequence: the call throws,
    because the one data row is wider than the header row. *)
Theorem parseTable_throws_without_qualifying_row :
  containsHeader wideFooterBody
  ∧ (∃ tableHeader tableData,
        parsedTable wideFooterBody = Some (tableHeader, tableData)
        ∧ Forall (fun row => ∀ r, ¬ qualifies tableHeader row r) tableData)
  ∧ parseTable wideFooterBody = Thrown typeError.
Proof.
  split; [|split].
  - apply (headerRegex_contains _ headerLine). vm_compute. reflexivity.
  - eexists _, _. split; [vm_compute; reflexivity|].
    repeat constructor. intros r [Hu _]. vm_compute in Hu. discriminate.
  - vm_compute. reflexivity.
Qed.

(** The records [parseTable] returns are exactly what the qualifying data
    rows yield, in row order, and it returns them exactly when no data row
    is wider than the header row. A row qualifies when its update cell is
    [digest], its package and change cells are not empty and its change
    cell reads `old` -> `new` with 7 to 40 lower-case hex digits each; the
    record holds the package cell and the two hashes of the first such
    place. *)
Lemma parseTable_records_exact (body : str) (records : list GitUpdate) :
  parseTable body = Returned (Some records) ↔
  ∃ tableHeader tableData,
    parsedTable body = Some (tableHeader, tableData)
    ∧ rowsFit tableHeader tableData
    ∧ selects tableHeader tableData records.
Proof.
  split.
  - rewrite parseTable_unfold.
    destruct (parsedTable body) as [[h d]|]; [|done].
    destruct (collectUpdates h d []) as [updates|] eqn:Hc; [|done].
    intros [= <-]. exists h, d. split; [done|].
    apply collectUpdates_Returned in Hc as (Hfit & us & -> & Hus).
    split; [done|]. by apply collectGitUpdates_selects.
  - intros (h & d & Hp & Hfit & Hsel).
    destruct (parseTable_fit _ _ _ Hp Hfit) as (records' & -> & Hsel').
    do 2 f_equal. by eapply selects_functional.
Qed.

Example parseTable_example :
  parseTable exampleBody
  = Returned (Some [mkGitUpdate (lit "https://github.com/acme/lib")
                                (lit "1111111") (lit "2222222")])
  ∧ ∃ tableHeader tableData,
      parsedTable exampleBody = Some (tableHeader, tableData)
      ∧ rowsFit tableHeader tableData
      ∧ selects tableHeader tableData
          [mkGitUpdate (lit "https://github.com/acme/lib") (lit "1111111")
                       (lit "2222222")].
Proof.
  split; [vm_compute; reflexivity|].
  apply parseTable_records_exact. vm_compute. reflexivity.
Qed.

(** C8, at a body the parser can receive: a mixed table whose digest row
    qualifies and whose pin row does not, so that the qualifying rows yield
    one record. The pin row is wider than the header row, and instead of
    leaving it out without error [parseTable] throws and returns no record
    at all. *)
Theorem parseTable_throws_on_mixed_table :
  (∃ tableHeader tableData,
      parsedTable mixedWideBody = Some (tableHeader, tableData)
      ∧ selects tableHeader tableData
          [mkGitUpdate (lit "https://github.com/acme/lib") (lit "1111111")
                       (lit "2222222")])
  ∧ parseTable mixedWideBody = Thrown typeError.
Proof.
  split; [|vm_compute; reflexivity].
  eexists _, _. split; [vm_compute; reflexivity|].
  apply selects_keep; [|apply selects_drop; [|apply selects_nil]].
  - split; [vm_compute; reflexivity|].
    eexists _, _. split; [vm_compute; reflexivity|].
    split; [discriminate|]. split; [vm_compute; reflexivity|].
    split; [discriminate|]. split; [|reflexivity].
    apply changeShaRegex_iff. vm_compute. reflexivity.
  - intros r [Hu _]. vm_compute in Hu. discriminate.
Qed.

(* ===================================================================== *)
(** ** Normalising the reference                                          *)
(* ===================================================================== *)

Lemma endsWith_iff (s suffix : str) :
  endsWith s suffix = true ↔ ∃ u, s = u ++ suffix.
Proof.
  unfold endsWith. rewrite startsWith_iff. split.
  - intros [t Ht]. exists (rev t).
    rewrite <- (rev_involutive s), Ht, rev_app_distr. by rewrite rev_involutive.
  - intros [u ->]. exists (rev u). by rewrite rev_app_distr.
Qed.

Lemma replaceAtEnd_strips (suffix s : str) :
  strips suffix s (replaceAtEnd suffix s).
Proof.
  unfold replaceAtEnd, strips.
  destruct (endsWith s suffix) eqn:He.
  - left. apply endsWith_iff in He as [u ->].
    rewrite length_app, Nat.add_sub. by rewrite take_app_length.
  - right. split; [done|]. intros Hu%endsWith_iff. congruence.
Qed.

Lemma replaceAtEnd_app (suffix u : str) :
  replaceAtEnd suffix (u ++ suffix) = u.
Proof.
  unfold replaceAtEnd.
  assert (endsWith (u ++ suffix) suffix = true) as ->
    by (apply endsWith_iff; by exists u).
  rewrite length_app, Nat.add_sub. by rewrite take_app_length.
Qed.

(* ===================================================================== *)
(** ** Searching: first occurrences                                       *)
(* ===================================================================== *)

Lemma findFrom_Some (needle s : str) :
  ∀ i j, findFrom needle s i = Some j →
         ∃ k, j = i + k ∧ k ≤ length s
              ∧ startsWith needle (drop k s) = true
              ∧ ∀ k', k' < k → startsWith needle (drop k' s) = false.
Proof.
  induction s as [|c s IH]; intros i j; simpl.
  - destruct (startsWith needle []) eqn:Hs; [|done]. intros [= <-].
    exists 0. repeat split; [lia|done|done|lia].
  - destruct (startsWith needle (c :: s)) eqn:Hs.
    + intros [= <-]. exists 0. repeat split; [lia|lia|done|lia].
    + intros (k & -> & Hk & Hat & Hbefore)%IH.
      exists (S k). repeat split; [lia|lia|done|].
      intros [|k'] Hlt; [done|]. apply Hbefore. lia.
Qed.

Lemma findFrom_None (needle s : str) :
  ∀ i, findFrom needle s i = None →
       ∀ k, startsWith needle (drop k s) = false.
Proof.
  induction s as [|c s IH]; intros i; simpl.
  - destruct (startsWith needle []) eqn:Hs; [done|].
    intros _ k. by rewrite drop_nil.
  - destruct (startsWith needle (c :: s)) eqn:Hs; [done|].
    intros Hnone [|k]; [done|]. by apply (IH _ Hnone).
Qed.

Lemma clamp_le (z : Z) (len : nat) : clamp z len ≤ len.
Proof. unfold clamp. lia. Qed.

Lemma clamp_nat (k len : nat) : k ≤ len → clamp (Z.of_nat k) len = k.
Proof. unfold clamp. lia. Qed.

(** [indexOf] hands back the first occurrence at or after [from]. *)
Lemma indexOf_found (s needle : str) (from : Z) :
  indexOf s needle from ≠ (-1)%Z →
  ∃ k, indexOf s needle from = Z.of_nat k
       ∧ clamp from (length s) ≤ k ≤ length s
       ∧ startsWith needle (drop k s) = true
       ∧ ∀ k', clamp from (length s) ≤ k' < k →
               startsWith needle (drop k' s) = false.
Proof.
  unfold indexOf. pose proof (clamp_le from (length s)) as Hc.
  destruct (findFrom _ _ _) as [j|] eqn:Hj; [|done]. intros _.
  apply findFrom_Some in Hj as (k & -> & Hk & Hat & Hbefore).
  rewrite length_drop in Hk. rewrite drop_drop in Hat.
  exists (clamp from (length s) + k). repeat split; [lia|lia|done|].
  intros k' [Hlo Hhi].
  specialize (Hbefore (k' - clamp from (length s))).
  rewrite drop_drop in Hbefore.
  replace (clamp from (length s) + (k' - clamp from (length s))) with k'
    in Hbefore by lia.
  apply Hbefore. lia.
Qed.

Lemma indexOf_not_found (s needle : str) (from : Z) :
  indexOf s needle from = (-1)%Z →
  ∀ k, clamp from (length s) ≤ k → startsWith needle (drop k s) = false.
Proof.
  unfold indexOf.
  destruct (findFrom _ _ _) as [j|] eqn:Hj; [lia|]. intros _ k Hk.
  pose proof (findFrom_None _ _ _ Hj (k - clamp from (length s))) as H.
  rewrite drop_drop in H.
  by replace (clamp from (length s) + (k - clamp from (length s))) with k
    in H by lia.
Qed.

Lemma startsWith_drop_app (needle pre post : str) :
  startsWith needle (drop (length pre) (pre ++ needle ++ post)) = true.
Proof. rewrite drop_app_length. apply startsWith_app. Qed.

Lemma startsWith_drop_inv (needle s : str) (k : nat) :
  k ≤ length s → startsWith needle (drop k s) = true →
  ∃ post, s = take k s ++ needle ++ post ∧ length (take k s) = k.
Proof.
  intros Hk Hs. apply startsWith_inv in Hs.
  exists (drop (length needle) (drop k s)).
  rewrite <- Hs, take_drop. split; [done|]. rewrite length_take. lia.
Qed.

(** [includes] is the presence of the needle somewhere in the text. *)
Lemma includes_iff (s needle : str) :
  includes s needle = true ↔ ∃ pre post, s = pre ++ needle ++ post.
Proof.
  unfold includes. rewrite bool_decide_eq_true. split.
  - intros (k & _ & [_ Hk] & Hat & _)%indexOf_found.
    destruct (startsWith_drop_inv _ _ _ Hk Hat) as (post & Hs & _).
    by eexists _, _.
  - intros (pre & post & ->) Hnone.
    pose proof (indexOf_not_found _ _ _ Hnone (length pre)) as H.
    rewrite startsWith_drop_app in H.
    assert (clamp 0 (length (pre ++ needle ++ post)) = 0) as Hc
      by (unfold clamp; lia).
    rewrite Hc in H. by specialize (H (Nat.le_0_l _)).
Qed.

Lemma searchLiteralCI_leftmost (pat s m : str) :
  searchLiteralCI pat s = Some m →
  ∃ pre post, s = pre ++ m ++ post ∧ sameIgnoringCase m pat
    ∧ ∀ pre' m' post', s = pre' ++ m' ++ post' → sameIgnoringCase m' pat →
                       length pre ≤ length pre'.
Proof.
  induction s as [|c s IH]; simpl.
  - destruct (matchLiteralCI pat []) as [m'|] eqn:Hm'; [|done].
    intros [= <-]. apply matchLiteralCI_Some in Hm' as [post [Hs Hm]].
    exists [], post. repeat split; [done|done|]. intros; simpl; lia.
  - destruct (matchLiteralCI pat (c :: s)) as [m'|] eqn:Hm'.
    + intros [= <-]. apply matchLiteralCI_Some in Hm' as [post [Hs Hm]].
      exists [], post. repeat split; [done|done|]. intros; simpl; lia.
    + intros (pre & post & -> & Hm & Hleft)%IH.
      exists (c :: pre), post. repeat split; [done|].
      intros [|c' pre'] m' post' Heq Hsame; simpl in *.
      * assert (matchLiteralCI pat (c :: pre ++ m ++ post) = Some m') as Hx
          by (apply matchLiteralCI_Some; by exists post').
        congruence.
      * injection Heq as -> Heq. pose proof (Hleft _ _ _ Heq Hsame). lia.
Qed.

Lemma sameIgnoringCase_length (a b : str) :
  sameIgnoringCase a b → length a = length b.
Proof.
  unfold sameIgnoringCase. intros H.
  by rewrite <- (length_map canonicalize a), H, length_map.
Qed.

Lemma header_has_no_line_feed (m : str) :
  sameIgnoringCase m headerPattern → LF ∉ m.
Proof.
  unfold sameIgnoringCase. intros Hm Hin.
  apply (list_elem_of_fmap_2 canonicalize) in Hin.
  change (fmap canonicalize m) with (map canonicalize m) in Hin.
  rewrite Hm in Hin. vm_compute in Hin.
  repeat (apply elem_of_cons in Hin as [Hin|Hin]; [discriminate|]).
  by apply elem_of_nil in Hin.
Qed.

(** The header found is the first one, and the table starts there. *)
Lemma tableStartOf_first_header (body table0 : str) :
  headerRegex body = Some table0 →
  ∃ pre post,
    body = pre ++ table0 ++ post
    ∧ tableStartOf body table0 = Z.of_nat (length pre)
    ∧ sameIgnoringCase table0 headerPattern
    ∧ ∀ pre' m' post', body = pre' ++ m' ++ post' →
                       sameIgnoringCase m' headerPattern →
                       length pre ≤ length pre'.
Proof.
  intros (pre & post & Hb & Hm & Hleft)%searchLiteralCI_leftmost.
  exists pre, post. repeat split; try done.
  unfold tableStartOf.
  assert (indexOf body table0 0 ≠ (-1)%Z) as Hfound.
  { intros Hnone.
    pose proof (indexOf_not_found _ _ _ Hnone (length pre)) as H.
    rewrite Hb, startsWith_drop_app in H.
    assert (clamp 0 (length (pre ++ table0 ++ post)) = 0) as Hc
      by (unfold clamp; lia).
    rewrite Hc in H. by specialize (H (Nat.le_0_l _)). }
  apply indexOf_found in Hfound as (k & -> & [Hlo Hk] & Hat & Hbefore).
  f_equal.
  destruct (startsWith_drop_inv _ _ _ Hk Hat) as (post' & Hs & Hlen).
  pose proof (Hleft _ _ _ Hs Hm) as Hge. rewrite Hlen in Hge.
  destruct (decide (k ≤ length pre)) as [|Hgt]; [lia|].
  assert (startsWith table0 (drop (length pre) body) = true) as Hx
    by (rewrite Hb; apply startsWith_drop_app).
  assert (clamp 0 (length body) = 0) as Hc by (unfold clamp; lia).
  rewrite Hbefore in Hx; [done|]. rewrite Hc. lia.
Qed.

(* ===================================================================== *)
(** ** Where the table ends                                               *)
(* ===================================================================== *)

(** With a blank line after the header, the table body is the text from
    the first header up to the first blank line that follows it. *)
Lemma tableBody_until_blank_line (body table0 : str) :
  headerRegex body = Some table0 →
  tableEndOf body table0 ≠ (-1)%Z →
  ∃ pre mid post,
    body = pre ++ (table0 ++ mid) ++ [LF; LF] ++ post
    ∧ tableBodyOf body table0 = table0 ++ mid
    ∧ (∀ k, k < length (table0 ++ mid) →
            startsWith [LF; LF]
              (drop k ((table0 ++ mid) ++ [LF; LF] ++ post)) = false)
    ∧ ∀ pre' m' post', body = pre' ++ m' ++ post' →
                       sameIgnoringCase m' headerPattern →
                       length pre ≤ length pre'.
Proof.
  intros Hh Hend.
  destruct (tableStartOf_first_header _ _ Hh)
    as (pre & rest & Hb & Hstart & Hm & Hleft).
  assert (length body = length pre + length table0 + length rest) as Hlen
    by (rewrite Hb, !length_app; lia).
  unfold tableBodyOf, tableEndOf in *. rewrite Hstart in *.
  apply indexOf_found in Hend as (e & He & [Hlo Hhi] & Hat & Hbefore).
  rewrite He. rewrite clamp_nat in Hlo, Hbefore by lia.
  apply startsWith_iff in Hat as [post Hat].
  assert (length pre + length table0 ≤ e) as Hpast.
  { destruct (decide (length pre + length table0 ≤ e)) as [|Hin]; [done|].
    exfalso. apply (header_has_no_line_feed _ Hm).
    rewrite Hb, drop_app_ge, drop_app_le in Hat by lia.
    destruct (drop (e - length pre) table0) as [|c t] eqn:Hd.
    - apply (f_equal length) in Hd. rewrite length_drop in Hd. simpl in Hd. lia.
    - injection Hat as -> _.
      assert (LF ∈ drop (e - length pre) table0) as Hin'
        by (rewrite Hd; apply elem_of_cons; by left).
      rewrite <- (take_drop (e - length pre) table0).
      apply elem_of_app. by right. }
  set (n := e - length pre - length table0).
  assert (drop n rest = [LF; LF] ++ post) as Hrest.
  { rewrite <- Hat, Hb, !drop_app_ge by lia. done. }
  assert (rest = take n rest ++ [LF; LF] ++ post) as Hsplit
    by (by rewrite <- Hrest, take_drop).
  assert (length (take n rest) = n) as Hn by (rewrite length_take; lia).
  assert (body = pre ++ (table0 ++ take n rest) ++ [LF; LF] ++ post) as Hbody
    by (rewrite Hb; rewrite Hsplit at 1; by rewrite <- !app_assoc).
  exists pre, (take n rest), post. repeat split; [done| | |done].
  - unfold substring. rewrite !clamp_nat by lia.
    rewrite Nat.min_l, Nat.max_r by lia.
    rewrite Hbody at 1. rewrite drop_app_length.
    replace (e - length pre) with (length (table0 ++ take n rest))
      by (rewrite length_app; lia).
    by rewrite take_app_length.
  - intros k Hk. rewrite length_app in Hk.
    specialize (Hbefore (length pre + k) ltac:(lia)).
    rewrite Hbody in Hbefore at 1.
    by rewrite <- drop_drop, drop_app_length in Hbefore.
Qed.

Lemma findFrom_bounds (needle : str) (s : str) :
  ∀ i j, findFrom needle s i = Some j → i ≤ j ≤ i + length s.
Proof.
  induction s as [|c s IH]; intros i j; simpl.
  - destruct (startsWith needle []); [|done]. intros [= <-]. lia.
  - destruct (startsWith needle (c :: s)).
    + intros [= <-]. lia.
    + intros Hj%IH. lia.
Qed.

Lemma indexOf_bounds (s needle : str) (from : Z) :
  (-1 ≤ indexOf s needle from ≤ Z.of_nat (length s))%Z.
Proof.
  unfold indexOf.
  destruct (findFrom _ _ _) as [j|] eqn:Hj; [|lia].
  apply findFrom_bounds in Hj. rewrite length_drop in Hj.
  unfold clamp in *. lia.
Qed.

(** Without a blank line after the header, [substring] receives -1 as its
    end and hands back the text in front of the header. *)
Lemma tableBodyOf_without_blank_line (body table0 : str) :
  tableEndOf body table0 = (-1)%Z →
  tableBodyOf body table0 = take (Z.to_nat (tableStartOf body table0)) body.
Proof.
  intros Hend. unfold tableBodyOf, substring. rewrite Hend.
  pose proof (indexOf_bounds body table0 0) as Hb.
  fold (tableStartOf body table0) in Hb.
  replace (clamp (-1) (length body)) with 0 by (unfold clamp; lia).
  replace (clamp (tableStartOf body table0) (length body))
    with (Z.to_nat (tableStartOf body table0)) by (unfold clamp; lia).
  by rewrite Nat.min_0_r, Nat.max_0_r, Nat.sub_0_r, drop_0.
Qed.

(** C5, at a body the parser can receive: the body ends with the table and
    no blank line follows the header. The table body taken is the text in
    front of the header, not the rest of the body, and the digest row is
    lost. *)
Theorem tableBody_of_body_ending_with_table :
  headerRegex noBlankLineBody = Some headerLine
  ∧ tableEndOf noBlankLineBody headerLine = (-1)%Z
  ∧ tableBodyOf noBlankLineBody headerLine = lit "Updates:" ++ [LF]
  ∧ parseTable noBlankLineBody = Returned (Some []).
Proof. repeat split; vm_compute; reflexivity. Qed.

(* ===================================================================== *)
(** ** The renderer: what a run looks like                                *)
(* ===================================================================== *)

Lemma copyEnv_id (penv : Env) : ExecGit.copyEnv penv = penv.
Proof.
  unfold ExecGit.copyEnv.
  apply (map_fold_weak_ind (fun r m => r = m)); [done|].
  by intros i x m r _ ->.
Qed.

Lemma collectEntries_map (log : list str) :
  collectEntries log = map entryOfLine log.
Proof.
  unfold collectEntries.
  enough (∀ acc, fold_left (fun gitEntries line => gitEntries ++ [entryOfLine line])
                           log acc = acc ++ map entryOfLine log) as H by apply H.
  induction log as [|line log IH]; intros acc; simpl.
  - by rewrite app_nil_r.
  - by rewrite IH, <- app_assoc.
Qed.

Lemma truthy_app (s t : str) : t ≠ [] → truthy (Some (s ++ t)) = true.
Proof. destruct s, t; done. Qed.

(** The loop over the entries appends their lines in order. *)
Lemma appendEntry_lines (linkPrefix : option str) (entries : list GitEntry) :
  truthy linkPrefix = bool_decide (is_Some linkPrefix) →
  ∀ resultString,
    fold_left (appendEntry (default [] linkPrefix)) entries resultString =
    resultString ++ commitLines linkPrefix entries.
Proof.
  intros Hp. unfold commitLines.
  induction entries as [|e entries IH]; intros resultString;
    cbn [fold_left map concat].
  - by rewrite app_nil_r.
  - rewrite IH. unfold appendEntry, commitLine.
    destruct linkPrefix as [prefix|]; cbn [default from_option id].
    + rewrite Hp, bool_decide_eq_true_2 by (by eexists).
      by rewrite <- !app_assoc.
    + cbn [truthy]. by rewrite <- !app_assoc.
Qed.

Lemma formatFor_prefix_truthy (host : Host) (u a b c d e f : str) :
  let p := commitLinkPrefix (formatFor host u a b c d e f) in
  truthy p = bool_decide (is_Some p).
Proof.
  destruct host; cbn [formatFor commitLinkPrefix]; [| |done];
    rewrite truthy_app by done; symmetry; apply bool_decide_eq_true_2; by eexists.
Qed.

(** The text the exec variant builds once the log is read. *)
Lemma ExecGit_compose (url oldSha newSha oldShortSha newShortSha
    oldLongSha newLongSha : str) (log : list str) (w : World) :
  ∃ warned,
    ExecGit.compose url oldSha newSha oldShortSha newShortSha
                    oldLongSha newLongSha log w =
    (Returned (fragment (formatFor (hostOf url) url oldSha newSha oldShortSha
                                   newShortSha oldLongSha newLongSha)
                        (map entryOfLine log)),
     mkWorld w.(processEnv) w.(osTmpdir) w.(entropy) w.(dirs) w.(journal) warned).
Proof.
  pose proof (formatFor_prefix_truthy (hostOf url) url oldSha newSha oldShortSha
                newShortSha oldLongSha newLongSha) as Hp.
  unfold ExecGit.compose, hostOf, fragment, detailsBlock, rangeLine in *.
  rewrite collectEntries_map.
  unfold mbind, mret, M_bind, M_ret, warning.
  destruct (includes url (lit "github.com")) eqn:Hg;
    [|destruct (includes url (lit "googlesource.com")) eqn:Hs];
    cbv beta iota zeta in *;
    cbn [formatFor rangeLink rangeDescription commitLinkPrefix] in *.
  - exists w.(warnings). destruct w.
    cbn [processEnv osTmpdir entropy dirs journal warnings].
    change (url ++ lit "/commit/") with (default [] (Some (url ++ lit "/commit/"))) at 1.
    rewrite (appendEntry_lines _ _ Hp), app_nil_l, <- !app_assoc. done.
  - exists w.(warnings). destruct w.
    cbn [processEnv osTmpdir entropy dirs journal warnings].
    change (url ++ lit "/+/") with (default [] (Some (url ++ lit "/+/"))) at 1.
    rewrite (appendEntry_lines _ _ Hp), app_nil_l, <- !app_assoc. done.
  - exists ((lit "Unknown git url: " ++ url) :: w.(warnings)).
    cbn [processEnv osTmpdir entropy dirs journal warnings].
    change (@nil ascii) with (default [] (@None str)) at 1.
    rewrite (appendEntry_lines _ _ Hp), app_nil_l, <- !app_assoc. done.
Qed.

(** The text the simple-git variant builds from the entries it gathered. *)
Lemma SimpleGit_compose (url oldSha newSha oldShortSha newShortSha : str)
    (gitEntries : list GitEntry) :
  SimpleGit.compose url oldSha newSha oldShortSha newShortSha gitEntries =
  bareFragment (formatFor (hostOf url) url oldSha newSha oldShortSha
                          newShortSha oldSha newSha)
               gitEntries.
Proof.
  pose proof (formatFor_prefix_truthy (hostOf url) url oldSha newSha oldShortSha
                newShortSha oldSha newSha) as Hp.
  unfold SimpleGit.compose, hostOf, bareFragment, rangeLine in *.
  destruct (includes url (lit "github.com")) eqn:Hg;
    [|destruct (includes url (lit "googlesource.com")) eqn:Hs];
    cbv beta iota zeta in *;
    cbn [formatFor rangeLink rangeDescription commitLinkPrefix] in *.
  - change (url ++ lit "/commit/") with (default [] (Some (url ++ lit "/commit/"))) at 1.
    rewrite (appendEntry_lines _ _ Hp), app_nil_l, <- !app_assoc. done.
  - change (url ++ lit "/+/") with (default [] (Some (url ++ lit "/+/"))) at 1.
    rewrite (appendEntry_lines _ _ Hp), app_nil_l, <- !app_assoc. done.
  - change (@nil ascii) with (default [] (@None str)) at 1.
    rewrite (appendEntry_lines _ _ Hp), app_nil_l, <- !app_assoc. done.
Qed.

(** The loop over [log.all] gets through a log without entries and no
    other. *)
Lemma gatherEntries_outcome (all : list SimpleGit.LogEntry)
    (gitEntries : list GitEntry) :
  SimpleGit.gatherEntries all gitEntries =
  match all with
  | [] => Returned gitEntries
  | _ :: _ => Thrown SimpleGit.notAFunction
  end.
Proof. by destruct all. Qed.

Lemma mkdtempSync_Returned (prefix tempDir : str) (w w1 : World) :
  mkdtempSync prefix w = (Returned tempDir, w1) →
  w1.(processEnv) = w.(processEnv) ∧ w1.(journal) = w.(journal)
  ∧ (tempDir ∉ w.(dirs)) ∧ w1.(dirs) = {[tempDir]} ∪ w.(dirs)
  ∧ ∃ suffix, tempDir = prefix ++ suffix.
Proof.
  unfold mkdtempSync. destruct (entropy w) as [|suffix rest]; [done|].
  case_decide as Hin; [done|]. intros [= <- <-]. simpl.
  repeat split; try done. by exists suffix.
Qed.

Lemma mkdtempSync_Thrown (prefix e : str) (w w1 : World) :
  mkdtempSync prefix w = (Thrown e, w1) →
  w1.(processEnv) = w.(processEnv) ∧ w1.(journal) = w.(journal)
  ∧ w1.(dirs) = w.(dirs).
Proof.
  unfold mkdtempSync. destruct (entropy w) as [|suffix rest].
  - by intros [= <- <-].
  - case_decide as Hin; [|done]. by intros [= <- <-].
Qed.

Ltac run_git git :=
  match goal with
  | |- context [git ?i ?w] =>
      let r := fresh "r" in
      let d := fresh "d" in
      destruct (git i w) as [[r|r] d];
      cbv beta iota zeta;
      cbn [processEnv osTmpdir entropy dirs journal warnings];
      rewrite ?copyEnv_id
  end.

Ltac close_run :=
  split; [reflexivity|];
  split; [reflexivity|];
  split; [econstructor|reflexivity].

(** The guarded block of the exec variant follows the protocol. *)
Lemma ExecGit_guarded (git : Invocation → World → ExecResult * gset str)
    (url oldSha newSha tempDir : str) (w : World) :
  ∃ calls o w',
    ExecGit.guarded git url oldSha newSha tempDir w = (o, w')
    ∧ w'.(journal) = rev calls ++ w.(journal)
    ∧ Run (execDialect w.(processEnv) url oldSha newSha tempDir)
          url oldSha newSha calls o
    ∧ w'.(processEnv) = w.(processEnv).
Proof.
  unfold ExecGit.guarded, ExecGit.execGit, ExecGit.execGitWithStdout,
    ExecGit.exec, ExecGit.sanitizeEnvs, ExecGit.logArgs, attempt, warning.
  unfold mbind, mret, M_bind, M_ret. rewrite copyEnv_id.
  fold (forcedEnv (processEnv w)).
  cbv beta iota zeta. cbn [processEnv osTmpdir entropy dirs journal warnings].
  rewrite ?copyEnv_id. fold (forcedEnv (processEnv w)).
  run_git git; [|eexists [_], _, _; close_run].
  run_git git; [|eexists [_; _], _, _; close_run].
  run_git git; [|eexists [_; _; _], _, _; close_run].
  run_git git; [|eexists [_; _; _; _], _, _; close_run].
  run_git git; [|eexists [_; _; _; _; _], _, _; close_run].
  run_git git; [|eexists [_; _; _; _; _; _], _, _; close_run].
  match goal with
  | |- context [ExecGit.compose ?a ?b ?c ?d ?e ?f ?g ?h ?w0] =>
      destruct (ExecGit_compose a b c d e f g h w0) as [warned ->]
  end.
  eexists [_; _; _; _; _; _], _, _.
  split; [reflexivity|]. split; [reflexivity|].
  split; [|reflexivity].
  apply (run_success (execDialect (processEnv w) url oldSha newSha tempDir)).
Qed.

(** The simple-git variant follows its protocol once the temporary
    directory is made. *)
Lemma SimpleGit_describeIn (git : Invocation → World → ExecResult * gset str)
    (logAll : str → list SimpleGit.LogEntry) (stackOf : str → str)
    (url oldSha newSha tempDir : str) (w : World) :
  ∃ calls o w',
    SimpleGit.describeIn git logAll stackOf url oldSha newSha tempDir w = (o, w')
    ∧ w'.(journal) = rev calls ++ w.(journal)
    ∧ LibraryRun logAll tempDir url oldSha newSha calls o
    ∧ w'.(processEnv) = w.(processEnv).
Proof.
  unfold SimpleGit.describeIn, SimpleGit.clone, SimpleGit.revparse,
    SimpleGit.log, SimpleGit.call, SimpleGit.outcomeOf, attempt, warning.
  unfold mbind, mret, M_bind, M_ret.
  cbv beta iota zeta. cbn [processEnv osTmpdir entropy dirs journal warnings].
  run_git git; [|eexists [_], _, _; close_run].
  run_git git; [|eexists [_; _], _, _; close_run].
  run_git git; [|eexists [_; _; _], _, _; close_run].
  run_git git; [|eexists [_; _; _; _], _, _; close_run].
  run_git git; [|eexists [_; _; _; _; _], _, _; close_run].
  run_git git; [|eexists [_; _; _; _; _; _], _, _; close_run].
  rewrite gatherEntries_outcome.
  match goal with
  | |- context [logAll ?out] => destruct (logAll out) as [|line rest] eqn:Hall
  end.
  - rewrite SimpleGit_compose.
    eexists [_; _; _; _; _; _], _, _.
    split; [reflexivity|]. split; [reflexivity|].
    split; [|reflexivity].
    unfold bareFragment, commitLines. cbn [map concat]. rewrite app_nil_r.
    by apply (library_no_entry logAll tempDir url oldSha newSha).
  - eexists [_; _; _; _; _; _], _, _.
    split; [reflexivity|]. split; [reflexivity|].
    split; [|reflexivity].
    apply (library_entries logAll tempDir url oldSha newSha). by rewrite Hall.
Qed.

Lemma rmSync_removes (dir p : str) (w : World) :
  under dir p = true → p ∉ (rmSync dir w).2.(dirs).
Proof.
  intros Hu. unfold rmSync. simpl. rewrite elem_of_filter.
  intros [Hp _]. congruence.
Qed.

Lemma under_self (dir : str) : under dir dir = true.
Proof. unfold under. by rewrite bool_decide_eq_true_2. Qed.

(** A call of the exec variant, from the making of the temporary directory
    to its removal. *)
Lemma ExecGit_run (git : Invocation → World → ExecResult * gset str)
    (u : GitUpdate) (w : World) :
  let repoUrl := normalizeUrl u.(url) in
  match mkdtempSync (pathJoin w.(osTmpdir) (lit "git-history-")) w with
  | (Thrown e, w1) => ExecGit.getGitHistoryDescription git u w = (Thrown e, w1)
  | (Returned tempDir, _) =>
      ∃ calls o w',
        ExecGit.getGitHistoryDescription git u w = (o, w')
        ∧ w'.(journal) = rev calls ++ w.(journal)
        ∧ Run (execDialect w.(processEnv) repoUrl u.(oldSha) u.(newSha) tempDir)
              repoUrl u.(oldSha) u.(newSha) calls o
        ∧ w'.(processEnv) = w.(processEnv)
        ∧ ∀ p, under tempDir p = true → p ∉ w'.(dirs)
  end.
Proof.
  intros repoUrl. unfold ExecGit.getGitHistoryDescription, tryFinally, tmpdir.
  unfold mbind, M_bind. fold repoUrl.
  destruct (mkdtempSync _ w) as [[tempDir|e] w1] eqn:Hmk; [|done].
  apply mkdtempSync_Returned in Hmk as (Hpe & Hj & _).
  destruct (ExecGit_guarded git repoUrl u.(oldSha) u.(newSha) tempDir w1)
    as (calls & o & w2 & -> & Hj2 & Hrun & Hpe2).
  exists calls, o, (rmSync tempDir w2).2.
  rewrite Hpe in Hrun. repeat split; try done.
  - simpl. by rewrite Hj2, Hj.
  - simpl. by rewrite Hpe2.
  - intros p Hp. by apply rmSync_removes.
Qed.

(** A call of the simple-git variant. Nothing removes the temporary
    directory. *)
Lemma SimpleGit_run (git : Invocation → World → ExecResult * gset str)
    (logAll : str → list SimpleGit.LogEntry) (stackOf : str → str)
    (u : GitUpdate) (w : World) :
  let repoUrl := normalizeUrl u.(url) in
  match mkdtempSync (pathJoin w.(osTmpdir) (lit "git-history-")) w with
  | (Thrown e, w1) =>
      SimpleGit.getGitHistoryDescription git logAll stackOf u w = (Thrown e, w1)
  | (Returned tempDir, _) =>
      ∃ calls o w',
        SimpleGit.getGitHistoryDescription git logAll stackOf u w = (o, w')
        ∧ w'.(journal) = rev calls ++ w.(journal)
        ∧ LibraryRun logAll tempDir repoUrl u.(oldSha) u.(newSha) calls o
        ∧ w'.(processEnv) = w.(processEnv)
  end.
Proof.
  intros repoUrl. unfold SimpleGit.getGitHistoryDescription, tmpdir.
  unfold mbind, M_bind. fold repoUrl.
  destruct (mkdtempSync _ w) as [[tempDir|e] w1] eqn:Hmk; [|done].
  apply mkdtempSync_Returned in Hmk as (Hpe & Hj & _).
  destruct (SimpleGit_describeIn git logAll stackOf repoUrl u.(oldSha)
              u.(newSha) tempDir w1)
    as (calls & o & w2 & -> & Hj2 & Hrun & Hpe2).
  exists calls, o, w2. repeat split; try done; congruence.
Qed.

(* ===================================================================== *)
(** ** The renderer: the reference it works on                            *)
(* ===================================================================== *)

Lemma Run_clone_first (d : Dialect) (repoUrl oldHash newHash : str)
    (calls : list (Invocation * ExecResult)) (o : Outcome str) :
  Run d repoUrl oldHash newHash calls o →
  ∃ result rest, calls = (d.(cloneCall), result) :: rest.
Proof. inversion 1; subst; by eexists _, _. Qed.

Lemma LibraryRun_clone_first (logAll : str → list SimpleGit.LogEntry)
    (tempDir repoUrl oldHash newHash : str)
    (calls : list (Invocation * ExecResult)) (o : Outcome str) :
  LibraryRun logAll tempDir repoUrl oldHash newHash calls o →
  ∃ result rest, calls = (cloneInto tempDir repoUrl, result) :: rest.
Proof. inversion 1; subst; by eexists _, _. Qed.

(** C10: the reference loses one trailing [/], and what is left loses one
    trailing [.git]; either step leaves the text alone when the suffix is
    not there. A reference ending in [.git/] comes out bare. Both variants
    work from the reference so normalized: whenever the temporary
    directory can be made, the first invocation a call adds to the journal
    is the clone of the normalized reference, and the invocations added
    and the outcome of the call are those of a run for the normalized
    reference, so that every message and every link is built from it. *)
Theorem normalizeUrl_strips (reference : str) :
  (∃ mid, strips (lit "/") reference mid
          ∧ strips (lit ".git") mid (normalizeUrl reference))
  ∧ (∀ bare, reference = bare ++ lit ".git/" → normalizeUrl reference = bare)
  ∧ ∀ (git : Invocation → World → ExecResult * gset str)
      (logAll : str → list SimpleGit.LogEntry) (stackOf : str → str)
      (oldHash newHash tempDir : str) (w w1 : World),
      let u := mkGitUpdate reference oldHash newHash in
      let repoUrl := normalizeUrl reference in
      mkdtempSync (pathJoin w.(osTmpdir) (lit "git-history-")) w
      = (Returned tempDir, w1) →
      (let r := ExecGit.getGitHistoryDescription git u w in
       ∃ calls,
         r.2.(journal) = rev calls ++ w.(journal)
         ∧ (∃ result rest,
              calls =
              (mkInvocation [lit "clone"; repoUrl; tempDir] None
                            (Some (forcedEnv w.(processEnv))), result) :: rest)
         ∧ Run (execDialect w.(processEnv) repoUrl oldHash newHash tempDir)
               repoUrl oldHash newHash calls r.1)
      ∧ (let r := SimpleGit.getGitHistoryDescription git logAll stackOf u w in
         ∃ calls,
           r.2.(journal) = rev calls ++ w.(journal)
           ∧ (∃ result rest,
                calls =
                (mkInvocation [lit "clone"; repoUrl; lit "."] (Some tempDir) None,
                 result) :: rest)
           ∧ LibraryRun logAll tempDir repoUrl oldHash newHash calls r.1).
Proof.
  split; [|split].
  - exists (replaceAtEnd (lit "/") reference).
    split; apply replaceAtEnd_strips.
  - intros bare ->. unfold normalizeUrl.
    change (lit ".git/") with (lit ".git" ++ lit "/").
    by rewrite app_assoc, !replaceAtEnd_app.
  - intros git logAll stackOf oldHash newHash tempDir w w1 u repoUrl Hmk.
    pose proof (ExecGit_run git u w) as He.
    pose proof (SimpleGit_run git logAll stackOf u w) as Hs.
    cbv zeta in He, Hs. rewrite Hmk in He, Hs.
    destruct He as (calls & o & w' & -> & Hj & Hrun & _).
    destruct Hs as (calls' & o' & w'' & -> & Hj' & Hrun' & _).
    split.
    + exists calls. split; [done|]. split; [|done].
      by apply Run_clone_first in Hrun.
    + exists calls'. split; [done|]. split; [|done].
      by apply LibraryRun_clone_first in Hrun'.
Qed.

Lemma normalizeUrl_strips_witness :
  normalizeUrl (lit "https://github.com/acme/lib.git/")
  = lit "https://github.com/acme/lib"
  ∧ (let r := ExecGit.getGitHistoryDescription gitGood acmeUpdate world0 in
     ∃ calls,
       r.2.(journal) = rev calls ++ world0.(journal)
       ∧ (∃ result rest,
            calls =
            (mkInvocation [lit "clone"; lit "https://github.com/acme/lib"; tempDir0]
                          None (Some (forcedEnv world0.(processEnv))), result)
              :: rest)
       ∧ Run (execDialect world0.(processEnv) (lit "https://github.com/acme/lib")
                          (lit "1111111") (lit "2222222") tempDir0)
             (lit "https://github.com/acme/lib") (lit "1111111") (lit "2222222")
             calls r.1)
  ∧ (let r := SimpleGit.getGitHistoryDescription sgitGood logAll0 stackOf0
                acmeUpdate world0 in
     ∃ calls,
       r.2.(journal) = rev calls ++ world0.(journal)
       ∧ (∃ result rest,
            calls =
            (mkInvocation [lit "clone"; lit "https://github.com/acme/lib"; lit "."]
                          (Some tempDir0) None, result) :: rest)
       ∧ LibraryRun logAll0 tempDir0 (lit "https://github.com/acme/lib")
                    (lit "1111111") (lit "2222222") calls r.1).
Proof.
  pose proof (normalizeUrl_strips (lit "https://github.com/acme/lib.git/"))
    as (_ & Hbare & Hrun).
  split; [by apply Hbare|].
  split.
  - by apply (Hrun gitGood logAll0 stackOf0 (lit "1111111") (lit "2222222")
                tempDir0 world0
                (mkdtempSync (pathJoin world0.(osTmpdir) (lit "git-history-"))
                             world0).2).
  - by apply (Hrun sgitGood logAll0 stackOf0 (lit "1111111") (lit "2222222")
                tempDir0 world0
                (mkdtempSync (pathJoin world0.(osTmpdir) (lit "git-history-"))
                             world0).2).
Defined.

(* ===================================================================== *)
(** ** The renderer: failures                                             *)
(* ===================================================================== *)

(** Three failures are handed back as text: of the clone, of the long form
    of the old hash, of the log. *)
Lemma Run_returns_text (d : Dialect) (repoUrl oldHash newHash : str)
    (calls : list (Invocation * ExecResult)) (text : str) :
  Run d repoUrl oldHash newHash calls (Returned text) →
  (∃ e, last calls = Some (d.(cloneCall), ExecFailed e)
        ∧ text = lit "Failed to clone " ++ repoUrl ++ lit ": " ++ e)
  ∨ (∃ e, last calls = Some (d.(longCall) oldHash, ExecFailed e)
          ∧ text = lit "Failed to get long sha for " ++ oldHash ++ lit ": " ++ e)
  ∨ (∃ oL nL e, last calls = Some (d.(rangeCall) oL nL, ExecFailed e)
                ∧ text = lit "Failed to get git log: " ++ e)
  ∨ (∃ out, last calls = Some out ∧ ∃ stdout, out.2 = ExecOk stdout).
Proof.
  inversion 1; subst.
  - left. by eexists.
  - right; left. by eexists.
  - right; right; left. by eexists _, _, _.
  - right; right; right. eexists. split; [done|]. by eexists.
Qed.

(** The other three are thrown on to the caller: of the short form of
    either hash and of the long form of the new hash. *)
Lemma Run_throws (d : Dialect) (repoUrl oldHash newHash : str)
    (calls : list (Invocation * ExecResult)) (e : str) :
  Run d repoUrl oldHash newHash calls (Thrown e) →
  last calls = Some (d.(shortCall) oldHash, ExecFailed e)
  ∨ last calls = Some (d.(shortCall) newHash, ExecFailed e)
  ∨ last calls = Some (d.(longCall) newHash, ExecFailed e).
Proof. inversion 1; subst; auto. Qed.

(** C1, at a record the renderer can receive: the clone works and the old
    hash is not in it. The first query, for the short form of the old hash,
    fails outside every [try], and the call throws instead of returning a
    text. Both variants do so. *)
Theorem render_throws_on_unknown_hash :
  (ExecGit.getGitHistoryDescription gitUnknownOld acmeUpdate world0).1
  = Thrown (lit "Error: The process '/usr/bin/git' failed with exit code 128")
  ∧ (SimpleGit.getGitHistoryDescription gitUnknownOld logAll0 stackOf0
       acmeUpdate world0).1
    = Thrown (lit "Error: The process '/usr/bin/git' failed with exit code 128")
  ∧ ¬ returnsText
        (ExecGit.getGitHistoryDescription gitUnknownOld acmeUpdate world0).1.
Proof.
  split; [vm_compute; reflexivity|]. split; [vm_compute; reflexivity|].
  intros [text Ht]. vm_compute in Ht. discriminate.
Qed.

(* ===================================================================== *)
(** ** The renderer: the temporary directory                              *)
(* ===================================================================== *)

(** The exec variant removes the directory it made, and all below it, on
    every way out. *)
Lemma ExecGit_removes_tempDir
    (git : Invocation → World → ExecResult * gset str)
    (u : GitUpdate) (w w1 : World) (tempDir : str) :
  mkdtempSync (pathJoin w.(osTmpdir) (lit "git-history-")) w
  = (Returned tempDir, w1) →
  ∀ p, under tempDir p = true →
       p ∉ (ExecGit.getGitHistoryDescription git u w).2.(dirs).
Proof.
  intros Hmk p Hp. pose proof (ExecGit_run git u w) as Hrun.
  cbv zeta in Hrun. rewrite Hmk in Hrun.
  destruct Hrun as (calls & o & w' & -> & _ & _ & _ & Hgone). by apply Hgone.
Qed.

(** When no directory could be made, none is left behind. *)
Lemma ExecGit_no_tempDir (git : Invocation → World → ExecResult * gset str)
    (u : GitUpdate) (w w1 : World) (e : str) :
  mkdtempSync (pathJoin w.(osTmpdir) (lit "git-history-")) w = (Thrown e, w1) →
  ExecGit.getGitHistoryDescription git u w = (Thrown e, w1)
  ∧ w1.(dirs) = w.(dirs).
Proof.
  intros Hmk. pose proof (ExecGit_run git u w) as Hrun.
  cbv zeta in Hrun. rewrite Hmk in Hrun. split; [done|].
  by apply mkdtempSync_Thrown in Hmk as (_ & _ & ?).
Qed.

(** C2, at a record the renderer can receive: the simple-git variant makes
    the temporary directory and never removes it. The directory made by
    the call still exists after a failed clone, which the call answers
    with a text; after the reading of a log without commits, which it
    answers with a text as well; and after the reading of a log with
    commits, where the call throws. *)
Theorem simple_git_leaves_tempDir :
  (tempDir0 ∉ world0.(dirs))
  ∧ (let r := SimpleGit.getGitHistoryDescription gitNoClone logAll0 stackOf0
                acmeUpdate world0 in
     (∃ text, r.1 = Returned text) ∧ tempDir0 ∈ r.2.(dirs))
  ∧ (let r := SimpleGit.getGitHistoryDescription sgitEmptyRange logAll0 stackOf0
                acmeUpdate world0 in
     (∃ text, r.1 = Returned text) ∧ tempDir0 ∈ r.2.(dirs))
  ∧ (let r := SimpleGit.getGitHistoryDescription sgitGood logAll0 stackOf0
                acmeUpdate world0 in
     r.1 = Thrown SimpleGit.notAFunction ∧ tempDir0 ∈ r.2.(dirs)).
Proof.
  split; [set_solver|].
  split; [|split].
  - split; [eexists; vm_compute; reflexivity|]. vm_compute. set_solver.
  - split; [eexists; vm_compute; reflexivity|]. vm_compute. set_solver.
  - split; [vm_compute; reflexivity|]. vm_compute. set_solver.
Qed.

Ltac run_git_keeping git Hkeep :=
  match goal with
  | |- context [git ?i ?w] =>
      let r := fresh "r" in
      let d := fresh "d" in
      let Hd := fresh "Hd" in
      pose proof (Hkeep i w) as Hd;
      destruct (git i w) as [[r|r] d];
      cbv beta iota zeta;
      cbn [processEnv osTmpdir entropy dirs journal warnings fst snd] in *
  end.

(** Whenever git itself removes nothing, whatever exists when the
    simple-git variant starts its work exists when it ends. *)
Lemma SimpleGit_describeIn_keeps
    (git : Invocation → World → ExecResult * gset str)
    (logAll : str → list SimpleGit.LogEntry) (stackOf : str → str)
    (url oldSha newSha tempDir : str) (w : World) :
  (∀ inv w0, w0.(dirs) ⊆ (git inv w0).2) →
  w.(dirs) ⊆ (SimpleGit.describeIn git logAll stackOf url oldSha newSha
                                   tempDir w).2.(dirs).
Proof.
  intros Hkeep.
  unfold SimpleGit.describeIn, SimpleGit.clone, SimpleGit.revparse,
    SimpleGit.log, SimpleGit.call, SimpleGit.outcomeOf, attempt, warning.
  unfold mbind, mret, M_bind, M_ret.
  cbv beta iota zeta. cbn [processEnv osTmpdir entropy dirs journal warnings].
  run_git_keeping git Hkeep; [|set_solver].
  run_git_keeping git Hkeep; [|set_solver].
  run_git_keeping git Hkeep; [|set_solver].
  run_git_keeping git Hkeep; [|set_solver].
  run_git_keeping git Hkeep; [|set_solver].
  run_git_keeping git Hkeep; [|set_solver].
  rewrite gatherEntries_outcome.
  match goal with
  | |- context [logAll ?out] => destruct (logAll out)
  end; cbn [fst snd dirs]; set_solver.
Qed.

(** With such a git, the directory the simple-git variant made is still
    there after the call, whichever way the call ends. *)
Lemma SimpleGit_keeps_tempDir
    (git : Invocation → World → ExecResult * gset str)
    (logAll : str → list SimpleGit.LogEntry) (stackOf : str → str)
    (u : GitUpdate) (w w1 : World) (tempDir : str) :
  (∀ inv w0, w0.(dirs) ⊆ (git inv w0).2) →
  mkdtempSync (pathJoin w.(osTmpdir) (lit "git-history-")) w
  = (Returned tempDir, w1) →
  tempDir ∈ (SimpleGit.getGitHistoryDescription git logAll stackOf u w).2.(dirs).
Proof.
  intros Hkeep Hmk.
  unfold SimpleGit.getGitHistoryDescription, tmpdir.
  unfold mbind, M_bind. rewrite Hmk.
  apply mkdtempSync_Returned in Hmk as (_ & _ & _ & Hd & _).
  eapply SimpleGit_describeIn_keeps; [done|]. rewrite Hd.
  apply elem_of_union. left. by apply elem_of_singleton.
Qed.

(* ===================================================================== *)
(** ** The renderer: the environment of the children                      *)
(* ===================================================================== *)

Lemma Run_calls (P : Invocation → Prop) (d : Dialect)
    (repoUrl oldHash newHash : str) (calls : list (Invocation * ExecResult))
    (o : Outcome str) :
  P d.(cloneCall) → (∀ sha, P (d.(shortCall) sha)) →
  (∀ sha, P (d.(longCall) sha)) → (∀ a b, P (d.(rangeCall) a b)) →
  Run d repoUrl oldHash newHash calls o →
  Forall (fun c => P c.1) calls.
Proof.
  intros Hc Hs Hl Hr. inversion 1; subst;
    repeat (apply Forall_cons; split; [simpl; auto|]); by apply Forall_nil.
Qed.

Lemma LibraryRun_calls (P : Invocation → Prop)
    (logAll : str → list SimpleGit.LogEntry)
    (tempDir repoUrl oldHash newHash : str)
    (calls : list (Invocation * ExecResult)) (o : Outcome str) :
  (∀ args, P (libraryCall tempDir args)) →
  LibraryRun logAll tempDir repoUrl oldHash newHash calls o →
  Forall (fun c => P c.1) calls.
Proof.
  intros Hc. inversion 1; subst;
    repeat (apply Forall_cons; split; [simpl; apply Hc|]); by apply Forall_nil.
Qed.

Lemma forcedEnv_forcesLocale (penv : Env) : forcesLocale penv (forcedEnv penv).
Proof.
  unfold forcesLocale, forcedEnv. repeat split.
  - rewrite !lookup_insert_ne by discriminate. apply lookup_insert_eq.
  - rewrite lookup_insert_ne by discriminate. apply lookup_insert_eq.
  - apply lookup_insert_eq.
  - intros key H1 H2 H3. by rewrite !lookup_insert_ne.
Qed.

(** C6, at a record the renderer can receive: the simple-git variant hands
    no environment to the library, so the child of the clone runs with the
    locale of the process, here [ko_KR.UTF-8]. *)
Lemma simple_git_child_env_not_forced :
  let r := SimpleGit.getGitHistoryDescription gitNoClone logAll0 stackOf0
             acmeUpdate world0 in
  ∃ inv result,
    r.2.(journal) = [(inv, result)]
    ∧ childEnv world0 inv !! lit "LANG" = Some (lit "ko_KR.UTF-8")
    ∧ ¬ forcesLocale world0.(processEnv) (childEnv world0 inv).
Proof.
  eexists _, _. split; [vm_compute; reflexivity|].
  split; [vm_compute; reflexivity|].
  intros [H _]. vm_compute in H. discriminate.
Qed.

(** X24: every git invocation of the exec variant runs with LANG and
    LC_ALL set to C.UTF-8 and TZ to UTC, all other variables as in the
    process; the simple-git variant sets no environment and its children
    inherit that of the process as it is. Neither variant changes the
    environment of the process. *)
Theorem child_environment
    (git : Invocation → World → ExecResult * gset str)
    (logAll : str → list SimpleGit.LogEntry) (stackOf : str → str)
    (u : GitUpdate) (w : World) :
  (let w' := (ExecGit.getGitHistoryDescription git u w).2 in
   w'.(processEnv) = w.(processEnv)
   ∧ ∃ calls, w'.(journal) = rev calls ++ w.(journal)
              ∧ Forall (fun c => forcesLocale w.(processEnv) (childEnv w c.1))
                       calls)
  ∧ (let w' := (SimpleGit.getGitHistoryDescription git logAll stackOf u w).2 in
     w'.(processEnv) = w.(processEnv)
     ∧ ∃ calls, w'.(journal) = rev calls ++ w.(journal)
                ∧ Forall (fun c => c.1.(env) = None
                                   ∧ childEnv w c.1 = w.(processEnv))
                         calls).
Proof.
  split; cbv zeta.
  - pose proof (ExecGit_run git u w) as Hrun. cbv zeta in Hrun.
    destruct (mkdtempSync _ w) as [[tempDir|e] w1] eqn:Hmk.
    + destruct Hrun as (calls & o & w' & -> & Hj & Hrun & Hpe & _).
      split; [done|]. exists calls. split; [done|].
      eapply (Run_calls (fun inv => forcesLocale w.(processEnv) (childEnv w inv)));
        [..|exact Hrun]; intros; apply forcedEnv_forcesLocale.
    + rewrite Hrun. apply mkdtempSync_Thrown in Hmk as (Hpe & Hj & _).
      split; [done|]. exists []. by split.
  - pose proof (SimpleGit_run git logAll stackOf u w) as Hrun.
    cbv zeta in Hrun.
    destruct (mkdtempSync _ w) as [[tempDir|e] w1] eqn:Hmk.
    + destruct Hrun as (calls & o & w' & -> & Hj & Hrun & Hpe).
      split; [done|]. exists calls. split; [done|].
      eapply (LibraryRun_calls (fun inv => inv.(env) = None
                                           ∧ childEnv w inv = w.(processEnv)));
        [|exact Hrun]; intros; done.
    + rewrite Hrun. apply mkdtempSync_Thrown in Hmk as (Hpe & Hj & _).
      split; [done|]. exists []. by split.
Qed.

(* ===================================================================== *)
(** ** The renderer: the fragment                                         *)
(* ===================================================================== *)

Lemma Run_success (d : Dialect) (repoUrl oldHash newHash : str)
    (calls : list (Invocation * ExecResult)) (o : Outcome str)
    (c oS nS oL nL out : str) :
  Run d repoUrl oldHash newHash calls o →
  map snd calls = allWorked c oS nS oL nL out →
  o = Returned (d.(rendered) (d.(answer) oS) (d.(answer) nS)
                             (d.(answer) oL) (d.(answer) nL)
                             (d.(logLines) out)).
Proof. inversion 1; subst; intros [= ]; by subst. Qed.

Lemma journal_calls (calls calls' : list (Invocation * ExecResult))
    (j : list (Invocation * ExecResult)) :
  rev calls ++ j = rev calls' ++ j → calls = calls'.
Proof.
  intros H%app_inv_tail. by rewrite <- (rev_involutive calls), H, rev_involutive.
Qed.

(** A call of the exec variant in which every invocation worked returns
    the fragment. *)
Lemma ExecGit_success (git : Invocation → World → ExecResult * gset str)
    (u : GitUpdate) (w : World) (calls : list (Invocation * ExecResult))
    (c oS nS oL nL out : str) :
  let repoUrl := normalizeUrl u.(url) in
  let r := ExecGit.getGitHistoryDescription git u w in
  r.2.(journal) = rev calls ++ w.(journal) →
  map snd calls = allWorked c oS nS oL nL out →
  r.1 = Returned
          (fragment (formatFor (hostOf repoUrl) repoUrl u.(oldSha) u.(newSha)
                               (trimEnd oS) (trimEnd nS) (trimEnd oL) (trimEnd nL))
                    (map entryOfLine
                         (filter (fun line : str => 0 < length line)
                                 (split LF (trimEnd out))))).
Proof.
  intros repoUrl r Hj Hok. subst r.
  pose proof (ExecGit_run git u w) as Hrun. cbv zeta in Hrun.
  destruct (mkdtempSync _ w) as [[tempDir|e] w1] eqn:Hmk.
  - destruct Hrun as (calls' & o & w' & Heq & Hj' & Hrun & _).
    rewrite Heq in *. simpl in *. rewrite Hj' in Hj.
    apply journal_calls in Hj as <-.
    by rewrite (Run_success _ _ _ _ _ _ _ _ _ _ _ _ Hrun Hok).
  - rewrite Hrun in Hj. simpl in Hj.
    apply mkdtempSync_Thrown in Hmk as (_ & Hj1 & _). rewrite Hj1 in Hj.
    apply (journal_calls [] calls) in Hj as <-. discriminate.
Qed.

Lemma LibraryRun_success (logAll : str → list SimpleGit.LogEntry)
    (tempDir repoUrl oldHash newHash : str)
    (calls : list (Invocation * ExecResult)) (o : Outcome str)
    (c oS nS oL nL out : str) :
  LibraryRun logAll tempDir repoUrl oldHash newHash calls o →
  map snd calls = allWorked c oS nS oL nL out →
  o = match logAll out with
      | [] => Returned (rangeLine (formatFor (hostOf repoUrl) repoUrl oldHash
                                             newHash oS nS oldHash newHash)
                          ++ [LF; LF])
      | _ :: _ => Thrown SimpleGit.notAFunction
      end.
Proof.
  inversion 1 as [| | | | | |? ? ? ? ? ? Hall|? ? ? ? ? ? Hall]; subst;
    intros [= ]; subst.
  - by rewrite Hall.
  - by destruct (logAll out).
Qed.

(** A call of the simple-git variant in which every invocation worked
    returns the range line, with the hashes of the record in the range
    link, and a blank line when the log has no entry, and throws when it
    has one. *)
Lemma SimpleGit_success (git : Invocation → World → ExecResult * gset str)
    (logAll : str → list SimpleGit.LogEntry) (stackOf : str → str)
    (u : GitUpdate) (w : World) (calls : list (Invocation * ExecResult))
    (c oS nS oL nL out : str) :
  let repoUrl := normalizeUrl u.(url) in
  let r := SimpleGit.getGitHistoryDescription git logAll stackOf u w in
  r.2.(journal) = rev calls ++ w.(journal) →
  map snd calls = allWorked c oS nS oL nL out →
  r.1 = match logAll out with
        | [] => Returned (rangeLine (formatFor (hostOf repoUrl) repoUrl
                                               u.(oldSha) u.(newSha) oS nS
                                               u.(oldSha) u.(newSha))
                            ++ [LF; LF])
        | _ :: _ => Thrown SimpleGit.notAFunction
        end.
Proof.
  intros repoUrl r Hj Hok. subst r.
  pose proof (SimpleGit_run git logAll stackOf u w) as Hrun. cbv zeta in Hrun.
  destruct (mkdtempSync _ w) as [[tempDir|e] w1] eqn:Hmk.
  - destruct Hrun as (calls' & o & w' & Heq & Hj' & Hrun & _).
    rewrite Heq in *. simpl in *. rewrite Hj' in Hj.
    apply journal_calls in Hj as <-.
    by rewrite (LibraryRun_success _ _ _ _ _ _ _ _ _ _ _ _ _ Hrun Hok).
  - rewrite Hrun in Hj. simpl in Hj.
    apply mkdtempSync_Thrown in Hmk as (_ & Hj1 & _). rewrite Hj1 in Hj.
    apply (journal_calls [] calls) in Hj as <-. discriminate.
Qed.

Lemma split_app (sep : ascii) (a s : str) :
  sep ∉ a → split sep (a ++ sep :: s) = a :: split sep s.
Proof.
  induction a as [|c a IH]; intros Hsep; simpl.
  - by rewrite bool_decide_eq_true_2.
  - apply not_elem_of_cons in Hsep as [Hc Ha].
    rewrite bool_decide_eq_false_2 by congruence. by rewrite IH.
Qed.

Lemma join_split (sep : ascii) (s : str) : join [sep] (split sep s) = s.
Proof.
  induction s as [|c s IH]; simpl; [done|].
  pose proof (split_nonempty sep s) as Hne.
  case_bool_decide as Hc.
  - subst c. destruct (split sep s) as [|h t]; [done|].
    change (join [sep] ([] :: h :: t)) with ([] ++ [sep] ++ join [sep] (h :: t)).
    by rewrite IH.
  - destruct (split sep s) as [|h t]; [done|].
    destruct t as [|h' t]; simpl in *; by rewrite <- IH.
Qed.

(** The subject is everything after the fourth space of the line. *)
Lemma entryOfLine_fields (h s d e rest : str) :
  SP ∉ h → SP ∉ s → SP ∉ d → SP ∉ e →
  entryOfLine (h ++ [SP] ++ s ++ [SP] ++ d ++ [SP] ++ e ++ [SP] ++ rest)
  = mkGitEntry (Some h) (Some s) (Some d) (Some e) rest.
Proof.
  intros Hh Hs Hd He. unfold entryOfLine. cbn [app].
  rewrite !split_app by done. cbn [lookup list_lookup drop].
  by rewrite drop_0, join_split.
Qed.


(** X25: when every invocation worked, the text the exec variant returns
    starts with the range line of the host and its commit lines use the
    link prefix of the host. The host is GitHub when the normalized URL
    holds [github.com], else Googlesource when it holds
    [googlesource.com], else unknown. GitHub: description
    [url/compare/oldShort...newShort], link [url/compare/oldLong...newLong],
    commit prefix [url/commit/]; Googlesource: [url/+log/oldShort..newShort],
    [url/+log/oldLong..newLong] and [url/+/]; unknown: the plain text
    [url oldHash..newHash], no link. *)
Theorem host_formatting
    (git : Invocation → World → ExecResult * gset str)
    (u : GitUpdate) (w : World) (calls : list (Invocation * ExecResult))
    (c oS nS oL nL out : str) :
  let repoUrl := normalizeUrl u.(url) in
  map snd calls = allWorked c oS nS oL nL out →
  (let r := ExecGit.getGitHistoryDescription git u w in
   r.2.(journal) = rev calls ++ w.(journal) →
   ∃ entries,
     r.1 = Returned
             (fragment
                (match hostOf repoUrl with
                 | GitHub =>
                     mkFormat
                       (repoUrl ++ lit "/compare/" ++ trimEnd oS ++ lit "..."
                          ++ trimEnd nS)
                       (Some (repoUrl ++ lit "/compare/" ++ trimEnd oL
                                ++ lit "..." ++ trimEnd nL))
                       (Some (repoUrl ++ lit "/commit/"))
                 | Googlesource =>
                     mkFormat
                       (repoUrl ++ lit "/+log/" ++ trimEnd oS ++ lit ".."
                          ++ trimEnd nS)
                       (Some (repoUrl ++ lit "/+log/" ++ trimEnd oL
                                ++ lit ".." ++ trimEnd nL))
                       (Some (repoUrl ++ lit "/+/"))
                 | OtherHost =>
                     mkFormat
                       (repoUrl ++ lit " " ++ u.(oldSha) ++ lit ".." ++ u.(newSha))
                       None None
                 end)
                entries))
  ∧ (hostOf repoUrl = GitHub ↔ includes repoUrl (lit "github.com") = true)
  ∧ (hostOf repoUrl = Googlesource ↔
     includes repoUrl (lit "github.com") = false
     ∧ includes repoUrl (lit "googlesource.com") = true).
Proof.
  intros repoUrl Hok. split; [|split].
  - intros r Hj. subst r. eexists.
    rewrite (ExecGit_success git u w calls _ _ _ _ _ _ Hj Hok).
    fold repoUrl. by destruct (hostOf repoUrl).
  - unfold hostOf. destruct (includes repoUrl (lit "github.com")); [done|].
    by destruct (includes repoUrl (lit "googlesource.com")).
  - unfold hostOf. destruct (includes repoUrl (lit "github.com")).
    + split; [done|]. by intros [? _].
    + destruct (includes repoUrl (lit "googlesource.com")); split; try done.
      by intros [_ ?].
Qed.

Lemma host_formatting_witness :
  ∃ entries,
    (ExecGit.getGitHistoryDescription gitGood acmeUpdate world0).1
    = Returned
        (fragment
           (mkFormat
              (lit "https://github.com/acme/lib/compare/1111111...2222222")
              (Some (lit "https://github.com/acme/lib/compare/" ++ long1
                       ++ lit "..." ++ long2))
              (Some (lit "https://github.com/acme/lib/commit/")))
           entries).
Proof.
  apply (proj1 (host_formatting gitGood acmeUpdate world0
                  (rev (ExecGit.getGitHistoryDescription gitGood acmeUpdate
                          world0).2.(journal))
                  [] (lit "1111111" ++ [LF]) (lit "2222222" ++ [LF])
                  (long1 ++ [LF]) (long2 ++ [LF]) logOutput
                  ltac:(vm_compute; reflexivity))).
  vm_compute. reflexivity.
Defined.


(** X26: when every invocation worked, the exec variant returns the range
    line (the description as a markdown link to the range link, plain
    where no host is recognized), a blank line, and a Details block
    holding one line per line of the log that is not empty, in the order
    of the log: [[shortHash](prefix fullHash) date email subject], without
    the link wrapper where no host is recognized. The fields of a commit
    are the first four parts of its log line and the subject is everything
    after the fourth space. *)
Theorem fragment_layout
    (git : Invocation → World → ExecResult * gset str)
    (u : GitUpdate) (w : World) (calls : list (Invocation * ExecResult))
    (c oS nS oL nL out : str) :
  let repoUrl := normalizeUrl u.(url) in
  map snd calls = allWorked c oS nS oL nL out →
  (let r := ExecGit.getGitHistoryDescription git u w in
   let f := formatFor (hostOf repoUrl) repoUrl u.(oldSha) u.(newSha)
                      (trimEnd oS) (trimEnd nS) (trimEnd oL) (trimEnd nL) in
   let log := filter (fun line : str => 0 < length line)
                     (split LF (trimEnd out)) in
   r.2.(journal) = rev calls ++ w.(journal) →
   r.1 = Returned
           (rangeLine f ++ [LF] ++ [LF]
              ++ lit "<details><summary>Details</summary>" ++ [LF] ++ [LF]
              ++ concat (map (fun line =>
                                commitLine f.(commitLinkPrefix) (entryOfLine line)
                                  ++ [LF]) log)
              ++ lit "</details>" ++ [LF] ++ [LF]))
  ∧ (∀ h s d e subject prefix,
       SP ∉ h → SP ∉ s → SP ∉ d → SP ∉ e →
       let line := h ++ [SP] ++ s ++ [SP] ++ d ++ [SP] ++ e ++ [SP] ++ subject in
       commitLine (Some prefix) (entryOfLine line)
       = lit "[" ++ s ++ lit "](" ++ prefix ++ h ++ lit ") " ++ d ++ lit " "
           ++ e ++ lit " " ++ subject
       ∧ commitLine None (entryOfLine line)
         = s ++ lit " " ++ d ++ lit " " ++ e ++ lit " " ++ subject).
Proof.
  intros repoUrl Hok. split.
  - intros r f log Hj. subst r f log.
    rewrite (ExecGit_success git u w calls _ _ _ _ _ _ Hj Hok).
    fold repoUrl. unfold fragment, detailsBlock, commitLines.
    by rewrite map_map.
  - intros h s d e subject prefix Hh Hs Hd He line. subst line.
    by rewrite entryOfLine_fields.
Qed.

Lemma fragment_layout_witness :
  (ExecGit.getGitHistoryDescription gitGood acmeUpdate world0).1
  = Returned
      (lines
         [ lit "- [https://github.com/acme/lib/compare/1111111...2222222](https://github.com/acme/lib/compare/1111111aaaaaaaaaaaaaaaaaaaaaaaaaaaaaaaaa...2222222bbbbbbbbbbbbbbbbbbbbbbbbbbbbbbbbb)";
           [];
           lit "<details><summary>Details</summary>";
           [];
           lit "[2222222](https://github.com/acme/lib/commit/2222222bbbbbbbbbbbbbbbbbbbbbbbbbbbbbbbbb) 2023-05-06 bob@example.com Fix the parser again";
           lit "[3333333](https://github.com/acme/lib/commit/3333333ccccccccccccccccccccccccccccccccc) 2023-05-05 eve@example.com Add tests";
           lit "</details>";
           []; [] ]).
Proof.
  apply (proj1 (fragment_layout gitGood acmeUpdate world0
                  (rev (ExecGit.getGitHistoryDescription gitGood acmeUpdate
                          world0).2.(journal))
                  [] (lit "1111111" ++ [LF]) (lit "2222222" ++ [LF])
                  (long1 ++ [LF]) (long2 ++ [LF]) logOutput
                  ltac:(vm_compute; reflexivity))).
  vm_compute. reflexivity.
Defined.

(* ===================================================================== *)
(** ** Worked examples                                                    *)
(* ===================================================================== *)

Example hostOf_examples :
  hostOf (lit "https://github.com/acme/lib") = GitHub
  ∧ hostOf (lit "https://chromium.googlesource.com/chromium/tools/build")
    = Googlesource
  ∧ hostOf (lit "https://git.example.org/github.com.googlesource.com") = GitHub
  ∧ hostOf (lit "https://gitlab.com/acme/lib") = OtherHost.
Proof. repeat split; vm_compute; reflexivity. Qed.

(** A log line with fewer than four spaces leaves fields undefined, and
    the template prints them as such. *)
Example commitLine_short_line :
  commitLine None (entryOfLine (lit "abc1234 abc"))
  = lit "abc undefined undefined ".
Proof. vm_compute. reflexivity. Qed.

(** The exec variant on an unknown host: plain range line, no links. *)
Example render_unknown_host :
  (ExecGit.getGitHistoryDescription gitGood
     (mkGitUpdate (lit "https://gitlab.com/acme/lib/") (lit "1111111")
                  (lit "2222222"))
     world0).1
  = Returned
      (lines
         [ lit "- https://gitlab.com/acme/lib 1111111..2222222";
           [];
           lit "<details><summary>Details</summary>";
           [];
           lit "2222222 2023-05-06 bob@example.com Fix the parser again";
           lit "3333333 2023-05-05 eve@example.com Add tests";
           lit "</details>";
           []; [] ]).
Proof. vm_compute. reflexivity. Qed.

(** The exec variant after a failed clone: the message, and no directory
    left behind. *)
Example render_failed_clone :
  let r := ExecGit.getGitHistoryDescription gitNoClone acmeUpdate world0 in
  r.1 = Returned (lit "Failed to clone https://github.com/acme/lib: Error: The process '/usr/bin/git' failed with exit code 128")
  ∧ r.2.(dirs) = ∅.
Proof. split; vm_compute; reflexivity. Qed.

(* ===================================================================== *)
(** ** parseTable: when it throws, and what its records look like         *)
(* ===================================================================== *)

Import Actions ActionsDesign.

Lemma rowsFit_or_wide (tableHeader : list str) (tableData : list (list str)) :
  ¬ rowsFit tableHeader tableData ↔ hasWideRow tableHeader tableData.
Proof.
  unfold rowsFit, hasWideRow. rewrite <- Exists_Forall_neg by (intros; lia).
  split; intros H; (eapply Exists_impl; [exact H|]); intros; simpl in *; lia.
Qed.

(** X1: [parseTable] throws exactly when the table it works on has a data
    row with more cells than the header row, and what it throws is the
    TypeError of calling [toLowerCase] on [undefined]. *)
Theorem parseTable_throws_exactly (body : str) :
  ((∃ e, parseTable body = Thrown e) ↔
   ∃ tableHeader tableData,
     parsedTable body = Some (tableHeader, tableData)
     ∧ hasWideRow tableHeader tableData)
  ∧ ∀ e, parseTable body = Thrown e → e = typeError.
Proof.
  split.
  - split.
    + intros [e (_ & h & d & Hp & Hw)%parseTable_throws_iff].
      exists h, d. split; [done|]. by apply rowsFit_or_wide.
    + intros (h & d & Hp & Hw). exists typeError.
      apply parseTable_throws_iff. split; [done|]. exists h, d.
      split; [done|]. by apply rowsFit_or_wide.
  - by intros e [-> _]%parseTable_throws_iff.
Qed.

(** X2: [parseTable] returns [null] exactly when the body does not hold
    the header, and returns records exactly when no data row of the table
    has more cells than the header row; the records are then those the
    qualifying rows yield, row by row, in the order of the table. *)
Theorem parseTable_returns_exactly (body : str) :
  (parseTable body = Returned None ↔ ¬ containsHeader body)
  ∧ ∀ records,
      parseTable body = Returned (Some records) ↔
      ∃ tableHeader tableData,
        parsedTable body = Some (tableHeader, tableData)
        ∧ rowsFit tableHeader tableData
        ∧ selects tableHeader tableData records.
Proof.
  split; [apply parseTable_null_iff|apply parseTable_records_exact].
Qed.

(** X3: the text [parseTable] splits into rows starts at the leftmost
    header of the body.  When a blank line follows, the text runs up to
    the first one; when none does, the text is what stands before the
    header, and the header and the rows are not part of it. *)
Theorem tableBody_extent (body table0 : str) :
  headerRegex body = Some table0 →
  ∃ pre rest,
    body = pre ++ table0 ++ rest
    ∧ sameIgnoringCase table0 headerPattern
    ∧ (∀ pre' m' post', body = pre' ++ m' ++ post' →
                        sameIgnoringCase m' headerPattern →
                        length pre ≤ length pre')
    ∧ ((∃ mid post,
          rest = mid ++ [LF; LF] ++ post
          ∧ tableBodyOf body table0 = table0 ++ mid
          ∧ ∀ k, k < length (table0 ++ mid) →
                 startsWith [LF; LF] (drop k (table0 ++ rest)) = false)
       ∨ ((∀ k, startsWith [LF; LF] (drop k (table0 ++ rest)) = false)
          ∧ tableBodyOf body table0 = pre)).
Proof.
  intros Hh.
  destruct (tableStartOf_first_header _ _ Hh)
    as (pre & rest & Hb & Hstart & Hm & Hleft).
  destruct (decide (tableEndOf body table0 = (-1)%Z)) as [Hend|Hend].
  - exists pre, rest. repeat split; [done..|]. right. split.
    + intros k. unfold tableEndOf in Hend. rewrite Hstart in Hend.
      pose proof (indexOf_not_found _ _ _ Hend (length pre + k)) as Hk.
      rewrite clamp_nat in Hk by (rewrite Hb, length_app; lia).
      specialize (Hk ltac:(lia)).
      rewrite Hb in Hk at 1. by rewrite <- drop_drop, drop_app_length in Hk.
    + rewrite (tableBodyOf_without_blank_line _ _ Hend), Hstart, Nat2Z.id.
      rewrite Hb at 1. by rewrite take_app_length.
  - destruct (tableBody_until_blank_line _ _ Hh Hend)
      as (pre' & mid & post & Hb' & Hbody & Hnone & Hleft').
    assert (length pre = length pre') as Hlen.
    { apply Nat.le_antisymm.
      - apply (Hleft pre' table0 (mid ++ [LF; LF] ++ post)); [|done].
        rewrite Hb'. by rewrite <- !app_assoc.
      - by apply (Hleft' pre table0 rest). }
    assert (pre = pre' ∧ rest = mid ++ [LF; LF] ++ post) as [<- ->].
    { rewrite Hb in Hb'. rewrite <- !app_assoc in Hb'.
      apply app_inj_1 in Hb' as [-> Hb']; [|done].
      by apply app_inv_head in Hb'. }
    exists pre, (mid ++ [LF; LF] ++ post). repeat split; [done..|]. left.
    exists mid, post. repeat split; [done|].
    intros k Hk. specialize (Hnone k Hk). by rewrite <- !app_assoc in Hnone.
Qed.

Lemma tableBody_extent_witness :
  ∃ pre rest,
    exampleBody = pre ++ headerLine ++ rest
    ∧ sameIgnoringCase headerLine headerPattern
    ∧ (∀ pre' m' post', exampleBody = pre' ++ m' ++ post' →
                        sameIgnoringCase m' headerPattern →
                        length pre ≤ length pre')
    ∧ ((∃ mid post,
          rest = mid ++ [LF; LF] ++ post
          ∧ tableBodyOf exampleBody headerLine = headerLine ++ mid
          ∧ ∀ k, k < length (headerLine ++ mid) →
                 startsWith [LF; LF] (drop k (headerLine ++ rest)) = false)
       ∨ ((∀ k, startsWith [LF; LF] (drop k (headerLine ++ rest)) = false)
          ∧ tableBodyOf exampleBody headerLine = pre)).
Proof.
  apply (tableBody_extent exampleBody headerLine). vm_compute. reflexivity.
Defined.

Lemma trimStart_suffix (s : str) : ∃ k, trimStart s = drop k s.
Proof.
  induction s as [|c s [k IH]]; simpl; [by exists 0|].
  destruct (isWhiteSpace c); [by exists (S k)|by exists 0].
Qed.

Lemma trimStart_head (s : str) :
  match trimStart s with c :: _ => isWhiteSpace c = false | [] => True end.
Proof.
  induction s as [|c s IH]; simpl; [done|].
  by destruct (isWhiteSpace c) eqn:Hc.
Qed.

Lemma trimStart_fixed (s : str) :
  match s with c :: _ => isWhiteSpace c = false | [] => True end →
  trimStart s = s.
Proof. destruct s as [|c s]; simpl; [done|]. by intros ->. Qed.

Lemma trimStart_idemp (s : str) : trimStart (trimStart s) = trimStart s.
Proof. apply trimStart_fixed, trimStart_head. Qed.

(** [trim] leaves nothing for a second [trim] to take off. *)
Lemma trim_trimmed (s : str) : trimmed (trim s).
Proof.
  unfold trimmed, trim, trimEnd.
  set (a := trimStart (rev s)).
  pose proof (trimStart_head (rev s)) as Ha. fold a in Ha.
  destruct (trimStart_suffix (rev a)) as [k Hk].
  assert (rev (trimStart (rev a)) = take (length a - k) a) as Hrev
    by (by rewrite Hk, skipn_rev, rev_involutive).
  rewrite Hrev, (trimStart_fixed (take _ a)).
  - by rewrite <- Hrev, rev_involutive, trimStart_idemp.
  - destruct a as [|c a]; [by rewrite take_nil|].
    by destruct (length (c :: a) - k).
Qed.

Lemma trimStart_elem (s : str) (c : ascii) : c ∈ trimStart s → c ∈ s.
Proof.
  destruct (trimStart_suffix s) as [k ->]. intros Hc.
  rewrite <- (take_drop k s). apply elem_of_app. by right.
Qed.

Lemma trim_elem (s : str) (c : ascii) : c ∈ trim s → c ∈ s.
Proof.
  unfold trim, trimEnd. intros Hc%trimStart_elem.
  apply list_elem_of_In, in_rev, list_elem_of_In, trimStart_elem in Hc.
  by apply list_elem_of_In, in_rev, list_elem_of_In in Hc.
Qed.

(** The parts of a split hold no separator, and nothing the text does not
    hold. *)
Lemma split_parts (sep : ascii) (s part : str) :
  part ∈ split sep s → (sep ∉ part) ∧ ∀ c, c ∈ part → c ∈ s.
Proof.
  revert part. induction s as [|c s IH]; intros part; simpl.
  - intros ->%list_elem_of_singleton. split; [apply not_elem_of_nil|done].
  - case_bool_decide as Hc.
    + intros [->|Hin]%elem_of_cons.
      * split; [apply not_elem_of_nil|]. by intros ? ?%elem_of_nil.
      * destruct (IH _ Hin) as [Hsep Hsub]. split; [done|].
        intros c' Hc'. apply elem_of_cons. right. by apply Hsub.
    + destruct (split sep s) as [|h t] eqn:Hsplit.
      * intros ->%list_elem_of_singleton. split.
        -- by intros ->%list_elem_of_singleton.
        -- intros c' ->%list_elem_of_singleton. by left.
      * intros [->|Hin]%elem_of_cons.
        -- destruct (IH h) as [Hsep Hsub]; [by left|]. split.
           ++ intros [->|?]%elem_of_cons; done.
           ++ intros c' [->|Hc']%elem_of_cons; [by left|].
              apply elem_of_cons. right. by apply Hsub.
        -- destruct (IH part) as [Hsep Hsub]; [by right|]. split; [done|].
           intros c' Hc'. apply elem_of_cons. right. by apply Hsub.
Qed.

Lemma cellNamed_elem (name : string) (tableHeader row : list str) (v : str) :
  cellNamed name tableHeader row = Some v → v ∈ row.
Proof.
  unfold cellNamed. intros [l Hl]%last_Some.
  assert (v ∈ omap (fun hv : str * str =>
                      if bool_decide (toLowerCase hv.1 = lit name)
                      then Some hv.2 else None) (zip tableHeader row)) as Hin
    by (rewrite Hl; apply elem_of_app; right; by left).
  apply list_elem_of_omap in Hin as ([h x] & Hzip & Hf). simpl in Hf.
  case_bool_decide; [|done]. injection Hf as ->.
  by apply elem_of_zip_r in Hzip.
Qed.

(** A cell of a data row is trimmed and holds neither a bar nor a line
    feed. *)
Lemma tableData_cells (body table0 : str) (row : list str) (cell : str) :
  row ∈ tableDataOf (tableRowsOf body table0) → cell ∈ row →
  trimmed cell ∧ (BAR ∉ cell) ∧ (LF ∉ cell).
Proof.
  unfold tableDataOf, tableRowsOf, cellsOf.
  intros (line & -> & Hline)%list_elem_of_fmap.
  intros (part & -> & Hpart)%list_elem_of_fmap.
  assert (line ∈ split LF (tableBodyOf body table0)) as Hline'.
  { rewrite <- (take_drop 2 (split LF _)). apply elem_of_app. by right. }
  apply split_parts in Hline' as [Hlf _].
  apply split_parts in Hpart as [Hbar Hsub].
  split; [apply trim_trimmed|]. split.
  - by intros ?%trim_elem.
  - intros ?%trim_elem. apply Hlf. by apply Hsub.
Qed.

Lemma selects_Forall (P : GitUpdate → Prop) (tableHeader : list str)
    (tableData : list (list str)) (records : list GitUpdate) :
  (∀ row r, row ∈ tableData → qualifies tableHeader row r → P r) →
  selects tableHeader tableData records → Forall P records.
Proof.
  intros HP Hsel. induction Hsel as [|row rows r records Hq _ IH|row rows records _ _ IH].
  - constructor.
  - constructor; [apply (HP row); [by left|done]|].
    apply IH. intros row' r' Hin. apply HP. by right.
  - apply IH. intros row' r' Hin. apply HP. by right.
Qed.

(** X4: every record [parseTable] returns holds two hashes of 7 to 40
    lower-case hex digits and a URL that is not empty, has no white space
    at either end and holds neither a bar nor a line feed. *)
Theorem parseTable_records_wellFormed (body : str) (records : list GitUpdate) :
  parseTable body = Returned (Some records) → Forall wellFormed records.
Proof.
  intros (h & d & Hp & _ & Hsel)%parseTable_records_exact.
  unfold parsedTable in Hp.
  destruct (headerRegex body) as [t|]; [|done]. simpl in Hp.
  destruct (tableRowsOf body t !! 0) as [row0|]; [|done]. simpl in Hp.
  injection Hp as <- <-.
  eapply selects_Forall; [|exact Hsel].
  intros row r Hrow (_ & p & c & Hcell & Hne & _ & _ & Hm & Hurl).
  destruct Hm as (pre & (post & _ & Ho & Hn) & _).
  apply cellNamed_elem in Hcell.
  destruct (tableData_cells _ _ _ _ Hrow Hcell) as (Ht & Hbar & Hlf).
  unfold wellFormed. rewrite Hurl. done.
Qed.

Lemma parseTable_records_wellFormed_witness :
  Forall wellFormed
    [mkGitUpdate (lit "https://github.com/acme/lib") (lit "1111111")
                 (lit "2222222")].
Proof.
  apply (parseTable_records_wellFormed exampleBody). vm_compute. reflexivity.
Defined.

(* ===================================================================== *)
(** ** The loop of run                                                    *)
(* ===================================================================== *)

Lemma rendersTo_nil_inv (render : GitUpdate → M str) (w w' : World)
    (pieces : list str) :
  rendersTo render [] w pieces w' → pieces = [] ∧ w' = w.
Proof. by inversion 1. Qed.

Lemma rendersTo_cons_inv (render : GitUpdate → M str) (u : GitUpdate)
    (us : list GitUpdate) (w w' : World) (pieces : list str) :
  rendersTo render (u :: us) w pieces w' →
  ∃ piece w1 pieces',
    render u w = (Returned piece, w1) ∧ rendersTo render us w1 pieces' w'
    ∧ pieces = piece :: pieces'.
Proof. inversion 1; subst. by eexists _, _, _. Qed.

Lemma inWorld_world (r : Runner) : inWorld r.(world) r = r.
Proof. by destruct r. Qed.

Lemma describeAll_Returned (render : GitUpdate → M str)
    (gitUpdates : list GitUpdate) :
  ∀ description r description' r',
    describeAll render gitUpdates description r = (Returned description', r') ↔
    ∃ pieces,
      rendersTo render gitUpdates r.(world) pieces r'.(world)
      ∧ description' = description ++ concat pieces
      ∧ r' = inWorld r'.(world) r.
Proof.
  induction gitUpdates as [|u us IH]; intros d r d' r'; simpl.
  - unfold mret, D_ret. split.
    + intros [= <- <-]. exists []. split; [constructor|].
      by rewrite app_nil_r, inWorld_world.
    + intros (pieces & [-> Hw]%rendersTo_nil_inv & -> & Hr').
      rewrite Hw in Hr'. rewrite inWorld_world in Hr'.
      simpl. by rewrite app_nil_r, Hr'.
  - unfold mbind, D_bind, await.
    destruct (render u (world r)) as [[piece|e] w1] eqn:Hu.
    + rewrite IH. simpl. split.
      * intros (pieces & Hr & -> & Hr'). exists (piece :: pieces).
        split; [by econstructor|]. split; [simpl; by rewrite app_assoc|done].
      * intros (pieces & (p & w2 & ps & Hp & Hr & ->)%rendersTo_cons_inv & -> & Hr').
        rewrite Hu in Hp. injection Hp as <- <-.
        exists ps. split; [done|]. split; [simpl; by rewrite app_assoc|done].
    + split; [done|].
      intros (pieces & (p & w2 & ps & Hp & _)%rendersTo_cons_inv & _). congruence.
Qed.

Lemma describeAll_Thrown (render : GitUpdate → M str)
    (gitUpdates : list GitUpdate) :
  ∀ description r e r',
    describeAll render gitUpdates description r = (Thrown e, r') ↔
    ∃ before u rest pieces w1,
      gitUpdates = before ++ u :: rest
      ∧ rendersTo render before r.(world) pieces w1
      ∧ render u w1 = (Thrown e, r'.(world))
      ∧ r' = inWorld r'.(world) r.
Proof.
  induction gitUpdates as [|u us IH]; intros d r e r'; simpl.
  - split; [done|]. intros (done & u & rest & _ & _ & Heq & _).
    by destruct done.
  - unfold mbind, D_bind, await.
    destruct (render u (world r)) as [[piece|e'] w1] eqn:Hu.
    + rewrite IH. simpl. split.
      * intros (done & u' & rest & pieces & w2 & -> & Hr & Hthrow & Hr').
        exists (u :: done), u', rest, (piece :: pieces), w2.
        split; [done|]. split; [by econstructor|]. done.
      * intros (done & u' & rest & pieces & w2 & Heq & Hr & Hthrow & Hr').
        destruct done as [|u0 done]; simpl in Heq; injection Heq as -> ->.
        -- apply rendersTo_nil_inv in Hr as [_ ->]. congruence.
        -- apply rendersTo_cons_inv in Hr as (p & w3 & ps & Hp & Hr & ->).
           rewrite Hu in Hp. injection Hp as <- <-.
           by exists done, u', rest, ps, w2.
    + split.
      * intros [= <- <-]. exists [], u, us, [], (world r). simpl.
        split; [done|]. split; [constructor|]. done.
      * intros (done & u' & rest & pieces & w2 & Heq & Hr & Hthrow & Hr').
        destruct done as [|u0 done]; simpl in Heq; injection Heq as -> ->.
        -- apply rendersTo_nil_inv in Hr as [_ ->].
           rewrite Hu in Hthrow. injection Hthrow as -> Hw.
           f_equal. rewrite Hr'. unfold inWorld. by rewrite Hw.
        -- apply rendersTo_cons_inv in Hr as (p & w3 & ps & Hp & _). congruence.
Qed.

Lemma describeAll_rendered (render : GitUpdate → M str)
    (gitUpdates : list GitUpdate) (description : str) (r : Runner)
    (pieces : list str) (w' : World) :
  rendersTo render gitUpdates r.(world) pieces w' →
  describeAll render gitUpdates description r =
  (Returned (description ++ concat pieces), inWorld w' r).
Proof.
  intros Hr. apply describeAll_Returned. exists pieces. by destruct r.
Qed.

Lemma describeAll_stopped (render : GitUpdate → M str)
    (before rest : list GitUpdate) (u : GitUpdate) (description : str)
    (r : Runner) (pieces : list str) (w1 w2 : World) (e : str) :
  rendersTo render before r.(world) pieces w1 →
  render u w1 = (Thrown e, w2) →
  describeAll render (before ++ u :: rest) description r =
  (Thrown e, inWorld w2 r).
Proof.
  intros Hr Hu. apply describeAll_Thrown.
  exists before, u, rest, pieces, w1. by destruct r.
Qed.

(** X5: the loop over the records of either driver renders them in the
    order of the table, each in the world the one before it left, and
    returns the text it was given followed by the pieces in that order; it
    throws exactly what the first failing rendering throws, and renders no
    record after that one.  It logs nothing, records no failure and sends
    no request. *)
Theorem describeAll_outcomes (render : GitUpdate → M str)
    (gitUpdates : list GitUpdate) (description : str) (r r' : Runner) :
  (∀ description',
     describeAll render gitUpdates description r = (Returned description', r') ↔
     ∃ pieces,
       rendersTo render gitUpdates r.(world) pieces r'.(world)
       ∧ description' = description ++ concat pieces
       ∧ r' = inWorld r'.(world) r)
  ∧ (∀ e,
       describeAll render gitUpdates description r = (Thrown e, r') ↔
       ∃ before u rest pieces w1,
         gitUpdates = before ++ u :: rest
         ∧ rendersTo render before r.(world) pieces w1
         ∧ render u w1 = (Thrown e, r'.(world))
         ∧ r' = inWorld r'.(world) r).
Proof.
  split; intros; [apply describeAll_Returned|apply describeAll_Thrown].
Qed.

(* ===================================================================== *)
(** ** The tests for the bot                                              *)
(* ===================================================================== *)

Lemma searchFirst_is_Some {R} (m : str → option R) (s : str) :
  is_Some (searchFirst m s) ↔ ∃ pre rest, s = pre ++ rest ∧ is_Some (m rest).
Proof.
  split.
  - intros [x (pre & rest & -> & Hm & _)%searchFirst_Some]. by exists pre, rest.
  - intros (pre & rest & -> & [x Hm]).
    destruct (searchFirst m (pre ++ rest)) eqn:Hs; [done|].
    apply searchFirst_None in Hs. congruence.
Qed.

Lemma renovateAt_is_Some (s : str) :
  is_Some (renovateAt s) ↔
  ∃ m post, s = m ++ post ∧ sameIgnoringCase m (lit "renovate")
    ∧ ((∃ c t, post = c :: t ∧ isWhiteSpace c = true)
       ∨ (∃ m' t, post = m' ++ t ∧ sameIgnoringCase m' (lit "[bot]"))).
Proof.
  unfold renovateAt. split.
  - destruct (matchLiteralCI _ s) as [m|] eqn:Hm; [|by intros [? ?]].
    apply matchLiteralCI_Some in Hm as (post & -> & Hm).
    rewrite drop_app_length. intros Hsome. exists m, post.
    split; [done|]. split; [done|].
    assert (is_Some (matchLiteralCI (lit "[bot]") post) →
            ∃ m' t, post = m' ++ t ∧ sameIgnoringCase m' (lit "[bot]")) as Hbot.
    { intros [u Hu]. destruct (matchLiteralCI _ post) as [m'|] eqn:Hm'; [|done].
      apply matchLiteralCI_Some in Hm' as (t & -> & Hm'). by exists m', t. }
    destruct post as [|c t].
    + right. apply Hbot. by apply fmap_is_Some in Hsome.
    + destruct (isWhiteSpace c) eqn:Hc; [left; by exists c, t|].
      right. apply Hbot. by apply fmap_is_Some in Hsome.
  - intros (m & post & -> & Hm & Hpost).
    assert (matchLiteralCI (lit "renovate") (m ++ post) = Some m) as ->
      by (apply matchLiteralCI_Some; by exists post).
    rewrite drop_app_length.
    assert (∀ m' t, post = m' ++ t → sameIgnoringCase m' (lit "[bot]") →
            is_Some ((λ _, ()) <$> matchLiteralCI (lit "[bot]") post)) as Hbot.
    { intros m' t -> Hm'. apply fmap_is_Some. exists m'.
      apply matchLiteralCI_Some. by exists t. }
    destruct Hpost as [(c & t & -> & Hc)|(m' & t & Hpost & Hm')].
    + by rewrite Hc.
    + destruct post as [|c t']; [by eapply Hbot|].
      destruct (isWhiteSpace c); [done|by eapply Hbot].
Qed.

(** X6: the test of src/src/main.ts for the bot, [/renovate(\s|\[bot])/i],
    holds of exactly the texts in which [renovate], in any mix of cases, is
    followed by a white space character or by [[bot]], in any mix of
    cases. *)
Theorem renovateTest_iff (prBody : str) :
  renovateTest prBody = true ↔
  ∃ pre m post,
    prBody = pre ++ m ++ post ∧ sameIgnoringCase m (lit "renovate")
    ∧ ((∃ c t, post = c :: t ∧ isWhiteSpace c = true)
       ∨ (∃ m' t, post = m' ++ t ∧ sameIgnoringCase m' (lit "[bot]"))).
Proof.
  unfold renovateTest. rewrite bool_decide_eq_true, searchFirst_is_Some.
  split.
  - intros (pre & rest & -> & (m & post & -> & H)%renovateAt_is_Some).
    by exists pre, m, post.
  - intros (pre & m & post & -> & H). exists pre, (m ++ post).
    split; [done|]. apply renovateAt_is_Some. by exists m, post.
Qed.

Lemma expect_Renovate_None (a : str) (c : ascii) (s : str) :
  isWord c = true →
  expect (lit " Renovate") (fun _ => Some tt) (c :: s) = None.
Proof.
  intros Hc. unfold expect, lit. cbn [list_ascii_of_string startsWith].
  case_bool_decide as Heq; [|done]. subst c. done.
Qed.

Lemma generatedAt_is_Some (s : str) :
  is_Some (generatedAt s) ↔
  ∃ w post,
    s = lit "This PR has been generated by [" ++ w ++ lit " Renovate" ++ post
    ∧ w ≠ [] ∧ Forall (fun c => isWord c = true) w.
Proof.
  unfold generatedAt, expect at 1. split.
  - destruct (startsWith _ s) eqn:Hs; [|by intros [? ?]].
    apply startsWith_iff in Hs as [rest ->]. rewrite drop_app_length.
    rewrite repeatGreedy_run by (intros; by apply expect_Renovate_None).
    destruct (_ && _) eqn:Hlen; [|by intros [? ?]].
    apply andb_true_iff in Hlen as [Hlo _]. apply Nat.leb_le in Hlo.
    unfold expect.
    destruct (startsWith _ (drop _ rest)) eqn:Ht; [|by intros [? ?]].
    apply startsWith_iff in Ht as [post Hpost]. intros _.
    destruct (runOf_split isWord rest) as [Hsplit Hword].
    exists (runOf isWord rest), post. rewrite <- Hpost, <- Hsplit.
    split; [done|]. split; [|done].
    intros Hnil. rewrite Hnil in Hlo. simpl in Hlo. lia.
  - intros (w & post & -> & Hne & Hw).
    rewrite startsWith_app, drop_app_length.
    rewrite repeatGreedy_run by (intros; by apply expect_Renovate_None).
    rewrite (runOf_app isWord w) by done.
    rewrite drop_app_length.
    assert ((1 <=? length w) && (length w <=? length (w ++ lit " Renovate" ++ post))
            = true) as ->.
    { apply andb_true_iff. rewrite !Nat.leb_le, length_app.
      destruct w; [done|]. simpl. lia. }
    unfold expect. by rewrite startsWith_app.
Qed.

(** X7: the test of the later driver for the bot,
    [/This PR has been generated by \[\w+ Renovate/], holds of exactly the
    texts that hold the sentence with a non-empty word between the bracket
    and [ Renovate]. *)
Theorem generatedTest_iff (prBody : str) :
  generatedTest prBody = true ↔
  ∃ pre w post,
    prBody = pre ++ lit "This PR has been generated by [" ++ w
                 ++ lit " Renovate" ++ post
    ∧ w ≠ [] ∧ Forall (fun c => isWord c = true) w.
Proof.
  unfold generatedTest. rewrite bool_decide_eq_true, searchFirst_is_Some.
  split.
  - intros (pre & rest & -> & (w & post & -> & H)%generatedAt_is_Some).
    by exists pre, w, post.
  - intros (pre & w & post & -> & H). eexists pre, _.
    split; [done|]. apply generatedAt_is_Some. by exists w, post.
Qed.

(* ===================================================================== *)
(** ** run: what it takes to reach git and the API                        *)
(* ===================================================================== *)

Lemma parseTable_has_header (b : str) (gitUpdates : list GitUpdate) :
  parseTable b = Returned (Some gitUpdates) → containsHeader b.
Proof.
  intros Hp. destruct (headerRegex b) as [t|] eqn:Hh.
  - by eapply headerRegex_contains.
  - apply headerRegex_None, parseTable_null_iff in Hh. congruence.
Qed.

Ltac runner_simpl :=
  cbn [world infos failures requests fst snd mret D_ret mbind D_bind] in *.

Section Run.

Variable readEvent : World → Outcome Event.
Variable octokitRequest : Octokit.Request → Runner → Outcome unit.
Variable render : GitUpdate → M str.
Variable messageOf stackOf : str → str.
Variable isError : str → bool.

Local Abbreviation run := (Main.run readEvent octokitRequest render messageOf isError).
Local Abbreviation runNext :=
  (MainNext.run readEvent octokitRequest render messageOf stackOf).

Lemma run_parsed (r : Runner) (ev : Event) (pr : PullRequest) (b : str)
    (gitUpdates : list GitUpdate) :
  readEvent r.(world) = Returned ev → ev.(pull_request) = Some pr →
  pr.(body) = Text b → renovateTest b = true →
  parseTable b = Returned (Some gitUpdates) →
  run r =
  match describeAll render gitUpdates [] (announced gitUpdates r) with
  | (Thrown e, r2) => caught isError messageOf e r2
  | (Returned description, r2) =>
      match ev.(repository) with
      | None => caught isError messageOf (cannotRead "owner") r2
      | Some repo =>
          match repo.(owner) with
          | None => caught isError messageOf (cannotRead "login") r2
          | Some own =>
              match octokitRequest (Octokit.mkRequest own.(login) repo.(name)
                                    pr.(number) description) r2 with
              | Returned _ =>
                  (Returned tt,
                   informed (lit "Comment created.")
                     (sent (Octokit.mkRequest own.(login) repo.(name)
                                              pr.(number) description) r2))
              | Thrown e =>
                  caught isError messageOf e
                    (sent (Octokit.mkRequest own.(login) repo.(name)
                                             pr.(number) description) r2)
              end
          end
      end
  end.
Proof.
  intros Hev Hpr Hb Ht Hp.
  unfold Main.run, tryCatch, loadEvent. unfold mbind, D_bind at 1.
  rewrite Hev, Hpr, Hb. cbn [tested parseTableOf settle]. rewrite Ht.
  cbn [negb]. unfold mbind, D_bind at 1. rewrite Hp.
  unfold settle, mbind, D_bind, info, reading, request, caught, announced, informed, sent.
  runner_simpl.
  destruct (describeAll render gitUpdates [] _) as [[d|e] r2];
    [|by destruct (isError e)].
  destruct (repository ev) as [repo|]; [|by destruct (isError _)].
  destruct (owner repo) as [own|]; [|by destruct (isError _)]. runner_simpl.
  destruct (octokitRequest _ r2) as [|e]; [done|by destruct (isError e)].
Qed.

Lemma runNext_parsed (r : Runner) (ev : Event) (pr : PullRequest)
    (repo : Repository) (own : Owner) (b : str) (gitUpdates : list GitUpdate) :
  readEvent r.(world) = Returned ev → ev.(pull_request) = Some pr →
  ev.(repository) = Some repo → repo.(owner) = Some own →
  pr.(body) = Text b → b ≠ [] → generatedTest b = true →
  parseTable b = Returned (Some gitUpdates) →
  runNext r =
  match describeAll render gitUpdates [] (announced gitUpdates r) with
  | (Thrown e, r2) => caughtNext messageOf stackOf e r2
  | (Returned description, r2) =>
      match description with
      | [] => (Returned tt, informed (lit "Nothing to comment.") r2)
      | _ :: _ =>
          let parameters :=
            Octokit.mkRequest own.(login) repo.(name) pr.(number) description in
          let r3 := informed (lit "Description: " ++ [LF] ++ description) r2 in
          match octokitRequest parameters r3 with
          | Returned _ =>
              (Returned tt, informed (lit "Comment created.") (sent parameters r3))
          | Thrown e => caughtNext messageOf stackOf e (sent parameters r3)
          end
      end
  end.
Proof.
  intros Hev Hpr Hrepo Hown Hb Hne Ht Hp.
  unfold MainNext.run, tryCatch, loadEvent, mbind, D_bind, reading.
  cbv beta. rewrite Hev. cbv beta iota zeta. rewrite Hpr, Hrepo.
  cbv beta iota zeta. rewrite Hown. cbv beta iota zeta. rewrite Hb.
  destruct b as [|c b]; [done|].
  cbn [falsy tested parseTableOf settle]. rewrite Ht.
  cbn [negb]. unfold settle. rewrite Hp.
  unfold info, request, caughtNext, announced, informed, sent.
  runner_simpl.
  destruct (describeAll render gitUpdates [] _) as [[d|e] r2]; [|done].
  destruct d as [|c' d]; [done|]. cbn [truthy negb]. runner_simpl.
  by destruct (octokitRequest _ _).
Qed.


(** X8: [run] of src/src/main.ts reaches git or the API only for an event
    that holds a pull request whose body is a text that passes the test for
    the bot and contains the header of the table: a run that leaves another
    world, or another list of requests, than it found had such an event. *)
Theorem run_acts_only_on_bot_table (r : Runner) :
  (run r).2.(world) ≠ r.(world) ∨ (run r).2.(requests) ≠ r.(requests) →
  ∃ ev pr b,
    readEvent r.(world) = Returned ev ∧ ev.(pull_request) = Some pr
    ∧ pr.(body) = Text b ∧ renovateTest b = true ∧ containsHeader b.
Proof.
  clear stackOf. destruct (run r) as [o r'] eqn:Hrun. simpl.
  unfold Main.run, tryCatch, loadEvent, mbind, D_bind in Hrun.
  destruct (readEvent (world r)) as [ev|e] eqn:Hev.
  2:{ unfold setFailed in Hrun.
      destruct (isError e); injection Hrun as <- <-; simpl; tauto. }
  destruct (pull_request ev) as [pr|] eqn:Hpr.
  2:{ injection Hrun as <- <-; simpl; tauto. }
  destruct (renovateTest (tested (body pr))) eqn:Ht; cbn [negb] in Hrun.
  2:{ injection Hrun as <- <-; simpl; tauto. }
  destruct (body pr) as [b| |] eqn:Hb; cbn [tested parseTableOf] in *.
  2,3: by vm_compute in Ht.
  unfold settle in Hrun.
  destruct (parseTable b) as [[us|]|e] eqn:Hp.
  - intros _. exists ev, pr, b. eauto 6 using parseTable_has_header.
  - injection Hrun as <- <-; simpl; tauto.
  - unfold setFailed in Hrun.
    destruct (isError e); injection Hrun as <- <-; simpl; tauto.
Qed.

(** X9: [run] of the later driver reaches git or the API only for an event
    that holds a pull request whose body is a text that passes that
    driver's test for the bot and contains the header of the table. *)
Theorem runNext_acts_only_on_bot_table (r : Runner) :
  (runNext r).2.(world) ≠ r.(world) ∨ (runNext r).2.(requests) ≠ r.(requests) →
  ∃ ev pr b,
    readEvent r.(world) = Returned ev ∧ ev.(pull_request) = Some pr
    ∧ pr.(body) = Text b ∧ generatedTest b = true ∧ containsHeader b.
Proof.
  clear isError. destruct (runNext r) as [o r'] eqn:Hrun. simpl.
  unfold MainNext.run, tryCatch, loadEvent, mbind, D_bind, reading in Hrun.
  destruct (readEvent (world r)) as [ev|e] eqn:Hev.
  2:{ injection Hrun as <- <-; simpl; tauto. }
  destruct (pull_request ev) as [pr|] eqn:Hpr.
  2:{ injection Hrun as <- <-; simpl; tauto. }
  destruct (repository ev) as [repo|].
  2:{ injection Hrun as <- <-; simpl; tauto. }
  destruct (owner repo) as [own|].
  2:{ injection Hrun as <- <-; simpl; tauto. }
  destruct (falsy (body pr)) eqn:Hf.
  1:{ injection Hrun as <- <-; simpl; tauto. }
  destruct (generatedTest (tested (body pr))) eqn:Ht; cbn [negb] in Hrun.
  2:{ injection Hrun as <- <-; simpl; tauto. }
  destruct (body pr) as [b| |] eqn:Hb; cbn [tested parseTableOf] in *; try done.
  unfold settle in Hrun.
  destruct (parseTable b) as [[us|]|e] eqn:Hp.
  - intros _. exists ev, pr, b. eauto 6 using parseTable_has_header.
  - injection Hrun as <- <-; simpl; tauto.
  - injection Hrun as <- <-; simpl; tauto.
Qed.

Lemma run_parse_thrown (r : Runner) (ev : Event) (pr : PullRequest)
    (b e : str) :
  readEvent r.(world) = Returned ev → ev.(pull_request) = Some pr →
  pr.(body) = Text b → renovateTest b = true → parseTable b = Thrown e →
  run r = caught isError messageOf e r.
Proof.
  intros Hev Hpr Hb Ht Hp.
  unfold Main.run, tryCatch, loadEvent, mbind, D_bind.
  cbv beta. rewrite Hev. cbv beta iota zeta. rewrite Hpr, Hb.
  cbn [tested parseTableOf]. rewrite Ht. cbn [negb]. unfold settle.
  rewrite Hp. unfold caught. by destruct (isError e).
Qed.

Lemma runNext_parse_thrown (r : Runner) (ev : Event) (pr : PullRequest)
    (repo : Repository) (own : Owner) (b e : str) :
  readEvent r.(world) = Returned ev → ev.(pull_request) = Some pr →
  ev.(repository) = Some repo → repo.(owner) = Some own →
  pr.(body) = Text b → generatedTest b = true → parseTable b = Thrown e →
  runNext r = caughtNext messageOf stackOf e r.
Proof.
  intros Hev Hpr Hrepo Hown Hb Ht Hp.
  unfold MainNext.run, tryCatch, loadEvent, mbind, D_bind, reading.
  cbv beta. rewrite Hev. cbv beta iota zeta. rewrite Hpr, Hrepo.
  cbv beta iota zeta. rewrite Hown. cbv beta iota zeta. rewrite Hb.
  destruct b as [|c b]; [done|].
  cbn [falsy tested parseTableOf]. rewrite Ht. cbn [negb]. unfold settle.
  by rewrite Hp.
Qed.

(** X10: a table with a data row of more cells than the header row stops
    [run] of src/src/main.ts: nothing is cloned and no comment is sent;
    the message of the TypeError is recorded as the failure when the
    thrown value counts as an [Error], and nothing else is recorded. *)
Theorem run_fails_on_wide_row (r : Runner) (ev : Event) (pr : PullRequest)
    (b : str) (tableHeader : list str) (tableData : list (list str)) :
  readEvent r.(world) = Returned ev → ev.(pull_request) = Some pr →
  pr.(body) = Text b → renovateTest b = true →
  parsedTable b = Some (tableHeader, tableData) →
  hasWideRow tableHeader tableData →
  run r =
  (Returned tt,
   if isError typeError
   then mkRunner r.(world) r.(infos) (messageOf typeError :: r.(failures))
                 r.(requests)
   else r).
Proof.
  intros Hev Hpr Hb Ht Hp Hwide.
  apply (run_parse_thrown r ev pr b typeError); try done.
  apply parseTable_throws_iff. split; [done|].
  exists tableHeader, tableData. split; [done|].
  by apply rowsFit_or_wide.
Qed.

(** X11: the same table stops [run] of the later driver: nothing is
    cloned, no comment is sent, and the failure recorded is the message of
    the TypeError, a line feed and its stack. *)
Theorem runNext_fails_on_wide_row (r : Runner) (ev : Event) (pr : PullRequest)
    (repo : Repository) (own : Owner) (b : str)
    (tableHeader : list str) (tableData : list (list str)) :
  readEvent r.(world) = Returned ev → ev.(pull_request) = Some pr →
  ev.(repository) = Some repo → repo.(owner) = Some own →
  pr.(body) = Text b → generatedTest b = true →
  parsedTable b = Some (tableHeader, tableData) →
  hasWideRow tableHeader tableData →
  runNext r =
  (Returned tt,
   mkRunner r.(world) r.(infos)
            ((messageOf typeError ++ [LF] ++ stackOf typeError) :: r.(failures))
            r.(requests)).
Proof.
  intros Hev Hpr Hrepo Hown Hb Ht Hp Hwide.
  apply (runNext_parse_thrown r ev pr repo own b typeError); try done.
  apply parseTable_throws_iff. split; [done|].
  exists tableHeader, tableData. split; [done|].
  by apply rowsFit_or_wide.
Qed.

(** X12: [run] of src/src/main.ts, once every record has been rendered,
    hands octokit one request: the login of the owner, the name of the
    repository and the number of the pull request as the event has them,
    and as body the pieces in the order of the records.  When octokit
    accepts it the run logs [Comment created.]; when octokit throws, the
    thrown value goes to the handler and that line is not logged. *)
Theorem run_posts (r : Runner) (ev : Event) (pr : PullRequest) (b : str)
    (gitUpdates : list GitUpdate) (pieces : list str) (w' : World)
    (repo : Repository) (own : Owner) :
  readEvent r.(world) = Returned ev → ev.(pull_request) = Some pr →
  pr.(body) = Text b → renovateTest b = true →
  parseTable b = Returned (Some gitUpdates) →
  rendersTo render gitUpdates r.(world) pieces w' →
  ev.(repository) = Some repo → repo.(owner) = Some own →
  let parameters :=
    Octokit.mkRequest own.(login) repo.(name) pr.(number) (concat pieces) in
  let r2 := inWorld w' (announced gitUpdates r) in
  run r =
  match octokitRequest parameters r2 with
  | Returned _ =>
      (Returned tt, informed (lit "Comment created.") (sent parameters r2))
  | Thrown e => caught isError messageOf e (sent parameters r2)
  end.
Proof.
  intros Hev Hpr Hb Ht Hp Hr Hrepo Hown parameters r2.
  rewrite (run_parsed r ev pr b gitUpdates) by done.
  rewrite (describeAll_rendered render gitUpdates [] (announced gitUpdates r)
             pieces w') by done.
  by rewrite Hrepo, Hown.
Qed.

(** X13: [run] of the later driver, once every record has been rendered,
    sends no request when the pieces put together are the empty text, and
    logs [Nothing to comment.]; otherwise it logs the description and hands
    octokit one request with the login, the name, the number and the
    description, logging [Comment created.] when octokit accepts it and
    handing the thrown value to the handler when it does not. *)
Theorem runNext_posts (r : Runner) (ev : Event) (pr : PullRequest) (b : str)
    (gitUpdates : list GitUpdate) (pieces : list str) (w' : World)
    (repo : Repository) (own : Owner) :
  readEvent r.(world) = Returned ev → ev.(pull_request) = Some pr →
  ev.(repository) = Some repo → repo.(owner) = Some own →
  pr.(body) = Text b → generatedTest b = true →
  parseTable b = Returned (Some gitUpdates) →
  rendersTo render gitUpdates r.(world) pieces w' →
  let description := concat pieces in
  let parameters :=
    Octokit.mkRequest own.(login) repo.(name) pr.(number) description in
  let r2 := inWorld w' (announced gitUpdates r) in
  let r3 := informed (lit "Description: " ++ [LF] ++ description) r2 in
  runNext r =
  match description with
  | [] => (Returned tt, informed (lit "Nothing to comment.") r2)
  | _ :: _ =>
      match octokitRequest parameters r3 with
      | Returned _ =>
          (Returned tt, informed (lit "Comment created.") (sent parameters r3))
      | Thrown e => caughtNext messageOf stackOf e (sent parameters r3)
      end
  end.
Proof.
  intros Hev Hpr Hrepo Hown Hb Ht Hp Hr description parameters r2 r3.
  assert (b ≠ []) as Hne by (intros ->; done).
  rewrite (runNext_parsed r ev pr repo own b gitUpdates) by done.
  rewrite (describeAll_rendered render gitUpdates [] (announced gitUpdates r)
             pieces w') by done.
  done.
Qed.

(** X14: a table in which no row qualifies, and no row is wider than the
    header row, separates the two drivers: [run] of src/src/main.ts still
    hands octokit a request, with the empty text as body, while [run] of
    the later driver sends nothing; neither touches the world. *)
Theorem empty_table_comment (r : Runner) (ev : Event) (pr : PullRequest)
    (b : str) (repo : Repository) (own : Owner)
    (tableHeader : list str) (tableData : list (list str)) :
  readEvent r.(world) = Returned ev → ev.(pull_request) = Some pr →
  ev.(repository) = Some repo → repo.(owner) = Some own →
  pr.(body) = Text b → renovateTest b = true → generatedTest b = true →
  parsedTable b = Some (tableHeader, tableData) →
  rowsFit tableHeader tableData →
  Forall (fun row => ∀ u, ¬ qualifies tableHeader row u) tableData →
  (run r).2.(requests) =
    Octokit.mkRequest own.(login) repo.(name) pr.(number) [] :: r.(requests)
  ∧ (run r).2.(world) = r.(world)
  ∧ (runNext r).2.(requests) = r.(requests)
  ∧ (runNext r).2.(world) = r.(world)
  ∧ (runNext r).2.(infos) =
      lit "Nothing to comment." :: (announced [] r).(infos).
Proof.
  intros Hev Hpr Hrepo Hown Hb Ht Ht' Hp Hfit Hnone.
  pose proof (parseTable_empty b tableHeader tableData Hp Hfit Hnone) as Hparse.
  assert (rendersTo render [] r.(world) [] r.(world)) as Hr by constructor.
  pose proof (run_parsed r ev pr b [] Hev Hpr Hb Ht Hparse) as Hrun.
  assert (b ≠ []) as Hne by (intros ->; done).
  pose proof (runNext_parsed r ev pr repo own b [] Hev Hpr Hrepo Hown Hb Hne
                Ht' Hparse) as HrunNext.
  cbn [describeAll mret D_ret] in Hrun, HrunNext.
  rewrite Hrepo, Hown in Hrun. rewrite Hrun, HrunNext.
  destruct (octokitRequest _ _) as [|e]; [done|].
  unfold caught. by destruct (isError e).
Qed.

(** X15: a rendering that throws stops [run] of src/src/main.ts where it
    is: the records after it are not rendered, no request is sent, and the
    thrown value goes to the handler, which records its message when it
    counts as an [Error]. *)
Theorem run_stops_at_thrown_render (r : Runner) (ev : Event) (pr : PullRequest)
    (b : str) (before rest : list GitUpdate) (u : GitUpdate)
    (pieces : list str) (w1 w2 : World) (e : str) :
  readEvent r.(world) = Returned ev → ev.(pull_request) = Some pr →
  pr.(body) = Text b → renovateTest b = true →
  parseTable b = Returned (Some (before ++ u :: rest)) →
  rendersTo render before r.(world) pieces w1 →
  render u w1 = (Thrown e, w2) →
  run r =
  caught isError messageOf e (inWorld w2 (announced (before ++ u :: rest) r)).
Proof.
  intros Hev Hpr Hb Ht Hp Hr Hu.
  rewrite (run_parsed r ev pr b (before ++ u :: rest)) by done.
  by rewrite (describeAll_stopped render before rest u []
                (announced (before ++ u :: rest) r) pieces w1 w2 e).
Qed.

(** X16: a rendering that throws stops [run] of the later driver where it
    is: the records after it are not rendered, no request is sent, and the
    failure recorded is the message of the thrown value, a line feed and
    its stack. *)
Theorem runNext_stops_at_thrown_render (r : Runner) (ev : Event)
    (pr : PullRequest) (repo : Repository) (own : Owner)
    (b : str) (before rest : list GitUpdate) (u : GitUpdate)
    (pieces : list str) (w1 w2 : World) (e : str) :
  readEvent r.(world) = Returned ev → ev.(pull_request) = Some pr →
  ev.(repository) = Some repo → repo.(owner) = Some own →
  pr.(body) = Text b → generatedTest b = true →
  parseTable b = Returned (Some (before ++ u :: rest)) →
  rendersTo render before r.(world) pieces w1 →
  render u w1 = (Thrown e, w2) →
  runNext r =
  (Returned tt,
   mkRunner w2 (announced (before ++ u :: rest) r).(infos)
            ((messageOf e ++ [LF] ++ stackOf e) :: r.(failures)) r.(requests)).
Proof.
  intros Hev Hpr Hrepo Hown Hb Ht Hp Hr Hu.
  assert (b ≠ []) as Hne by (intros ->; done).
  rewrite (runNext_parsed r ev pr repo own b (before ++ u :: rest)) by done.
  by rewrite (describeAll_stopped render before rest u []
                (announced (before ++ u :: rest) r) pieces w1 w2 e).
Qed.

(** X17: an event without the repository, or without its owner, fails the
    two drivers at different points.  [run] of src/src/main.ts reads them
    only when it builds the request: every record has been rendered by
    then, and the TypeError of the reading goes to the handler.  [run] of
    the later driver reads them before it looks at the body: the world is
    as it was, and the failure is recorded whatever the body is. *)
Theorem missing_repository (r : Runner) (ev : Event) (pr : PullRequest)
    (b : str) (gitUpdates : list GitUpdate) (pieces : list str) (w' : World) :
  readEvent r.(world) = Returned ev → ev.(pull_request) = Some pr →
  (ev.(repository) = None
   ∨ ∃ repo, ev.(repository) = Some repo ∧ repo.(owner) = None) →
  let e := match ev.(repository) with
           | Some _ => cannotRead "login"
           | None => cannotRead "owner"
           end in
  (pr.(body) = Text b → renovateTest b = true →
   parseTable b = Returned (Some gitUpdates) →
   rendersTo render gitUpdates r.(world) pieces w' →
   run r = caught isError messageOf e (inWorld w' (announced gitUpdates r)))
  ∧ runNext r = caughtNext messageOf stackOf e r.
Proof.
  intros Hev Hpr Hrepo e. split.
  - intros Hb Ht Hp Hr.
    rewrite (run_parsed r ev pr b gitUpdates) by done.
    rewrite (describeAll_rendered render gitUpdates [] (announced gitUpdates r)
               pieces w') by done.
    subst e. destruct Hrepo as [->|(repo & -> & ->)]; done.
  - subst e.
    unfold MainNext.run, tryCatch, loadEvent, mbind, D_bind, reading.
    cbv beta. rewrite Hev. cbv beta iota zeta. rewrite Hpr.
    destruct Hrepo as [->|(repo & -> & ->)]; done.
Qed.

(** X18: a pull request whose body is [null], is not there or is the empty
    text is met differently by the two drivers.  [run] of src/src/main.ts
    hands the value to the test for the bot, which fails, and logs that
    the pull request is not the bot's.  [run] of the later driver records
    the failure [No PR body found.].  Neither goes further. *)
Theorem body_not_there (r : Runner) (ev : Event) (pr : PullRequest)
    (repo : Repository) (own : Owner) :
  readEvent r.(world) = Returned ev → ev.(pull_request) = Some pr →
  falsy pr.(body) = true →
  run r =
    (Returned tt, informed (lit "This PR is not created by renovate bot.") r)
  ∧ (ev.(repository) = Some repo → repo.(owner) = Some own →
     runNext r =
     (Returned tt,
      mkRunner r.(world) r.(infos)
               (lit "No PR body found." :: r.(failures)) r.(requests))).
Proof.
  intros Hev Hpr Hf. split.
  - unfold Main.run, tryCatch, loadEvent, mbind, D_bind.
    cbv beta. rewrite Hev. cbv beta iota zeta. rewrite Hpr.
    assert (renovateTest (tested (body pr)) = false) as ->; [|done].
    destruct (body pr) as [[|c b]| |]; try done; by vm_compute.
  - intros Hrepo Hown.
    unfold MainNext.run, tryCatch, loadEvent, mbind, D_bind, reading.
    cbv beta. rewrite Hev. cbv beta iota zeta. rewrite Hpr, Hrepo.
    cbv beta iota zeta. rewrite Hown. cbv beta iota zeta. by rewrite Hf.
Qed.

End Run.

Lemma run_acts_only_on_bot_table_witness :
  ∃ ev pr b,
    reads event0 world0 = Returned ev ∧ ev.(pull_request) = Some pr
    ∧ pr.(body) = Text b ∧ renovateTest b = true ∧ containsHeader b.
Proof.
  apply (run_acts_only_on_bot_table (reads event0) octokit0 render0 messageOf0
           isError0 runner0).
  right. vm_compute. discriminate.
Defined.

Lemma runNext_acts_only_on_bot_table_witness :
  ∃ ev pr b,
    reads event0 world0 = Returned ev ∧ ev.(pull_request) = Some pr
    ∧ pr.(body) = Text b ∧ generatedTest b = true ∧ containsHeader b.
Proof.
  apply (runNext_acts_only_on_bot_table (reads event0) octokit0 render0
           messageOf0 stackOf0 runner0).
  right. vm_compute. discriminate.
Defined.

Lemma run_fails_on_wide_row_witness :
  Main.run (reads (eventWith (Text wideBotBody))) octokit0 render0 messageOf0
           isError0 runner0
  = (Returned tt, mkRunner world0 [] [typeError] []).
Proof.
  apply (run_fails_on_wide_row (reads (eventWith (Text wideBotBody))) octokit0
           render0 messageOf0 isError0 runner0
           (eventWith (Text wideBotBody)) (pullRequestWith (Text wideBotBody))
           wideBotBody
           [[]; lit "Package"; lit "Update"; lit "Change"; []]
           [[[]; lit "a"; lit "pin"; lit "c"; lit "d"; lit "e"; []]]).
  - reflexivity.
  - reflexivity.
  - reflexivity.
  - vm_compute. reflexivity.
  - vm_compute. reflexivity.
  - apply Exists_cons_hd. simpl. lia.
Defined.

Lemma runNext_fails_on_wide_row_witness :
  MainNext.run (reads (eventWith (Text wideBotBody))) octokit0 render0
               messageOf0 stackOf0 runner0
  = (Returned tt,
     mkRunner world0 [] [typeError ++ [LF] ++ typeError] []).
Proof.
  apply (runNext_fails_on_wide_row (reads (eventWith (Text wideBotBody)))
           octokit0 render0 messageOf0 stackOf0 runner0
           (eventWith (Text wideBotBody)) (pullRequestWith (Text wideBotBody))
           repository0 owner0 wideBotBody
           [[]; lit "Package"; lit "Update"; lit "Change"; []]
           [[[]; lit "a"; lit "pin"; lit "c"; lit "d"; lit "e"; []]]).
  - reflexivity.
  - reflexivity.
  - reflexivity.
  - reflexivity.
  - reflexivity.
  - vm_compute. reflexivity.
  - vm_compute. reflexivity.
  - apply Exists_cons_hd. simpl. lia.
Defined.

Lemma run_posts_witness :
  Main.run (reads event0) octokit0 render0 messageOf0 isError0 runner0
  = (Returned tt,
     mkRunner (render0 digestUpdate world0).2
              [ lit "Comment created."; lit "https://github.com/acme/lib";
                lit "Found updates for the following packages:" ]
              []
              [ Octokit.mkRequest (Some (lit "acme")) (Some (lit "app")) (Some 7)
                                  piece0 ]).
Proof.
  rewrite (run_posts (reads event0) octokit0 render0 messageOf0 isError0 runner0
             event0 (pullRequestWith (Text botBody)) botBody [digestUpdate]
             [piece0] (render0 digestUpdate world0).2 repository0 owner0).
  - vm_compute. reflexivity.
  - reflexivity.
  - reflexivity.
  - reflexivity.
  - vm_compute. reflexivity.
  - vm_compute. reflexivity.
  - apply (rendersTo_cons render0 digestUpdate [] world0 piece0
             (render0 digestUpdate world0).2 [] (render0 digestUpdate world0).2).
    + vm_compute. reflexivity.
    + apply rendersTo_nil.
  - reflexivity.
  - reflexivity.
Defined.

Lemma runNext_posts_witness :
  MainNext.run (reads event0) octokit0 render0 messageOf0 stackOf0 runner0
  = (Returned tt,
     mkRunner (render0 digestUpdate world0).2
              [ lit "Comment created."; lit "Description: " ++ [LF] ++ piece0;
                lit "https://github.com/acme/lib";
                lit "Found updates for the following packages:" ]
              []
              [ Octokit.mkRequest (Some (lit "acme")) (Some (lit "app")) (Some 7)
                                  piece0 ]).
Proof.
  rewrite (runNext_posts (reads event0) octokit0 render0 messageOf0 stackOf0
             runner0 event0 (pullRequestWith (Text botBody)) botBody
             [digestUpdate] [piece0] (render0 digestUpdate world0).2
             repository0 owner0).
  - vm_compute. reflexivity.
  - reflexivity.
  - reflexivity.
  - reflexivity.
  - reflexivity.
  - reflexivity.
  - vm_compute. reflexivity.
  - vm_compute. reflexivity.
  - apply (rendersTo_cons render0 digestUpdate [] world0 piece0
             (render0 digestUpdate world0).2 [] (render0 digestUpdate world0).2).
    + vm_compute. reflexivity.
    + apply rendersTo_nil.
Defined.

Lemma empty_table_comment_witness :
  (Main.run (reads (eventWith (Text pinBotBody))) octokit0 render0 messageOf0
            isError0 runner0).2.(requests)
  = [ Octokit.mkRequest (Some (lit "acme")) (Some (lit "app")) (Some 7) [] ]
  ∧ (MainNext.run (reads (eventWith (Text pinBotBody))) octokit0 render0
                  messageOf0 stackOf0 runner0).2.(requests) = [].
Proof.
  destruct (empty_table_comment (reads (eventWith (Text pinBotBody))) octokit0
              render0 messageOf0 stackOf0 isError0 runner0
              (eventWith (Text pinBotBody)) (pullRequestWith (Text pinBotBody))
              pinBotBody repository0 owner0
              [[]; lit "Package"; lit "Update"; lit "Change"; []]
              [[[]; lit "foo"; lit "pin"; lit "`1.0` -> `1.1`"; []]])
    as (H1 & _ & H2 & _).
  - reflexivity.
  - reflexivity.
  - reflexivity.
  - reflexivity.
  - reflexivity.
  - vm_compute. reflexivity.
  - vm_compute. reflexivity.
  - vm_compute. reflexivity.
  - apply Forall_cons_2; [simpl; lia|apply Forall_nil_2].
  - apply Forall_cons_2; [|apply Forall_nil_2].
    intros u [Hu _]. vm_compute in Hu. discriminate.
  - split; [exact H1|exact H2].
Defined.

Lemma run_stops_at_thrown_render_witness :
  Main.run (reads event0) octokit0 renderUnknown messageOf0 isError0 runner0
  = (Returned tt,
     mkRunner (renderUnknown digestUpdate world0).2
              [ lit "https://github.com/acme/lib";
                lit "Found updates for the following packages:" ]
              [exit128] []).
Proof.
  rewrite (run_stops_at_thrown_render (reads event0) octokit0 renderUnknown
             messageOf0 isError0 runner0 event0 (pullRequestWith (Text botBody))
             botBody [] [] digestUpdate [] world0
             (renderUnknown digestUpdate world0).2 exit128).
  - reflexivity.
  - reflexivity.
  - reflexivity.
  - reflexivity.
  - vm_compute. reflexivity.
  - vm_compute. reflexivity.
  - apply rendersTo_nil.
  - vm_compute. reflexivity.
Defined.

Lemma runNext_stops_at_thrown_render_witness :
  MainNext.run (reads event0) octokit0 renderUnknown messageOf0 stackOf0 runner0
  = (Returned tt,
     mkRunner (renderUnknown digestUpdate world0).2
              [ lit "https://github.com/acme/lib";
                lit "Found updates for the following packages:" ]
              [exit128 ++ [LF] ++ exit128] []).
Proof.
  rewrite (runNext_stops_at_thrown_render (reads event0) octokit0 renderUnknown
             messageOf0 stackOf0 runner0 event0 (pullRequestWith (Text botBody))
             repository0 owner0 botBody [] [] digestUpdate [] world0
             (renderUnknown digestUpdate world0).2 exit128).
  - reflexivity.
  - reflexivity.
  - reflexivity.
  - reflexivity.
  - reflexivity.
  - reflexivity.
  - vm_compute. reflexivity.
  - vm_compute. reflexivity.
  - apply rendersTo_nil.
  - vm_compute. reflexivity.
Defined.

Lemma missing_repository_witness :
  Main.run (reads eventNoRepository) octokit0 render0 messageOf0 isError0 runner0
  = (Returned tt,
     mkRunner (render0 digestUpdate world0).2
              [ lit "https://github.com/acme/lib";
                lit "Found updates for the following packages:" ]
              [cannotRead "owner"] [])
  ∧ MainNext.run (reads eventNoRepository) octokit0 render0 messageOf0 stackOf0
                 runner0
    = (Returned tt,
       mkRunner world0 [] [cannotRead "owner" ++ [LF] ++ cannotRead "owner"] []).
Proof.
  destruct (missing_repository (reads eventNoRepository) octokit0 render0
              messageOf0 stackOf0 isError0 runner0 eventNoRepository
              (pullRequestWith (Text botBody)) botBody [digestUpdate] [piece0]
              (render0 digestUpdate world0).2)
    as [H1 H2].
  - reflexivity.
  - reflexivity.
  - left. reflexivity.
  - split; [|exact H2]. rewrite H1.
    + reflexivity.
    + reflexivity.
    + vm_compute. reflexivity.
    + vm_compute. reflexivity.
    + apply (rendersTo_cons render0 digestUpdate [] world0 piece0
               (render0 digestUpdate world0).2 []
               (render0 digestUpdate world0).2).
      * vm_compute. reflexivity.
      * apply rendersTo_nil.
Defined.

Lemma body_not_there_witness :
  Main.run (reads (eventWith Null)) octokit0 render0 messageOf0 isError0 runner0
  = (Returned tt,
     mkRunner world0 [lit "This PR is not created by renovate bot."] [] [])
  ∧ MainNext.run (reads (eventWith Null)) octokit0 render0 messageOf0 stackOf0
                 runner0
    = (Returned tt, mkRunner world0 [] [lit "No PR body found."] []).
Proof.
  destruct (body_not_there (reads (eventWith Null)) octokit0 render0 messageOf0
              stackOf0 isError0 runner0 (eventWith Null) (pullRequestWith Null)
              repository0 owner0)
    as [H1 H2].
  - reflexivity.
  - reflexivity.
  - reflexivity.
  - split; [exact H1|]. apply H2; reflexivity.
Defined.

(* ===================================================================== *)
(** ** The renderer: how it talks to git, and what it warns of            *)
(* ===================================================================== *)

Lemma Run_orderly (d : Dialect) (repoUrl oldHash newHash : str)
    (calls : list (Invocation * ExecResult)) (o : Outcome str) :
  Run d repoUrl oldHash newHash calls o →
  0 < length calls ≤ 6
  ∧ orderly calls
  ∧ (∃ r, calls !! 0 = Some (d.(cloneCall), r))
  ∧ ∀ inv e, last calls = Some (inv, ExecFailed e) →
             o = Thrown e ∨ ∃ pre, o = Returned (pre ++ e).
Proof.
  inversion 1; subst; (split; [simpl; lia|]);
    (split;
     [intros i x Hx Hlt; simpl in Hlt;
      do 6 (try (destruct i as [|i]; [injection Hx as <-; by eexists|]));
      simpl in Hlt; lia|]);
    (split; [by eexists|]);
    intros inv e' [= <- <-];
    first [by left | right; eexists; by rewrite ?app_assoc].
Qed.

Lemma LibraryRun_orderly (logAll : str → list SimpleGit.LogEntry)
    (tempDir repoUrl oldHash newHash : str)
    (calls : list (Invocation * ExecResult)) (o : Outcome str) :
  LibraryRun logAll tempDir repoUrl oldHash newHash calls o →
  0 < length calls ≤ 6
  ∧ orderly calls
  ∧ ∀ inv e, last calls = Some (inv, ExecFailed e) →
             o = Thrown e ∨ ∃ pre, o = Returned (pre ++ e).
Proof.
  inversion 1; subst; (split; [simpl; lia|]);
    (split;
     [intros i x Hx Hlt; simpl in Hlt;
      do 6 (try (destruct i as [|i]; [injection Hx as <-; by eexists|]));
      simpl in Hlt; lia|]);
    intros inv e' [= <- <-];
    first [by left | right; eexists; by rewrite ?app_assoc].
Qed.

(** X19: either variant of the renderer makes at most six invocations of
    git in a call, and none after one that failed; the text of the error
    of a failed invocation is what the call throws, or ends the text the
    call returns.  When the temporary directory cannot be made the call
    makes no invocation and throws what [mkdtempSync] threw; when it can
    be made the call makes at least one. *)
Theorem render_orderly (git : Invocation → World → ExecResult * gset str)
    (logAll : str → list SimpleGit.LogEntry) (stackOf : str → str)
    (u : GitUpdate) (w : World) :
  (let r := ExecGit.getGitHistoryDescription git u w in
   ∃ calls,
     r.2.(journal) = rev calls ++ w.(journal)
     ∧ length calls ≤ 6 ∧ orderly calls
     ∧ (∀ inv e, last calls = Some (inv, ExecFailed e) →
                 r.1 = Thrown e ∨ ∃ pre, r.1 = Returned (pre ++ e))
     ∧ match mkdtempSync (pathJoin w.(osTmpdir) (lit "git-history-")) w with
       | (Thrown e, _) => calls = [] ∧ r.1 = Thrown e
       | (Returned _, _) => calls ≠ []
       end)
  ∧ (let r := SimpleGit.getGitHistoryDescription git logAll stackOf u w in
     ∃ calls,
       r.2.(journal) = rev calls ++ w.(journal)
       ∧ length calls ≤ 6 ∧ orderly calls
       ∧ (∀ inv e, last calls = Some (inv, ExecFailed e) →
                   r.1 = Thrown e ∨ ∃ pre, r.1 = Returned (pre ++ e))
       ∧ match mkdtempSync (pathJoin w.(osTmpdir) (lit "git-history-")) w with
         | (Thrown e, _) => calls = [] ∧ r.1 = Thrown e
         | (Returned _, _) => calls ≠ []
         end).
Proof.
  split; cbv zeta.
  - pose proof (ExecGit_run git u w) as H. cbv zeta in H.
    destruct (mkdtempSync _ w) as [[tempDir|e] w1] eqn:Hmk.
    + destruct H as (calls & o & w' & -> & Hj & Hrun & _).
      apply Run_orderly in Hrun as (Hlen & Hord & _ & Hlast).
      exists calls. simpl. repeat split; try done; try lia.
      intros ->. simpl in Hlen. lia.
    + rewrite H. apply mkdtempSync_Thrown in Hmk as (_ & Hj & _).
      exists []. simpl. repeat split; try done; try lia.
  - pose proof (SimpleGit_run git logAll stackOf u w) as H. cbv zeta in H.
    destruct (mkdtempSync _ w) as [[tempDir|e] w1] eqn:Hmk.
    + destruct H as (calls & o & w' & -> & Hj & Hrun & _).
      apply LibraryRun_orderly in Hrun as (Hlen & Hord & Hlast).
      exists calls. simpl. repeat split; try done; try lia.
      intros ->. simpl in Hlen. lia.
    + rewrite H. apply mkdtempSync_Thrown in Hmk as (_ & Hj & _).
      exists []. simpl. repeat split; try done; try lia.
Qed.

Lemma ExecGit_compose_warnings (url oldSha newSha oldShortSha newShortSha
    oldLongSha newLongSha : str) (log : list str) (w : World) :
  ∃ text,
    ExecGit.compose url oldSha newSha oldShortSha newShortSha
                    oldLongSha newLongSha log w =
    (Returned text,
     mkWorld w.(processEnv) w.(osTmpdir) w.(entropy) w.(dirs) w.(journal)
             (hostWarnings url ++ w.(warnings))).
Proof.
  unfold ExecGit.compose, hostWarnings, hostOf.
  unfold mbind, mret, M_bind, M_ret, warning.
  destruct (includes url (lit "github.com")) eqn:Hg;
    [|destruct (includes url (lit "googlesource.com")) eqn:Hs];
    cbv beta iota zeta;
    cbn [processEnv osTmpdir entropy dirs journal warnings app];
    eexists; try reflexivity; by destruct w.
Qed.

Lemma ExecGit_guarded_warnings
    (git : Invocation → World → ExecResult * gset str)
    (url oldSha newSha tempDir : str) (w : World) :
  let r := ExecGit.guarded git url oldSha newSha tempDir w in
  match r.1 with
  | Thrown _ => r.2.(warnings) = w.(warnings)
  | Returned text =>
      match head r.2.(journal) with
      | Some (_, ExecFailed _) => r.2.(warnings) = text :: w.(warnings)
      | _ => r.2.(warnings) = hostWarnings url ++ w.(warnings)
      end
  end.
Proof.
  unfold ExecGit.guarded, ExecGit.execGit, ExecGit.execGitWithStdout,
    ExecGit.exec, ExecGit.sanitizeEnvs, ExecGit.logArgs, attempt, warning.
  unfold mbind, mret, M_bind, M_ret.
  cbv beta iota zeta. cbn [processEnv osTmpdir entropy dirs journal warnings].
  run_git git; [|reflexivity].
  run_git git; [|reflexivity].
  run_git git; [|reflexivity].
  run_git git; [|reflexivity].
  run_git git; [|reflexivity].
  run_git git; [|reflexivity].
  match goal with
  | |- context [ExecGit.compose ?a ?b ?c ?d ?e ?f ?g ?h ?w0] =>
      destruct (ExecGit_compose_warnings a b c d e f g h w0) as [text ->]
  end.
  reflexivity.
Qed.

Lemma mkdtempSync_warnings (prefix : str) (w : World) :
  (mkdtempSync prefix w).2.(warnings) = w.(warnings).
Proof.
  unfold mkdtempSync. destruct (entropy w); [done|]. by case_decide.
Qed.

(** X20: what a call of the exec variant reports with [core.warning]: the
    text it returns, when the invocation it made last failed; the notice
    [Unknown git url: ...] with the normalized URL, when the log was read
    and the URL names neither host; nothing else, and nothing at all when
    the call throws. *)
Theorem exec_render_warnings
    (git : Invocation → World → ExecResult * gset str)
    (u : GitUpdate) (w : World) :
  let r := ExecGit.getGitHistoryDescription git u w in
  match r.1 with
  | Thrown _ => r.2.(warnings) = w.(warnings)
  | Returned text =>
      match head r.2.(journal) with
      | Some (_, ExecFailed _) => r.2.(warnings) = text :: w.(warnings)
      | _ => r.2.(warnings) = hostWarnings (normalizeUrl u.(url)) ++ w.(warnings)
      end
  end.
Proof.
  cbv zeta. unfold ExecGit.getGitHistoryDescription, tryFinally, tmpdir.
  unfold mbind, M_bind.
  pose proof (mkdtempSync_warnings (pathJoin (osTmpdir w) (lit "git-history-")) w)
    as Hw.
  destruct (mkdtempSync _ w) as [[tempDir|e] w1]; [|done].
  pose proof (ExecGit_guarded_warnings git (normalizeUrl u.(url)) u.(oldSha)
                u.(newSha) tempDir w1) as H.
  cbv zeta in H.
  destruct (ExecGit.guarded _ _ _ _ _ w1) as [o w2].
  simpl in *. by rewrite <- Hw.
Qed.

Lemma SimpleGit_describeIn_warnings
    (git : Invocation → World → ExecResult * gset str)
    (logAll : str → list SimpleGit.LogEntry) (stackOf : str → str)
    (url oldSha newSha tempDir : str) (w : World) :
  let r := SimpleGit.describeIn git logAll stackOf url oldSha newSha tempDir w in
  match r.1 with
  | Thrown _ => r.2.(warnings) = w.(warnings)
  | Returned text =>
      match head r.2.(journal) with
      | Some (inv, ExecFailed e) =>
          r.2.(warnings) =
          if argIs inv 0 "log" then stackOf e :: text :: w.(warnings)
          else text :: w.(warnings)
      | _ => r.2.(warnings) = w.(warnings)
      end
  end.
Proof.
  unfold SimpleGit.describeIn, SimpleGit.clone, SimpleGit.revparse,
    SimpleGit.log, SimpleGit.call, SimpleGit.outcomeOf, attempt, warning.
  unfold mbind, mret, M_bind, M_ret.
  cbv beta iota zeta. cbn [processEnv osTmpdir entropy dirs journal warnings].
  run_git git; [|reflexivity].
  run_git git; [|reflexivity].
  run_git git; [|reflexivity].
  run_git git; [|reflexivity].
  run_git git; [|reflexivity].
  run_git git; [|reflexivity].
  rewrite gatherEntries_outcome.
  match goal with
  | |- context [logAll ?out] => destruct (logAll out)
  end; reflexivity.
Qed.

(** X21: what a call of the simple-git variant reports with
    [core.warning]: the text it returns, when the invocation it made last
    failed, and after it the stack of the error when that invocation was
    the reading of the log; nothing when the log was read, whatever the
    host, and nothing when the call throws. *)
Theorem simple_render_warnings
    (git : Invocation → World → ExecResult * gset str)
    (logAll : str → list SimpleGit.LogEntry) (stackOf : str → str)
    (u : GitUpdate) (w : World) :
  let r := SimpleGit.getGitHistoryDescription git logAll stackOf u w in
  match r.1 with
  | Thrown _ => r.2.(warnings) = w.(warnings)
  | Returned text =>
      match head r.2.(journal) with
      | Some (inv, ExecFailed e) =>
          r.2.(warnings) =
          if argIs inv 0 "log" then stackOf e :: text :: w.(warnings)
          else text :: w.(warnings)
      | _ => r.2.(warnings) = w.(warnings)
      end
  end.
Proof.
  cbv zeta. unfold SimpleGit.getGitHistoryDescription, tmpdir.
  unfold mbind, M_bind.
  pose proof (mkdtempSync_warnings (pathJoin (osTmpdir w) (lit "git-history-")) w)
    as Hw.
  destruct (mkdtempSync _ w) as [[tempDir|e] w1]; [|done].
  pose proof (SimpleGit_describeIn_warnings git logAll stackOf
                (normalizeUrl u.(url)) u.(oldSha) u.(newSha) tempDir w1) as H.
  cbv zeta in H. simpl in Hw. by rewrite <- Hw.
Qed.

(** X22: a call of the exec variant, from the making of the temporary
    directory to its removal.  When the directory cannot be made the call
    throws what [mkdtempSync] throws.  Otherwise it clones, asks for the
    short form of the old hash and of the new, for the long form of the
    old and of the new, and reads the log, each in the environment with
    the locale forced, and stops at the first invocation that fails: a
    failed clone, long form of the old hash or log makes the call return
    the matching message, a failure of one of the three others is thrown.
    The environment of the process is as it was, and neither the
    directory nor a path below it exists afterwards. *)
Theorem exec_render_protocol
    (git : Invocation → World → ExecResult * gset str)
    (u : GitUpdate) (w : World) :
  let repoUrl := normalizeUrl u.(url) in
  match mkdtempSync (pathJoin w.(osTmpdir) (lit "git-history-")) w with
  | (Thrown e, w1) => ExecGit.getGitHistoryDescription git u w = (Thrown e, w1)
  | (Returned tempDir, _) =>
      ∃ calls o w',
        ExecGit.getGitHistoryDescription git u w = (o, w')
        ∧ w'.(journal) = rev calls ++ w.(journal)
        ∧ Run (execDialect w.(processEnv) repoUrl u.(oldSha) u.(newSha) tempDir)
              repoUrl u.(oldSha) u.(newSha) calls o
        ∧ w'.(processEnv) = w.(processEnv)
        ∧ ∀ p, under tempDir p = true → p ∉ w'.(dirs)
  end.
Proof. apply ExecGit_run. Qed.

(** X23: a call of the simple-git variant.  When the temporary directory
    cannot be made the call throws what [mkdtempSync] throws.  Otherwise
    it makes the same six calls through the library, bound to the
    directory and with no environment of their own, and stops at the
    first that fails, with the same messages and the same three failures
    thrown.  When all six worked, a log without entries makes the call
    return the range line and a blank line, and a log with an entry makes
    it throw the TypeError of calling [split] on an object.  The
    environment of the process is as it was. *)
Theorem simple_render_protocol
    (git : Invocation → World → ExecResult * gset str)
    (logAll : str → list SimpleGit.LogEntry) (stackOf : str → str)
    (u : GitUpdate) (w : World) :
  let repoUrl := normalizeUrl u.(url) in
  match mkdtempSync (pathJoin w.(osTmpdir) (lit "git-history-")) w with
  | (Thrown e, w1) =>
      SimpleGit.getGitHistoryDescription git logAll stackOf u w = (Thrown e, w1)
  | (Returned tempDir, _) =>
      ∃ calls o w',
        SimpleGit.getGitHistoryDescription git logAll stackOf u w = (o, w')
        ∧ w'.(journal) = rev calls ++ w.(journal)
        ∧ LibraryRun logAll tempDir repoUrl u.(oldSha) u.(newSha) calls o
        ∧ w'.(processEnv) = w.(processEnv)
  end.
Proof. apply SimpleGit_run. Qed.
